(** * Forms platform: field validation, dependency graph, calculator and
      form lifecycle service, embedded from the TypeScript sources.

    Source files embedded here:
    - [Graph]           : the dependency graph class (addNode, addEdge, hasCycle)
    - [FieldValidator]  : core/domain/ports/FieldValidator.ts
    - [Calculator]      : core/app/services/Calculator.ts
    - [Repo]            : FormRepositoryPrisma (tables of the SQL migration)
    - [FormService]     : core/app/use-cases/FormService.ts
    - [FormController]  : core/infra/adapters/controllers/FormController.ts *)

From Stdlib Require Import QArith.QArith_base Strings.Ascii.
From stdpp Require Import gmap strings list fin_maps relations pretty.

Close Scope Q_scope.

Open Scope string_scope.
Open Scope list_scope.

(* ===================================================================== *)
(** * Part I. Definitions                                                 *)
(* ===================================================================== *)

(** ** JavaScript [Set<string>] whose iteration order is observed.

    A JS [Set] iterates in insertion order; [add] of a present element
    changes nothing and [delete] removes the element. *)
Module JsSet.
Abbreviation t := (list string).

Definition has (s : t) (x : string) : bool := bool_decide (x ∈ s).
Definition add (s : t) (x : string) : t := if has s x then s else s ++ [x].
Definition delete (s : t) (x : string) : t := filter (λ y, y ≠ x) s.

(** [Array.prototype.indexOf]: first position, or -1. *)
Fixpoint indexOf (l : list string) (x : string) : Z :=
  match l with
  | [] => (-1)%Z
  | y :: l' =>
      if decide (y = x) then 0%Z
      else let i := indexOf l' x in if (i <? 0)%Z then (-1)%Z else (1 + i)%Z
  end.

(** [Array.prototype.slice(start)]: a negative start counts from the end. *)
Definition slice (l : list string) (start : Z) : list string :=
  if (start <? 0)%Z
  then drop (Z.to_nat (Z.max 0 (Z.of_nat (length l) + start))) l
  else drop (Z.to_nat start) l.
End JsSet.

(** ** The dependency graph class *)
Module Graph.

(** [adjacencyList : Map<string, string[]>]: a JS [Map] keeps its keys in
    insertion order, and [hasCycle] iterates over them in that order. *)
Abbreviation t := (list (string * list string)).

Inductive Error :=
| SourceNotFound (source : string)
| DestinationNotFound (destination : string).

Definition empty : t := [].

Definition has (g : t) (node : string) : bool := bool_decide (node ∈ g.*1).

Fixpoint get (g : t) (node : string) : option (list string) :=
  match g with
  | [] => None
  | (k, ns) :: g' => if decide (k = node) then Some ns else get g' node
  end.

Definition addNode (g : t) (node : string) : t :=
  if has g node then g else g ++ [(node, [])].

(** [this.adjacencyList.get(source)?.push(destination)] *)
Fixpoint push (g : t) (source destination : string) : t :=
  match g with
  | [] => []
  | (k, ns) :: g' =>
      if decide (k = source) then (k, ns ++ [destination]) :: g'
      else (k, ns) :: push g' source destination
  end.

Definition addEdge (g : t) (source destination : string) : Error + t :=
  if negb (has g source) then inl (SourceNotFound source)
  else if negb (has g destination) then inl (DestinationNotFound destination)
  else inr (push g source destination).

Definition getNodes (g : t) : list string := g.*1.
Definition getNeighbors (g : t) (node : string) : option (list string) := get g node.

(** The two sets shared by all calls of [detectCycleUtil]. Only the
    recursion stack is ever enumerated ([Array.from]). *)
Record DfsState := mkDfs {
  visited : gset string;
  recursionStack : JsSet.t
}.

Definition Outcome : Type := option (list string) * DfsState.

(** [for (const x of xs) { const cycle = visit(x); if (cycle) return cycle; }
     ... null]. The outer [option] is [None] when the fuel ran out. *)
Fixpoint firstCycle (visit : string → DfsState → option Outcome)
    (xs : list string) (st : DfsState) : option Outcome :=
  match xs with
  | [] => Some (None, st)
  | x :: xs' =>
      match visit x st with
      | None => None
      | Some (Some cycle, st') => Some (Some cycle, st')
      | Some (None, st') => firstCycle visit xs' st'
      end
  end.

Fixpoint detectCycleUtil (fuel : nat) (g : t) (node : string) (st : DfsState)
  : option Outcome :=
  match fuel with
  | O => None
  | S fuel' =>
      if JsSet.has (recursionStack st) node then
        let cycleStartIndex := JsSet.indexOf (recursionStack st) node in
        let cycle := JsSet.slice (recursionStack st) cycleStartIndex in
        Some (Some (cycle ++ [node]), st)
      else if bool_decide (node ∈ visited st) then Some (None, st)
      else
        let st1 := mkDfs ({[node]} ∪ visited st) (JsSet.add (recursionStack st) node) in
        let neighbors := default [] (get g node) in
        match firstCycle (detectCycleUtil fuel' g) neighbors st1 with
        | None => None
        | Some (Some cycle, st2) => Some (Some cycle, st2)
        | Some (None, st2) =>
            Some (None, mkDfs (visited st2) (JsSet.delete (recursionStack st2) node))
        end
  end.

Definition initial : DfsState := mkDfs ∅ [].

Definition hasCycle_fuel (fuel : nat) (g : t) : option Outcome :=
  firstCycle (detectCycleUtil fuel g) (getNodes g) initial.

(** [hasCycle(): string[] | null]. The recursion depth never exceeds the
    number of nodes (lemma [hasCycle_fuel_enough] below), so the fuel given
    here is never exhausted. *)
Definition hasCycle (g : t) : option (list string) :=
  match hasCycle_fuel (S (length g)) g with
  | Some (r, _) => r
  | None => None
  end.

(** Graphs reachable from the constructor by successful method calls. *)
Inductive built : t → Prop :=
| built_empty : built empty
| built_addNode g node : built g → built (addNode g node)
| built_addEdge g source destination g' :
    built g → addEdge g source destination = inr g' → built g'.

(** [edge g u v]: [v] occurs in the adjacency list of [u]. *)
Definition edge (g : t) (u v : string) : Prop :=
  ∃ ns, get g u = Some ns ∧ v ∈ ns.

Definition acyclic (g : t) : Prop := ∀ u, ¬ tc (edge g) u u.

(** Specification-side vocabulary for the traversal: a node is finished
    when it was visited and has left the recursion stack. *)
Definition finished (st : DfsState) (u : string) : Prop :=
  u ∈ visited st ∧ u ∉ recursionStack st.

Record Inv (g : t) (st : DfsState) : Prop := mkInv {
  inv_stack_visited : ∀ x, x ∈ recursionStack st → x ∈ visited st;
  inv_closed : ∀ u v, finished st u → edge g u v → finished st v;
  inv_nocycle : ∀ u, finished st u → ¬ tc (edge g) u u
}.

(** The measure that bounds the nesting of calls: nodes not yet visited. *)
Definition unvisited (g : t) (st : DfsState) : nat :=
  size (list_to_set (getNodes g) ∖ visited st : gset string).

(** What a call promises, given the result it returned. *)
Definition post (g : t) (st : DfsState) (targets : list string) (out : Outcome) : Prop :=
  match out.1 with
  | Some c => (∃ u, tc (edge g) u u) ∧ c ≠ [] ∧ head c = last c
  | None =>
      recursionStack out.2 = recursionStack st ∧
      visited st ⊆ visited out.2 ∧
      (∀ n, n ∈ targets → finished out.2 n) ∧
      Inv g out.2
  end.

End Graph.

Set Warnings "-register-all".

(** ** JavaScript values

    Numbers are the finite ones, as rationals; [NaN] and the infinities are
    not represented. Strings are held as UTF-8, as the literals of this file
    are. [VRegExp] carries the source of a [RegExp] object, [VFunction]
    stands for a function and [VObject] for any other object, taken to be a
    plain one whose members are not represented. *)
Inductive Value :=
| VUndefined
| VNull
| VBool (b : bool)
| VNumber (q : Q)
| VString (s : string)
| VArray (vs : list Value)
| VRegExp (source : string)
| VObject
| VFunction.

(** Truthiness ([if (v)], [!v], [a || b], [a && b]). *)
Definition Q_is_zero (q : Q) : bool := (Qnum q =? 0)%Z.

Definition truthy (v : Value) : bool :=
  match v with
  | VUndefined | VNull => false
  | VBool b => b
  | VNumber q => negb (Q_is_zero q)
  | VString s => negb (bool_decide (s = ""))
  | VArray _ | VRegExp _ | VObject | VFunction => true
  end.

Definition truthy_string (o : option string) : bool :=
  match o with Some s => negb (bool_decide (s = "")) | None => false end.

Definition truthy_bool (o : option bool) : bool := default false o.

Definition truthy_Z (o : option Z) : bool :=
  match o with Some z => negb (z =? 0)%Z | None => false end.

(** [s.length]: the number of UTF-16 code units of the string. A code point
    up to U+FFFF is one unit and takes one to three bytes of UTF-8; a code
    point above takes two units and four bytes. Counted on the leading
    bytes. *)
Definition utf16_units (c : ascii) : nat :=
  let n := nat_of_ascii c in
  if (n <? 128)%nat then 1%nat
  else if (n <? 192)%nat then 0%nat
  else if (n <? 240)%nat then 1%nat
  else 2%nat.

Fixpoint js_length (s : string) : nat :=
  match s with
  | EmptyString => 0%nat
  | String c s' => (utf16_units c + js_length s')%nat
  end.

(** ** Plain objects

    A [Record<string, unknown>] is the finite map of its own properties, its
    prototype being [Object.prototype]. Reading a property that is not an
    own one finds the members of [Object.prototype]: eleven functions, and
    under [__proto__] the prototype itself. *)
Definition Object_prototype : list string :=
  ["constructor"; "__defineGetter__"; "__defineSetter__"; "hasOwnProperty";
   "__lookupGetter__"; "__lookupSetter__"; "isPrototypeOf";
   "propertyIsEnumerable"; "toString"; "valueOf"; "__proto__"; "toLocaleString"].

Definition inherited (key : string) : Value :=
  if bool_decide (key = "__proto__") then VObject
  else if bool_decide (key ∈ Object_prototype) then VFunction
  else VUndefined.

(** An object that starts as [{}] and is filled by assignments
    [obj[key] = value]. Assigning to [__proto__] goes to the setter that
    [Object.prototype] provides: [null] removes the prototype, an object
    replaces it (by one that is taken to inherit from [Object.prototype]
    again), anything else is ignored, and no own property is created. Only
    once the prototype is [null] does the assignment create an own
    property named [__proto__]. *)
Module JsObject.
Record t := mk {
  own : gmap string Value;
  null_prototype : bool
}.

Definition empty : t := mk ∅ false.

Definition set (obj : t) (key : string) (value : Value) : t :=
  if bool_decide (key = "__proto__") && negb (null_prototype obj) then
    match value with
    | VNull => mk (own obj) true
    | _ => obj
    end
  else mk (<[key := value]> (own obj)) (null_prototype obj).
End JsObject.

(** ** JSON columns

    What comes back from a [JSONB] column a value was written to:
    [JSON.parse(JSON.stringify(v))]. In an array [undefined] and functions
    become [null]; as a member of an object they are left out; a [RegExp]
    has no enumerable member and comes back as an empty object. *)
Fixpoint json_value (v : Value) : Value :=
  match v with
  | VUndefined | VFunction => VNull
  | VArray vs => VArray (map json_value vs)
  | VRegExp _ => VObject
  | _ => v
  end.

Definition json_member (v : Value) : option Value :=
  match v with
  | VUndefined | VFunction => None
  | _ => Some (json_value v)
  end.

Definition json_object (o : gmap string Value) : gmap string Value :=
  omap json_member o.

(** A message is a literal or a template literal [`prefix${arg}`]. *)
Inductive Message :=
| Literal (text : string)
| Template (prefix : string) (arg : Value).

(** Library functions the sources call and that are kept abstract:
    [RegExp.prototype.test], [Date.parse] ([None] is [NaN]), mathjs
    [evaluate] ([None] when it throws) and [Number(x.toFixed(d))]
    ([None] when [toFixed] throws). *)
Record Builtins := mkBuiltins {
  regexp_test : string → string → bool;
  Date_parse : string → option Z;
  evaluate : string → gmap string Value → option Value;
  toFixed : Q → Z → option Q
}.

(** ** Entities (domain/entities/Form.ts) *)
Inductive FieldKind :=
| text | number | boolean | select | date | calculated
| other_kind (tipo : string).

Inductive Formato := inteiro | decimal.

Record Validacao := mkValidacao {
  v_tipo : string;
  v_valor : Value;              (* [VUndefined] when absent *)
  v_mensagem : option string
}.

Record Opcao := mkOpcao { o_label : string; o_value : string }.

Module Field.
Record t := mk {
  id : string;
  label : string;
  tipo : FieldKind;
  obrigatorio : option bool;
  condicional : option string;
  validacoes : option (list Validacao);
  formula : option string;
  dependencias : option (list string);
  precisao : option Z;
  formato : option Formato;
  multipla : option bool;
  opcoes : option (list Opcao);
  minima : option string;
  maxima : option string
}.
End Field.

(** Dates are clock readings: milliseconds since the epoch. *)
Module Form.
Record t := mk {
  id : string;
  nome : string;
  descricao : option string;
  schema_version : Z;
  is_ativo : bool;
  data_criacao : Z;
  data_remocao : option Z;
  usuario_remocao : option string;
  protegido : bool;
  campos : list Field.t
}.
End Form.

(** [Partial<Form>]; also the shape of what actually reaches
    [criarFormulario], whose caller may leave [protegido] unset. The
    members [data_remocao] and [usuario_remocao] are left out: neither the
    service nor the repository reads them from a payload. *)
Module PartialForm.
Record t := mk {
  id : option string;
  nome : option string;
  descricao : option string;
  schema_version : option Z;
  is_ativo : option bool;
  data_criacao : option Z;
  protegido : option bool;
  campos : option (list Field.t)
}.
End PartialForm.

Module Response.
Record t := mk {
  id : string;
  formId : string;
  schema_version : Z;
  respostas : gmap string Value;
  calculados : gmap string Value;
  criado_em : Z;
  is_ativo : bool;
  data_remocao : option Z;
  usuario_remocao : option string
}.
End Response.

(** What a [JSONB] column returns of a list of fields: the only member of
    a field that is not a string, a number, a boolean or a list of those is
    the [valor] of a rule, which is left out when JSON cannot carry it. *)
Definition json_validacao (v : Validacao) : Validacao :=
  mkValidacao (v_tipo v) (default VUndefined (json_member (v_valor v))) (v_mensagem v).

Definition json_campo (c : Field.t) : Field.t :=
  Field.mk (Field.id c) (Field.label c) (Field.tipo c) (Field.obrigatorio c)
    (Field.condicional c) (map json_validacao <$> Field.validacoes c)
    (Field.formula c) (Field.dependencias c) (Field.precisao c) (Field.formato c)
    (Field.multipla c) (Field.opcoes c) (Field.minima c) (Field.maxima c).

(** ** Errors

    Every [throw new Error(...)] of the sources is a constructor carrying
    what the message interpolates. *)
Inductive IssueCode :=
| invalid_type | too_small | too_big | invalid_string | custom.

Record ZodIssue := mkIssue {
  code : IssueCode;
  message : option Message     (* [None]: zod's default message *)
}.

Inductive Error :=
| ZodError (issues : list ZodIssue)
| TypeError_not_a_function (method : string)
| Unsupported_field_type (tipo : string)
    (* Unsupported field type: ${tipo} *)
| Campo_calculado_deve_ter_formula_e_dependencias
| Campo_calculado_requer (id : string)
    (* Campo calculado '${id}' requer fórmula e dependências *)
| Dependencias_ausentes (id : string) (missingDeps : list string)
| Avaliacao_da_formula_falhou (formula : string)
| Formulario_nao_encontrado
| Formulario_inativo
| Versao_nao_maior (given current : Z)
    (* Versão do schema ${given} não é maior que a versão atual ${current} *)
| Versao_do_schema_desatualizada
| Resposta_nao_encontrada
| Resposta_inativa
| Expressao_condicional_invalida (condicional : string)
| Dependencia_circular (campo : string)
| Campos_not_iterable
| Prisma_missing_argument (table : string)
| Prisma_unique_constraint (table : string) (id : string)
| Prisma_record_not_found (table : string) (id : string)
| Prisma_foreign_key (formId : string).

Abbreviation Result A := (Error + A)%type.

(** [throw] propagates through sequencing. *)
#[global] Instance Result_ret : MRet (sum Error) := λ A x, inr x.
#[global] Instance Result_bind : MBind (sum Error) :=
  λ A B f m, match m with inl e => inl e | inr x => f x end.

(** The errors [FieldValidator.validate] can reject with. *)
Definition validation_error (e : Error) : bool :=
  match e with
  | ZodError _ | TypeError_not_a_function _ | Unsupported_field_type _
  | Campo_calculado_deve_ter_formula_e_dependencias => true
  | _ => false
  end.

(** The errors [Calculator.calculate] can reject with. *)
Definition calculation_error (e : Error) : bool :=
  match e with
  | Campo_calculado_requer _ | Dependencias_ausentes _ _
  | Avaliacao_da_formula_falhou _ => true
  | _ => false
  end.

(** ** The fragment of zod the validator uses *)
Module Zod.

Inductive StringCheck :=
| str_min (value : Q) (msg : Message)
| str_regex (source : string) (msg : Message).

Inductive NumberCheck :=
| num_int
| num_min (value : Q) (msg : Message)
| num_max (value : Q) (msg : Message).

Inductive ZodType :=
| ZodString (checks : list StringCheck)
| ZodNumber (checks : list NumberCheck)
| ZodBoolean
| ZodUndefined
| ZodAny
| ZodOptional (innerType : ZodType)
| ZodArray (element : ZodType)
| ZodEffects (schema : ZodType) (refinement : Value → bool) (msg : Message).

(** zod's parse status: [aborted] stops refinements, [dirty] keeps going. *)
Inductive Status := valid | dirty | aborted.

Definition merge (a b : Status) : Status :=
  match a, b with
  | aborted, _ | _, aborted => aborted
  | dirty, _ | _, dirty => dirty
  | valid, valid => valid
  end.

Definition ParseReturn : Type := Status * list ZodIssue.

(** A value of the wrong type: one [invalid_type] issue, and the parse is
    aborted. *)
Definition invalid (v : Value) : ParseReturn :=
  (aborted, [mkIssue invalid_type None]).

Definition Q_is_integer (q : Q) : bool := (Qnum q mod Zpos (Qden q) =? 0)%Z.

Section Parse.
Variable B : Builtins.

Definition run_string_check (s : string) (c : StringCheck) : list ZodIssue :=
  match c with
  | str_min value msg =>
      if Qle_bool value (inject_Z (Z.of_nat (js_length s))) then []
      else [mkIssue too_small (Some msg)]
  | str_regex source msg =>
      if regexp_test B source s then [] else [mkIssue invalid_string (Some msg)]
  end.

Definition run_number_check (q : Q) (c : NumberCheck) : list ZodIssue :=
  match c with
  | num_int => if Q_is_integer q then [] else [mkIssue invalid_type None]
  | num_min value msg =>
      if Qle_bool value q then [] else [mkIssue too_small (Some msg)]
  | num_max value msg =>
      if Qle_bool q value then [] else [mkIssue too_big (Some msg)]
  end.

Definition of_issues (issues : list ZodIssue) : ParseReturn :=
  (match issues with [] => valid | _ => dirty end, issues).

Fixpoint _parse (schema : ZodType) (v : Value) : ParseReturn :=
  match schema with
  | ZodString checks =>
      match v with
      | VString s => of_issues (concat (map (run_string_check s) checks))
      | _ => invalid v
      end
  | ZodNumber checks =>
      match v with
      | VNumber q => of_issues (concat (map (run_number_check q) checks))
      | _ => invalid v
      end
  | ZodBoolean => match v with VBool _ => (valid, []) | _ => invalid v end
  | ZodUndefined => match v with VUndefined => (valid, []) | _ => invalid v end
  | ZodAny => (valid, [])
  | ZodOptional innerType =>
      match v with VUndefined => (valid, []) | _ => _parse innerType v end
  | ZodArray element =>
      match v with
      | VArray vs =>
          let rs := map (_parse element) vs in
          (foldr merge valid (map fst rs), concat (map snd rs))
      | _ => invalid v
      end
  | ZodEffects inner refinement msg =>
      let r := _parse inner v in
      match r.1 with
      | aborted => r
      | _ => if refinement v then r else (dirty, r.2 ++ [mkIssue custom (Some msg)])
      end
  end.

(** [schema.parseAsync(value)]: resolves, or rejects with a [ZodError]. *)
Definition parseAsync (schema : ZodType) (v : Value) : Result unit :=
  match _parse schema v with
  | (valid, _) => inr tt
  | (_, issues) => inl (ZodError issues)
  end.

End Parse.

(** The methods the validator calls on a schema it has cast to [ZodString]
    or [ZodNumber]: they exist on that class only. *)
Definition min_string (schema : ZodType) (value : Q) (msg : Message) : Result ZodType :=
  match schema with
  | ZodString cs => inr (ZodString (cs ++ [str_min value msg]))
  | _ => inl (TypeError_not_a_function "min")
  end.

Definition regex (schema : ZodType) (source : string) (msg : Message) : Result ZodType :=
  match schema with
  | ZodString cs => inr (ZodString (cs ++ [str_regex source msg]))
  | _ => inl (TypeError_not_a_function "regex")
  end.

Definition int (schema : ZodType) : Result ZodType :=
  match schema with
  | ZodNumber cs => inr (ZodNumber (cs ++ [num_int]))
  | _ => inl (TypeError_not_a_function "int")
  end.

Definition min_number (schema : ZodType) (value : Q) (msg : Message) : Result ZodType :=
  match schema with
  | ZodNumber cs => inr (ZodNumber (cs ++ [num_min value msg]))
  | _ => inl (TypeError_not_a_function "min")
  end.

Definition max_number (schema : ZodType) (value : Q) (msg : Message) : Result ZodType :=
  match schema with
  | ZodNumber cs => inr (ZodNumber (cs ++ [num_max value msg]))
  | _ => inl (TypeError_not_a_function "max")
  end.

End Zod.

(** ** core/domain/ports/FieldValidator.ts *)
Module FieldValidator.
Import Zod.

Section WithBuiltins.
Variable B : Builtins.

(** [val => !val || !isNaN(Date.parse(val))] *)
Definition date_refinement (val : Value) : bool :=
  negb (truthy val) ||
  match val with
  | VString s => bool_decide (is_Some (Date_parse B s))
  | _ => false
  end.

(** [new Date(v)] as a time value; [None] is an invalid date. *)
Definition new_Date_of (v : Value) : option Z :=
  match v with VString s => Date_parse B s | _ => None end.

(** [new Date(a) >= new Date(b)]: false as soon as one side is invalid. *)
Definition date_ge (a b : option Z) : bool :=
  match a, b with Some x, Some y => (y <=? x)%Z | _, _ => false end.

Definition date_le (a b : option Z) : bool :=
  match a, b with Some x, Some y => (x <=? y)%Z | _, _ => false end.

(** [baseValidators[field.tipo] || z.any()] *)
Definition baseValidators (tipo : FieldKind) : ZodType :=
  match tipo with
  | text => ZodString []
  | number => ZodNumber []
  | boolean => ZodBoolean
  | date => ZodEffects (ZodString []) date_refinement (Literal "Data inválida")
  | select => ZodString []
  | calculated => ZodUndefined
  | other_kind _ => ZodAny
  end.

(** [field.validacoes?.find((v) => v.tipo === name)] *)
Definition find_validacao (field : Field.t) (name : string) : option Validacao :=
  match Field.validacoes field with
  | Some vs => List.find (λ v, bool_decide (v_tipo v = name)) vs
  | None => None
  end.

(** [mensagem || fallback] *)
Definition mensagem_or (v : Validacao) (fallback : Message) : Message :=
  match v_mensagem v with
  | Some m => if bool_decide (m = "") then fallback else Literal m
  | None => fallback
  end.

Definition applyTextValidations (schema : ZodType) (field : Field.t) : Result ZodType :=
  let minLength := find_validacao field "tamanho_minimo" in
  schema1 ←
    match minLength with
    | Some v =>
        match v_valor v with
        | VNumber q =>
            if truthy (VNumber q)
            then min_string schema q
                   (mensagem_or v (Template "Tamanho mínimo é " (VNumber q)))
            else inr schema
        | _ => inr schema
        end
    | None => inr schema
    end;
  let regex := find_validacao field "regex" in
  match regex with
  | Some v =>
      match v_valor v with
      | VRegExp source => Zod.regex schema1 source (mensagem_or v (Literal "Formato inválido"))
      | _ => inr schema1
      end
  | None => inr schema1
  end.

(** The body of the [forEach] callback of [applyNumberValidations]; both
    [if]s are tried on every rule. *)
Definition number_rule (schema : ZodType) (v : Validacao) : Result ZodType :=
  schema1 ←
    match v_valor v with
    | VNumber q =>
        if bool_decide (v_tipo v = "minimo")
        then min_number schema q (mensagem_or v (Template "Valor mínimo é " (VNumber q)))
        else inr schema
    | _ => inr schema
    end;
  match v_valor v with
  | VNumber q =>
      if bool_decide (v_tipo v = "maximo")
      then max_number schema1 q (mensagem_or v (Template "Valor máximo é " (VNumber q)))
      else inr schema1
  | _ => inr schema1
  end.

Fixpoint number_rules (schema : ZodType) (vs : list Validacao) : Result ZodType :=
  match vs with
  | [] => inr schema
  | v :: vs' => schema1 ← number_rule schema v; number_rules schema1 vs'
  end.

Definition applyNumberValidations (schema : ZodType) (field : Field.t) : Result ZodType :=
  schema1 ←
    match Field.formato field with
    | Some inteiro => Zod.int schema
    | _ => inr schema
    end;
  number_rules schema1 (default [] (Field.validacoes field)).

Definition applyDateValidations (schema : ZodType) (field : Field.t) : ZodType :=
  let schema1 :=
    if truthy_string (Field.minima field) then
      let minima := default "" (Field.minima field) in
      ZodEffects schema
        (λ val, negb (truthy val) || date_ge (new_Date_of val) (Date_parse B minima))
        (Template "Data deve ser após " (VString minima))
    else schema in
  if truthy_string (Field.maxima field) then
    let maxima := default "" (Field.maxima field) in
    ZodEffects schema1
      (λ val, negb (truthy val) || date_le (new_Date_of val) (Date_parse B maxima))
      (Template "Data deve ser antes " (VString maxima))
  else schema1.

(** [options.includes(val)] *)
Definition includes (options : list string) (val : Value) : bool :=
  match val with
  | VString s => bool_decide (s ∈ options)
  | _ => false
  end.

(** [vals.every((val) => options.includes(val))] *)
Definition every_included (options : list string) (vals : Value) : bool :=
  match vals with
  | VArray vs => forallb (includes options) vs
  | _ => false
  end.

Definition applySelectValidations (schema : ZodType) (field : Field.t) : ZodType :=
  let options := default [] (map o_value <$> Field.opcoes field) in
  if truthy_bool (Field.multipla field)
  then ZodEffects (ZodArray (ZodString [])) (every_included options) (Literal "Opção inválida")
  else ZodEffects schema (includes options) (Literal "Opção inválida").

Definition is_undefined (value : Value) : bool :=
  match value with VUndefined => true | _ => false end.

Definition applyCalculatedValidations (schema : ZodType) (field : Field.t) : Result ZodType :=
  if negb (truthy_string (Field.formula field)) || negb (bool_decide (is_Some (Field.dependencias field)))
  then inl Campo_calculado_deve_ter_formula_e_dependencias
  else inr (ZodEffects schema is_undefined
              (Literal "Campos calculados não podem ter valores inseridos manualmente")).

Definition getValidator (field : Field.t) : Result ZodType :=
  let schema := baseValidators (Field.tipo field) in
  let schema := if negb (truthy_bool (Field.obrigatorio field)) then ZodOptional schema else schema in
  match Field.tipo field with
  | text => applyTextValidations schema field
  | number => applyNumberValidations schema field
  | boolean => inr schema
  | date => inr (applyDateValidations schema field)
  | select => inr (applySelectValidations schema field)
  | calculated => applyCalculatedValidations schema field
  | other_kind tipo => inl (Unsupported_field_type tipo)
  end.

Definition validate (value : Value) (field : Field.t) : Result unit :=
  validator ← getValidator field;
  parseAsync B validator value.

End WithBuiltins.
End FieldValidator.

(** ** core/app/services/Calculator.ts *)
Module Calculator.
Section WithBuiltins.
Variable B : Builtins.

(** [values[key]] on a plain object: the own property, or else what
    [Object.prototype] has under that name. *)
Definition prop (values : gmap string Value) (key : string) : Value :=
  match values !! key with
  | Some value => value
  | None => inherited key
  end.

(** [key in values]: own or inherited. *)
Definition has_key (values : gmap string Value) (key : string) : bool :=
  bool_decide (is_Some (values !! key)) || bool_decide (key ∈ Object_prototype).

(** The scope is filled by [acc[dep] = values[dep]], so a dependency that
    is a name of [Object.prototype] puts the inherited member in the scope,
    and one named [__proto__] goes to the prototype of the scope
    ([JsObject.set]). [evaluate] is handed the own properties of the
    scope. *)
Definition calculate (field : Field.t) (values : gmap string Value) : Result Value :=
  match Field.formula field, Field.dependencias field with
  | Some formula, Some dependencias =>
      if bool_decide (formula = "") then inl (Campo_calculado_requer (Field.id field))
      else
        let missingDeps := List.filter (λ dep, negb (has_key values dep)) dependencias in
        if (0 <? length missingDeps)%nat
        then inl (Dependencias_ausentes (Field.id field) missingDeps)
        else
          let scope :=
            foldl (λ acc dep, JsObject.set acc dep (prop values dep))
              JsObject.empty dependencias in
          match evaluate B formula (JsObject.own scope) with
          | None => inl (Avaliacao_da_formula_falhou formula)
          | Some (VNumber q) =>
              match Field.precisao field with
              | Some d =>
                  match toFixed B q d with
                  | Some q' => inr (VNumber q')
                  | None => inl (Avaliacao_da_formula_falhou formula)
                  end
              | None => inr (VNumber q)
              end
          | Some result => inr result
          end
  | _, _ => inl (Campo_calculado_requer (Field.id field))
  end.

End WithBuiltins.
End Calculator.

(** ** The world the service runs in

    [forms] and [responses] are the two tables of the SQL migration, each
    keyed by its primary key [id]; [now] is the reading of the system clock
    in milliseconds ([new Date()], [Date.now()]), which the environment may
    advance between calls; [audit] is what [logger.info] has written. *)
Inductive AuditEvent :=
| criacao_formulario (id : string) (timestamp : Z)
| atualizacao_schema (id : string) (anterior nova : Z) (timestamp : Z)
| submissao_resposta (id_formulario id_resposta : string) (timestamp : Z)
| busca_formulario (id : string) (timestamp : Z)
| exclusao_logica_formulario (id usuario : string) (timestamp : Z)
| exclusao_logica_resposta (id_formulario id_resposta usuario : string) (timestamp : Z).

Record World := mkWorld {
  forms : gmap string Form.t;
  responses : gmap string Response.t;
  now : Z;
  audit : list AuditEvent
}.

Definition set_forms (w : World) (fs : gmap string Form.t) : World :=
  mkWorld fs (responses w) (now w) (audit w).

Definition set_responses (w : World) (rs : gmap string Response.t) : World :=
  mkWorld (forms w) rs (now w) (audit w).

(** The clock moves on between two calls. *)
Definition advance (d : Z) (w : World) : World :=
  mkWorld (forms w) (responses w) (now w + d) (audit w).

(** An [async] method: reads and writes the world, resolves or rejects. *)
Definition M (A : Type) : Type := World → Result A * World.

#[global] Instance M_ret : MRet M := λ A x w, (inr x, w).
#[global] Instance M_bind : MBind M :=
  λ A B f m w, match m w with
               | (inl e, w') => (inl e, w')
               | (inr x, w') => f x w'
               end.

Definition throw {A} (e : Error) : M A := λ w, (inl e, w).
Definition lift {A} (r : Result A) : M A := λ w, (r, w).
Definition new_Date : M Z := λ w, (inr (now w), w).
Definition logger_info (ev : Z → AuditEvent) : M unit :=
  λ w, (inr tt, mkWorld (forms w) (responses w) (now w) (audit w ++ [ev (now w)])).

(** ** FormRepositoryPrisma *)
Module Repo.

(** The columns [prisma.form.create] is given; a required column left
    [undefined] makes Prisma reject the call. The migration declares no
    default for [id] or [nome]. *)
Definition row_of (data : PartialForm.t) : option Form.t :=
  id ← PartialForm.id data;
  nome ← PartialForm.nome data;
  schema_version ← PartialForm.schema_version data;
  is_ativo ← PartialForm.is_ativo data;
  data_criacao ← PartialForm.data_criacao data;
  protegido ← PartialForm.protegido data;
  campos ← PartialForm.campos data;
  Some (Form.mk id nome (PartialForm.descricao data) schema_version is_ativo
          data_criacao None None protegido campos).

(** [campos] is a [JSONB] column: the row holds, and the call returns, what
    JSON makes of the fields. *)
Definition create (form : PartialForm.t) : M Form.t := λ w,
  match row_of form with
  | None => (inl (Prisma_missing_argument "forms"), w)
  | Some data =>
      if bool_decide (is_Some (forms w !! Form.id data))
      then (inl (Prisma_unique_constraint "forms" (Form.id data)), w)
      else
        let row := Form.mk (Form.id data) (Form.nome data) (Form.descricao data)
                     (Form.schema_version data) (Form.is_ativo data)
                     (Form.data_criacao data) None None (Form.protegido data)
                     (map json_campo (Form.campos data)) in
        (inr row, set_forms w (<[Form.id row := row]> (forms w)))
  end.

Definition findById (id : string) : M (option Form.t) := λ w,
  (inr (forms w !! id), w).

Definition softDelete (id user : string) : M unit := λ w,
  match forms w !! id with
  | None => (inl (Prisma_record_not_found "forms" id), w)
  | Some row =>
      let row' := Form.mk (Form.id row) (Form.nome row) (Form.descricao row)
                    (Form.schema_version row) false (Form.data_criacao row)
                    (Some (now w)) (Some user) (Form.protegido row) (Form.campos row) in
      (inr tt, set_forms w (<[id := row']> (forms w)))
  end.

(** [data: { nome, descricao, schema_version, campos }]: no other column is
    written, and a column given as [undefined] is left as it is. *)
Definition updateSchema (id : string) (form : PartialForm.t) : M Form.t := λ w,
  match forms w !! id with
  | None => (inl (Prisma_record_not_found "forms" id), w)
  | Some row =>
      let row' := Form.mk (Form.id row)
                    (default (Form.nome row) (PartialForm.nome form))
                    (match PartialForm.descricao form with
                     | Some d => Some d
                     | None => Form.descricao row
                     end)
                    (default (Form.schema_version row) (PartialForm.schema_version form))
                    (Form.is_ativo row) (Form.data_criacao row)
                    (Form.data_remocao row) (Form.usuario_remocao row)
                    (Form.protegido row)
                    (default (Form.campos row)
                       (map json_campo <$> PartialForm.campos form)) in
      (inr row', set_forms w (<[id := row']> (forms w)))
  end.

(** [respostas] and [calculados] are [JSONB] columns; the call returns the
    row as it is read back. *)
Definition saveResponse (formId : string) (response : Response.t) : M Response.t := λ w,
  if bool_decide (is_Some (responses w !! Response.id response))
  then (inl (Prisma_unique_constraint "responses" (Response.id response)), w)
  else if negb (bool_decide (is_Some (forms w !! formId)))
  then (inl (Prisma_foreign_key formId), w)
  else
    let row := Response.mk (Response.id response) formId
                 (Response.schema_version response)
                 (json_object (Response.respostas response))
                 (json_object (Response.calculados response))
                 (Response.criado_em response)
                 (Response.is_ativo response) None None in
    (inr row, set_responses w (<[Response.id response := row]> (responses w))).

Definition findResponseById (formId responseId : string) : M (option Response.t) := λ w,
  (inr (match responses w !! responseId with
        | Some r => if bool_decide (Response.formId r = formId) then Some r else None
        | None => None
        end), w).

Definition softDeleteResponse (formId responseId user : string) : M unit := λ w,
  match responses w !! responseId with
  | Some r =>
      if bool_decide (Response.formId r = formId) then
        let r' := Response.mk (Response.id r) (Response.formId r)
                    (Response.schema_version r) (Response.respostas r)
                    (Response.calculados r) (Response.criado_em r)
                    false (Some (now w)) (Some user) in
        (inr tt, set_responses w (<[responseId := r']> (responses w)))
      else (inl (Prisma_record_not_found "responses" responseId), w)
  | None => (inl (Prisma_record_not_found "responses" responseId), w)
  end.

End Repo.

(** ** core/app/use-cases/FormService.ts *)
Module FormService.

(** [String.prototype.split(sep)] for a one-character separator. *)
Fixpoint split (sep : ascii) (s : string) : list string :=
  match s with
  | EmptyString => [""]
  | String c s' =>
      if bool_decide (c = sep) then "" :: split sep s'
      else match split sep s' with
           | [] => [String c ""]
           | part :: parts => String c part :: parts
           end
  end.

(** [valor === valorEsperado], the right-hand side being a string. *)
Definition strict_equal_string (valor : Value) (s : string) : bool :=
  match valor with
  | VString v => bool_decide (v = s)
  | _ => false
  end.

(** The [try] block throws on a malformed expression and the [catch]
    rethrows with the expression in the message. *)
Definition avaliarCondicional (condicional : string) (valores : gmap string Value)
  : Result bool :=
  let parts := split "="%char condicional in
  let campoId := parts !! 0%nat in
  let valorEsperado := parts !! 1%nat in
  if negb (truthy_string campoId) || negb (truthy_string valorEsperado)
  then inl (Expressao_condicional_invalida condicional)
  else
    let valor := Calculator.prop valores (default "" campoId) in
    inr (strict_equal_string valor (default "" valorEsperado)).

(** *** verificarDependenciasCirculares *)

(** [Map.prototype.set]: an existing key keeps its place. *)
Fixpoint grafo_set (grafo : list (string * list string)) (k : string) (v : list string)
  : list (string * list string) :=
  match grafo with
  | [] => [(k, v)]
  | (k', v') :: rest =>
      if decide (k' = k) then (k, v) :: rest else (k', v') :: grafo_set rest k v
  end.

Definition grafo_of (campos : list Field.t) : list (string * list string) :=
  foldl (λ grafo campo,
           grafo_set grafo (Field.id campo) (default [] (Field.dependencias campo)))
        [] campos.

Record Ciclo := mkCiclo {
  visitados : gset string;
  pilhaRecursao : gset string
}.

(** A [for ... of] loop whose body may throw; the outer [option] is [None]
    when the fuel ran out. *)
Fixpoint paraCada (body : string → Ciclo → option (Result Ciclo))
    (xs : list string) (st : Ciclo) : option (Result Ciclo) :=
  match xs with
  | [] => Some (inr st)
  | x :: xs' =>
      match body x st with
      | None => None
      | Some (inl e) => Some (inl e)
      | Some (inr st') => paraCada body xs' st'
      end
  end.

Fixpoint detectarCiclo (fuel : nat) (grafo : list (string * list string))
    (no : string) (st : Ciclo) : option (Result Ciclo) :=
  match fuel with
  | O => None
  | S fuel' =>
      let st1 := mkCiclo ({[no]} ∪ visitados st) ({[no]} ∪ pilhaRecursao st) in
      match paraCada
              (λ vizinho st,
                 if negb (bool_decide (vizinho ∈ visitados st))
                 then detectarCiclo fuel' grafo vizinho st
                 else if bool_decide (vizinho ∈ pilhaRecursao st)
                 then Some (inl (Dependencia_circular vizinho))
                 else Some (inr st))
              (default [] (Graph.get grafo no)) st1 with
      | None => None
      | Some (inl e) => Some (inl e)
      | Some (inr st2) =>
          Some (inr (mkCiclo (visitados st2) (pilhaRecursao st2 ∖ {[no]})))
      end
  end.

(** The measure that bounds the nesting of calls: keys not yet visited. *)
Definition por_visitar (grafo : list (string * list string)) (st : Ciclo) : nat :=
  size (list_to_set (grafo.*1) ∖ visitados st : gset string).

Definition verificar_fuel (fuel : nat) (campos : list Field.t) : option (Result Ciclo) :=
  let grafo := grafo_of campos in
  paraCada
    (λ no st,
       if negb (bool_decide (no ∈ visitados st))
       then detectarCiclo fuel grafo no st
       else Some (inr st))
    (grafo.*1) (mkCiclo ∅ ∅).

(** The nesting of [detectarCiclo] calls is bounded by the number of keys
    of [grafo], hence by the number of fields (lemma [verificar_fuel_enough]
    below): the last case is never taken. *)
Definition verificarDependenciasCirculares (campos : list Field.t) : Result unit :=
  match verificar_fuel (S (length campos)) campos with
  | Some (inl e) => inl e
  | Some (inr _) => inr tt
  | None => inr tt
  end.

Section WithBuiltins.
Variable B : Builtins.

Fixpoint validarCampos (campos : list Field.t) : Result unit :=
  match campos with
  | [] => inr tt
  | campo :: rest =>
      _ ← FieldValidator.validate B VUndefined campo;
      validarCampos rest
  end.

Definition is_calculated (campo : Field.t) : bool :=
  match Field.tipo campo with calculated => true | _ => false end.

(** The first loop of [enviarResposta]. *)
Fixpoint validarRespostas (campos : list Field.t) (respostas : gmap string Value)
  : Result unit :=
  match campos with
  | [] => inr tt
  | campo :: rest =>
      if is_calculated campo then validarRespostas rest respostas
      else
        skip ←
          (if truthy_string (Field.condicional campo)
           then b ← avaliarCondicional (default "" (Field.condicional campo)) respostas;
                mret (negb b)
           else mret false);
        if (skip : bool) then validarRespostas rest respostas
        else
          _ ← FieldValidator.validate B (Calculator.prop respostas (Field.id campo)) campo;
          validarRespostas rest respostas
  end.

(** The second loop: every field of kind [calculated], in the order of
    [formulario.campos], each computed from [respostas] and assigned by
    [camposCalculados[campo.id] = ...]. *)
Fixpoint calcularCampos (calculados : list Field.t) (respostas : gmap string Value)
    (camposCalculados : JsObject.t) : Result JsObject.t :=
  match calculados with
  | [] => inr camposCalculados
  | campo :: rest =>
      valor ← Calculator.calculate B campo respostas;
      calcularCampos rest respostas (JsObject.set camposCalculados (Field.id campo) valor)
  end.

Definition criarFormulario (form : PartialForm.t) : M Form.t :=
  campos ← match PartialForm.campos form with
           | Some campos => mret campos
           | None => throw Campos_not_iterable
           end;
  _ ← lift (validarCampos campos);
  _ ← lift (verificarDependenciasCirculares campos);
  data_criacao ← new_Date;
  novoFormulario ←
    Repo.create
      (PartialForm.mk (PartialForm.id form) (PartialForm.nome form)
         (PartialForm.descricao form) (Some 1%Z) (Some true) (Some data_criacao)
         (Some (default false (PartialForm.protegido form)))
         (PartialForm.campos form));
  _ ← logger_info (criacao_formulario (Form.id novoFormulario));
  mret novoFormulario.

Definition atualizarSchemaFormulario (id : string) (formularioAtualizado : PartialForm.t)
  : M Form.t :=
  encontrado ← Repo.findById id;
  match encontrado with
  | None => throw Formulario_nao_encontrado
  | Some formularioExistente =>
      if negb (Form.is_ativo formularioExistente) then throw Formulario_inativo
      else
        let campos := default [] (PartialForm.campos formularioAtualizado) in
        _ ← lift (validarCampos campos);
        _ ← lift (verificarDependenciasCirculares campos);
        let novaVersaoSchema := (Form.schema_version formularioExistente + 1)%Z in
        let dada := PartialForm.schema_version formularioAtualizado in
        if truthy_Z dada &&
           (default 0 dada <=? Form.schema_version formularioExistente)%Z
        then throw (Versao_nao_maior (default 0%Z dada)
                      (Form.schema_version formularioExistente))
        else
          atualizado ←
            Repo.updateSchema id
              (PartialForm.mk (PartialForm.id formularioAtualizado)
                 (PartialForm.nome formularioAtualizado)
                 (PartialForm.descricao formularioAtualizado)
                 (Some novaVersaoSchema)
                 (Some (Form.is_ativo formularioExistente))
                 (Some (Form.data_criacao formularioExistente))
                 (Some (Form.protegido formularioExistente))
                 (PartialForm.campos formularioAtualizado));
          _ ← logger_info
                (atualizacao_schema id (Form.schema_version formularioExistente)
                   novaVersaoSchema);
          mret atualizado
  end.

(** [Date.now()] for the id and [new Date()] for [criado_em] are one
    reading of the clock. *)
Definition enviarResposta (formId : string) (respostas : gmap string Value)
    (schema_version : option Z) : M Response.t :=
  encontrado ← Repo.findById formId;
  match encontrado with
  | None => throw Formulario_nao_encontrado
  | Some formulario =>
      if negb (Form.is_ativo formulario) then throw Formulario_inativo
      else
        let versaoAlvo :=
          if truthy_Z schema_version then default 0%Z schema_version
          else Form.schema_version formulario in
        if negb (versaoAlvo =? Form.schema_version formulario)%Z
        then throw Versao_do_schema_desatualizada
        else
          _ ← lift (validarRespostas (Form.campos formulario) respostas);
          camposCalculados ←
            lift (calcularCampos (List.filter is_calculated (Form.campos formulario))
                    respostas JsObject.empty);
          agora ← new_Date;
          respostaSalva ←
            Repo.saveResponse formId
              (Response.mk ("resposta_" +:+ pretty agora) formId versaoAlvo
                 respostas (JsObject.own camposCalculados) agora true None None);
          _ ← logger_info (submissao_resposta formId (Response.id respostaSalva));
          mret respostaSalva
  end.

Definition obterFormularioPorId (id : string) : M (option Form.t) :=
  formulario ← Repo.findById id;
  match formulario with
  | Some _ => _ ← logger_info (busca_formulario id); mret formulario
  | None => mret formulario
  end.

Definition desativarFormulario (id usuario : string) : M unit :=
  encontrado ← Repo.findById id;
  match encontrado with
  | None => throw Formulario_nao_encontrado
  | Some formularioExistente =>
      if negb (Form.is_ativo formularioExistente) then throw Formulario_inativo
      else
        _ ← Repo.softDelete id usuario;
        logger_info (exclusao_logica_formulario id usuario)
  end.

Definition desativarResposta (formId respostaId usuario : string) : M unit :=
  encontrada ← Repo.findResponseById formId respostaId;
  match encontrada with
  | None => throw Resposta_nao_encontrada
  | Some resposta =>
      if negb (Response.is_ativo resposta) then throw Resposta_inativa
      else
        _ ← Repo.softDeleteResponse formId respostaId usuario;
        logger_info (exclusao_logica_resposta formId respostaId usuario)
  end.

End WithBuiltins.
End FormService.

(** ** core/infra/adapters/controllers/FormController.ts (softDelete) *)
Module FormController.

Inductive Body :=
| success_true
| error_text (text : string)
| error_thrown (e : Error).

Record HttpResponse := mkHttp { status : Z; body : Body }.

(** [/^[a-z0-9_-]+$/i] with [.min(1).max(50)] *)
Definition id_char (c : ascii) : bool :=
  let n := nat_of_ascii c in
  ((97 <=? n) && (n <=? 122) || (65 <=? n) && (n <=? 90) ||
   (48 <=? n) && (n <=? 57) || (n =? 95) || (n =? 45))%nat.

Definition idSchema (id : string) : Result string :=
  if forallb id_char (String.list_ascii_of_string id) &&
     (1 <=? js_length id)%nat && (js_length id <=? 50)%nat
  then inr id
  else inl (ZodError [mkIssue invalid_string None]).

Definition handleError (e : Error) (statusCode : Z) : HttpResponse :=
  mkHttp statusCode (error_thrown e).

Definition softDelete (id_param : string) (w : World) : HttpResponse * World :=
  match idSchema id_param with
  | inl e => (handleError e 400, w)
  | inr id =>
      match FormService.obterFormularioPorId id w with
      | (inl e, w1) => (handleError e 400, w1)
      | (inr None, w1) => (mkHttp 404 (error_text "Formulário não encontrado"), w1)
      | (inr (Some form), w1) =>
          if Form.protegido form
          then (mkHttp 403 (error_text "Formulário protegido não pode ser removido"), w1)
          else
            match FormService.desativarFormulario id "usuario_admin" w1 with
            | (inl e, w2) => (handleError e 400, w2)
            | (inr _, w2) => (mkHttp 200 success_true, w2)
            end
      end
  end.

End FormController.

(** ** Sample data used by the examples below *)

(** A stand-in for the library functions: every pattern matches, no date
    parses, a formula evaluates only when it is the name of a variable in
    scope, and rounding returns its argument. *)
Definition example_builtins : Builtins :=
  mkBuiltins (λ _ _, true) (λ _, None) (λ formula scope, scope !! formula)
    (λ q _, Some q).

Definition campo (id : string) (tipo : FieldKind) (obrigatorio : option bool) : Field.t :=
  Field.mk id id tipo obrigatorio None None None None None None None None None None.

(** The same field under another conditional. *)
Definition com_condicional (condicional : option string) (c : Field.t) : Field.t :=
  Field.mk (Field.id c) (Field.label c) (Field.tipo c) (Field.obrigatorio c)
    condicional (Field.validacoes c) (Field.formula c) (Field.dependencias c)
    (Field.precisao c) (Field.formato c) (Field.multipla c) (Field.opcoes c)
    (Field.minima c) (Field.maxima c).

Definition campo_calculado (id : string) (condicional : option string)
    (formula : string) (dependencias : list string) : Field.t :=
  Field.mk id id calculated None condicional None (Some formula) (Some dependencias)
    None None None None None None.

(** The calculated field of the validator's unit test. *)
Definition campo_imc : Field.t :=
  campo_calculado "imc" None "peso / (altura/100)^2" ["peso"; "altura"].

Definition formulario (id : string) (schema_version : Z) (protegido : bool)
    (campos : list Field.t) : Form.t :=
  Form.mk id "Formulário" None schema_version true 0 None None protegido campos.

Definition mundo (f : Form.t) : World :=
  mkWorld {[Form.id f := f]} ∅ 1754531443000 [].

Definition payload (campos : list Field.t) (schema_version : option Z)
    (protegido : option bool) : PartialForm.t :=
  PartialForm.mk (Some "form_001") (Some "Formulário") None schema_version None None
    protegido (Some campos).

(** ** Vocabulary for the further properties *)

(** [is_path g l]: each element of [l] has the next one among its
    neighbours. *)
Definition is_path (g : Graph.t) (l : list string) : Prop :=
  ∀ i x y, l !! i = Some x → l !! S i = Some y → Graph.edge g x y.

(** Well-formed adjacency lists: no key twice, every neighbour a key. *)
Definition graph_wf (g : Graph.t) : Prop :=
  NoDup (Graph.getNodes g) ∧
  ∀ u v, Graph.edge g u v → v ∈ Graph.getNodes g.

(** The shape of a reported cycle: a path that returns to its start. *)
Definition closed_path (g : Graph.t) (c : list string) : Prop :=
  is_path g c ∧ ∃ n mid, c = n :: mid ++ [n].

(** For the cycle check of the service: a field id is finished when it was
    visited and has left the recursion stack. *)
Definition terminado (st : FormService.Ciclo) (u : string) : Prop :=
  u ∈ FormService.visitados st ∧ u ∉ FormService.pilhaRecursao st.

Record InvCiclo (grafo : list (string * list string)) (st : FormService.Ciclo) : Prop :=
  mkInvCiclo {
    ic_pilha : FormService.pilhaRecursao st ⊆ FormService.visitados st;
    ic_closed : ∀ u v, terminado st u → Graph.edge grafo u v → terminado st v;
    ic_nocycle : ∀ u, terminado st u → ¬ tc (Graph.edge grafo) u u
  }.

(** What one step of the check promises: a thrown error names a field that
    depends on itself, directly or not; otherwise the stack is as before,
    nothing visited is forgotten, the targets are finished. *)
Definition pos_ciclo (grafo : list (string * list string)) (st : FormService.Ciclo)
    (alvos : list string) (r : Result FormService.Ciclo) : Prop :=
  match r with
  | inl e => ∃ c, e = Dependencia_circular c ∧ tc (Graph.edge grafo) c c
  | inr st' =>
      FormService.pilhaRecursao st' = FormService.pilhaRecursao st ∧
      FormService.visitados st ⊆ FormService.visitados st' ∧
      (∀ n, n ∈ alvos → terminado st' n) ∧
      InvCiclo grafo st'
  end.

Definition sem_igual (s : string) : Prop :=
  "="%char ∉ String.list_ascii_of_string s.

(** Which field definitions survive definition-level validation, read off
    [getValidator]: [regra_texto] and [regra_numerica] say when a rule makes
    the validator call [.min], [.regex] or [.max] on the schema. *)
Definition regra_texto (field : Field.t) : bool :=
  match FieldValidator.find_validacao field "tamanho_minimo" with
  | Some v => match v_valor v with VNumber q => negb (Q_is_zero q) | _ => false end
  | None => false
  end ||
  match FieldValidator.find_validacao field "regex" with
  | Some v => match v_valor v with VRegExp _ => true | _ => false end
  | None => false
  end.

Definition regra_numerica (v : Validacao) : bool :=
  match v_valor v with
  | VNumber _ => bool_decide (v_tipo v = "minimo") || bool_decide (v_tipo v = "maximo")
  | _ => false
  end.

Definition formato_inteiro (field : Field.t) : bool :=
  match Field.formato field with Some inteiro => true | _ => false end.

Definition definicao_aceita (field : Field.t) : bool :=
  match Field.tipo field with
  | text => negb (truthy_bool (Field.obrigatorio field)) && negb (regra_texto field)
  | number =>
      negb (truthy_bool (Field.obrigatorio field)) && negb (formato_inteiro field) &&
      forallb (λ v, negb (regra_numerica v)) (default [] (Field.validacoes field))
  | boolean | date => negb (truthy_bool (Field.obrigatorio field))
  | select => false
  | calculated =>
      truthy_string (Field.formula field) &&
      bool_decide (is_Some (Field.dependencias field))
  | other_kind _ => false
  end.

(** Fields with rules, for the examples of the validator. *)
Definition campo_idade (obrigatorio : option bool) : Field.t :=
  Field.mk "idade" "Idade" number obrigatorio None
    (Some [mkValidacao "minimo" (VNumber 18) None]) None None None (Some inteiro)
    None None None None.

Definition campo_nome (obrigatorio : option bool) : Field.t :=
  Field.mk "nome" "Nome" text obrigatorio None
    (Some [mkValidacao "tamanho_minimo" (VNumber 3) None]) None None None None
    None None None None.

Definition campo_sexo (multipla : option bool) : Field.t :=
  Field.mk "sexo" "Sexo" select None None None None None None None multipla
    (Some [mkOpcao "Feminino" "feminino"; mkOpcao "Masculino" "masculino"])
    None None.

Definition campo_data (minima : option string) : Field.t :=
  Field.mk "data" "Data" date (Some true) None None None None None None None None
    minima None.

(** ** The service as a state machine *)

(** The calls a client of [FormService] can make. *)
Inductive Operacao :=
| CriarFormulario (form : PartialForm.t)
| AtualizarSchemaFormulario (id : string) (form : PartialForm.t)
| EnviarResposta (formId : string) (respostas : gmap string Value)
    (schema_version : option Z)
| ObterFormularioPorId (id : string)
| DesativarFormulario (id usuario : string)
| DesativarResposta (formId respostaId usuario : string).

(** What is left of a call once its value is dropped: the error it
    rejected with, if any, and the world it leaves. *)
Definition desfecho {A} (r : Result A * World) : option Error * World :=
  (match r.1 with inl e => Some e | inr _ => None end, r.2).

Definition executar (B : Builtins) (op : Operacao) (w : World) : option Error * World :=
  match op with
  | CriarFormulario form => desfecho (FormService.criarFormulario B form w)
  | AtualizarSchemaFormulario id form =>
      desfecho (FormService.atualizarSchemaFormulario B id form w)
  | EnviarResposta formId respostas schema_version =>
      desfecho (FormService.enviarResposta B formId respostas schema_version w)
  | ObterFormularioPorId id => desfecho (FormService.obterFormularioPorId id w)
  | DesativarFormulario id usuario =>
      desfecho (FormService.desativarFormulario id usuario w)
  | DesativarResposta formId respostaId usuario =>
      desfecho (FormService.desativarResposta formId respostaId usuario w)
  end.

(** One step of the system: a call of the service, or the clock moving. *)
Inductive passo (B : Builtins) : World → World → Prop :=
| passo_operacao op w : passo B w (executar B op w).2
| passo_relogio d w : passo B w (advance d w).

(** How a stored form may differ from an earlier state of itself. *)
Definition sucede_formulario (f f' : Form.t) : Prop :=
  Form.id f' = Form.id f ∧
  Form.data_criacao f' = Form.data_criacao f ∧
  Form.protegido f' = Form.protegido f ∧
  (Form.schema_version f ≤ Form.schema_version f')%Z ∧
  (Form.is_ativo f = false → f' = f).

(** How a stored response may differ from an earlier state of itself. *)
Definition sucede_resposta (r r' : Response.t) : Prop :=
  Response.id r' = Response.id r ∧
  Response.formId r' = Response.formId r ∧
  Response.schema_version r' = Response.schema_version r ∧
  Response.respostas r' = Response.respostas r ∧
  Response.calculados r' = Response.calculados r ∧
  Response.criado_em r' = Response.criado_em r ∧
  (Response.is_ativo r = false → r' = r).

(** Integrity of the two tables. *)
Record integro (B : Builtins) (w : World) : Prop := mkIntegro {
  int_form_id : ∀ k f, forms w !! k = Some f → Form.id f = k;
  int_form_versao : ∀ k f, forms w !! k = Some f → (1 ≤ Form.schema_version f)%Z;
  int_form_campos : ∀ k f, forms w !! k = Some f →
    FormService.validarCampos B (Form.campos f) = inr tt ∧
    FormService.verificarDependenciasCirculares (Form.campos f) = inr tt;
  int_resp_id : ∀ k r, responses w !! k = Some r → Response.id r = k;
  int_resp_form : ∀ k r, responses w !! k = Some r →
    ∃ f, forms w !! Response.formId r = Some f ∧
         (1 ≤ Response.schema_version r ≤ Form.schema_version f)%Z
}.

Definition mundo_vazio (agora : Z) : World := mkWorld ∅ ∅ agora [].

(** A stored response, for the examples. *)
Definition resposta_exemplo : Response.t :=
  Response.mk "resposta_1" "form_001" 1 {["nome" := VString "Ana"]} ∅
    1754531443000 true None None.

Definition mundo_com_resposta : World :=
  mkWorld {["form_001" := formulario "form_001" 1 false []]}
    {["resposta_1" := resposta_exemplo]} 1754531444000 [].

(** Unfolds the sequencing of an [async] method down to the world it
    reads and writes. *)
Ltac unfold_M :=
  unfold mbind, M_bind, mret, M_ret, lift, throw, new_Date, logger_info,
    Repo.findById, Repo.create, Repo.updateSchema, Repo.softDelete,
    Repo.saveResponse.

(* ===================================================================== *)
(** * Part II. Properties                                                 *)
(* ===================================================================== *)

Set Warnings "-clear-no-such-hyp".

Section GraphFacts.
Import Graph.
Variable g : Graph.t.

Local Abbreviation E := (edge g).
Local Abbreviation unvisited := (Graph.unvisited g).

Lemma JsSet_slice_indexOf (s : list string) (x : string) :
  x ∈ s → ∃ rest, JsSet.slice s (JsSet.indexOf s x) = x :: rest.
Proof.
  intros Hin.
  assert (Hgen : ∃ n rest, JsSet.indexOf s x = Z.of_nat n ∧ drop n s = x :: rest).
  { induction s as [|y s IH]; [by apply elem_of_nil in Hin|].
    simpl. destruct (decide (y = x)) as [->|Hne].
    - exists 0, s. done.
    - apply elem_of_cons in Hin as [->|Hin]; [done|].
      destruct (IH Hin) as (n & rest & Hi & Hd). rewrite Hi.
      destruct (Z.ltb_spec (Z.of_nat n) 0); [lia|].
      exists (S n), rest. split; [lia|done]. }
  destruct Hgen as (n & rest & Hi & Hd). exists rest.
  unfold JsSet.slice. rewrite Hi. destruct (Z.ltb_spec (Z.of_nat n) 0); [lia|].
  by rewrite Nat2Z.id.
Qed.

Lemma JsSet_add_fresh (s : list string) x : x ∉ s → JsSet.add s x = s ++ [x].
Proof. intros H. unfold JsSet.add, JsSet.has. by rewrite bool_decide_eq_false_2. Qed.

Lemma JsSet_delete_last (s : list string) x : x ∉ s → JsSet.delete (s ++ [x]) x = s.
Proof.
intros H. unfold JsSet.delete. rewrite filter_app, filter_cons, filter_nil.
rewrite decide_False by (intros ?; done). rewrite app_nil_r.
induction s as [|y s IH]; [done|].
apply not_elem_of_cons in H as [Hn Hs].
rewrite filter_cons. rewrite decide_True by done. f_equal. by apply IH.
Qed.

Lemma firstCycle_visited_mono (visit : string → DfsState → option Outcome) :
  (∀ x st out, visit x st = Some out → visited st ⊆ visited out.2) →
  ∀ xs st out, firstCycle visit xs st = Some out → visited st ⊆ visited out.2.
Proof.
intros Hv xs. induction xs as [|x xs IH]; intros st out H; simpl in H.
- by inversion H.
- destruct (visit x st) as [[[c|] st1]|] eqn:Hx; [| |done].
  + inversion H; subst. by apply (Hv _ _ _ Hx).
  + specialize (Hv _ _ _ Hx). specialize (IH _ _ H). simpl in *. set_solver.
Qed.

Lemma detectCycleUtil_visited_mono fuel :
  ∀ node st out, detectCycleUtil fuel g node st = Some out → visited st ⊆ visited out.2.
Proof.
induction fuel as [|fuel IH]; intros node st out H; simpl in H; [done|].
destruct (JsSet.has (recursionStack st) node); [by inversion H|].
destruct (bool_decide (node ∈ visited st)); [by inversion H|].
destruct (firstCycle _ _ _) as [[[c|] st2]|] eqn:Hloop; [| |done];
  apply (firstCycle_visited_mono _ IH) in Hloop; inversion H; subst; simpl in *;
  set_solver.
Qed.

(** *** The fuel given by [hasCycle] is enough *)

Lemma unvisited_mono st st' : visited st ⊆ visited st' → (unvisited st' ≤ unvisited st)%nat.
Proof. intros H. unfold unvisited. apply subseteq_size. set_solver. Qed.

Lemma get_Some_key node ns : get g node = Some ns → node ∈ getNodes g.
Proof.
unfold getNodes. induction g as [|[k ns'] g' IH]; simpl; [done|].
destruct (decide (k = node)) as [->|Hne]; intros H.
- apply elem_of_cons. by left.
- apply elem_of_cons. right. by apply IH.
Qed.

Lemma unvisited_visit st node :
  node ∈ getNodes g → node ∉ visited st →
  (unvisited (mkDfs ({[node]} ∪ visited st) (JsSet.add (recursionStack st) node))
    < unvisited st)%nat.
Proof.
intros Hk Hv. unfold unvisited. simpl.
apply subset_size. apply strict_spec_alt. split; [set_solver|].
intros Heq.
assert (Hin : node ∈ (list_to_set (getNodes g) ∖ visited st : gset string)).
{ apply elem_of_difference. split; [by apply elem_of_list_to_set|done]. }
rewrite <- Heq in Hin. set_solver.
Qed.

Lemma firstCycle_total (visit : string → DfsState → option Outcome) (bound : nat) :
  (∀ x st out, visit x st = Some out → visited st ⊆ visited out.2) →
  (∀ x st, (unvisited st < bound)%nat → is_Some (visit x st)) →
  ∀ xs st, (unvisited st < bound)%nat → is_Some (firstCycle visit xs st).
Proof.
intros Hmono Htot xs. induction xs as [|x xs IH]; intros st Hb; simpl; [by eexists|].
destruct (Htot x st Hb) as [[[c|] st1] Hx]; rewrite Hx; [by eexists|].
apply IH. apply Hmono in Hx. simpl in Hx.
pose proof (unvisited_mono _ _ Hx). lia.
Qed.

Lemma detectCycleUtil_total fuel :
  ∀ node st, (unvisited st < fuel)%nat → is_Some (detectCycleUtil fuel g node st).
Proof.
induction fuel as [|fuel IH]; intros node st Hb; [lia|]. simpl.
destruct (JsSet.has (recursionStack st) node); [by eexists|].
destruct (bool_decide (node ∈ visited st)) eqn:Hvis; [by eexists|].
apply bool_decide_eq_false in Hvis.
destruct (get g node) as [ns|] eqn:Hget; simpl.
- pose proof (unvisited_visit st node (get_Some_key _ _ Hget) Hvis) as Hlt.
  destruct (firstCycle_total (detectCycleUtil fuel g) fuel
              (detectCycleUtil_visited_mono fuel) IH ns
              (mkDfs ({[node]} ∪ visited st) (JsSet.add (recursionStack st) node)))
    as [[[c|] st2] Hl]; [lia| |]; rewrite Hl; by eexists.
- by eexists.
Qed.

Lemma size_list_to_set_le (l : list string) :
  (size (list_to_set l : gset string) ≤ length l)%nat.
Proof.
induction l as [|x l IH].
- rewrite list_to_set_nil, size_empty. simpl. lia.
- rewrite list_to_set_cons, size_union_alt, size_singleton. simpl.
  assert (size (list_to_set l ∖ {[x]} : gset string) ≤ size (list_to_set l : gset string))%nat
    by (apply subseteq_size; set_solver).
  lia.
Qed.

Lemma hasCycle_fuel_enough : is_Some (hasCycle_fuel (S (length g)) g).
Proof.
unfold hasCycle_fuel.
apply (firstCycle_total _ (S (length g)) (detectCycleUtil_visited_mono _)
         (detectCycleUtil_total _)).
unfold unvisited. simpl.
assert (size (list_to_set (getNodes g) ∖ ∅ : gset string) ≤ length g)%nat; [|lia].
pose proof (size_list_to_set_le (getNodes g)) as Hle.
assert (size (list_to_set (getNodes g) ∖ ∅ : gset string)
        ≤ size (list_to_set (getNodes g) : gset string))%nat as Hsub
  by (apply subseteq_size; set_solver).
unfold getNodes in *. rewrite length_fmap in Hle. lia.
Qed.

(** *** What the traversal establishes *)

Lemma finished_rtc st u v : Inv g st → finished st u → rtc E u v → finished st v.
Proof.
intros HI Hu Hr. induction Hr as [|x y z Hxy _ IH]; [done|].
apply IH. by apply (inv_closed g st HI x y).
Qed.

Lemma tc_first_step (R : relation string) x y :
  tc R x y → ∃ z, R x z ∧ rtc R z y.
Proof.
intros H. inversion H as [? ? Hxy|? z ? Hxz Hzy]; subst.
- exists y. split; [done|apply rtc_refl].
- exists z. split; [done|by apply tc_rtc].
Qed.

Lemma Inv_initial : Inv g initial.
Proof.
split; unfold finished; simpl.
- intros x Hx. by apply elem_of_nil in Hx.
- intros u v [Hu _]. set_solver.
- intros u [Hu _]. set_solver.
Qed.

Lemma cycle_shape (s : list string) (node : string) :
  node ∈ s →
  let c := JsSet.slice s (JsSet.indexOf s node) ++ [node] in
  c ≠ [] ∧ head c = last c.
Proof.
intros Hin c. destruct (JsSet_slice_indexOf s node Hin) as [rest Hrest].
subst c. rewrite Hrest. split; [done|].
simpl. by rewrite last_cons, last_snoc.
Qed.

Lemma firstCycle_post (visit : string → DfsState → option Outcome) :
  (∀ node st out, visit node st = Some out → Inv g st →
     (∀ x, x ∈ recursionStack st → tc E x node) → post g st [node] out) →
  ∀ xs st out, firstCycle visit xs st = Some out → Inv g st →
     (∀ n x, n ∈ xs → x ∈ recursionStack st → tc E x n) → post g st xs out.
Proof.
intros Hv xs. induction xs as [|x xs IH]; intros st out H HI Hpath; simpl in H.
- inversion H; subst. unfold post; simpl.
  split; [done|]. split; [done|]. split; [|done].
  intros n Hn. by apply elem_of_nil in Hn.
- destruct (visit x st) as [[[c|] st1]|] eqn:Hx; [| |done].
  + inversion H; subst.
    apply Hv in Hx; [|done|]. { exact Hx. }
    intros y Hy. apply Hpath; [apply elem_of_cons; by left|done].
  + apply Hv in Hx; [|done|]; cycle 1.
    { intros y Hy. apply Hpath; [apply elem_of_cons; by left|done]. }
    unfold post in Hx; simpl in Hx. destruct Hx as (Hst & Hvis & Hfin & HI1).
    specialize (IH st1 out H HI1).
    assert (Hpath1 : ∀ n y, n ∈ xs → y ∈ recursionStack st1 → tc E y n).
    { intros n y Hn Hy. rewrite Hst in Hy. apply Hpath; [|done].
      apply elem_of_cons. by right. }
    specialize (IH Hpath1). unfold post in *.
    destruct (out.1) as [c|]; [done|].
    destruct IH as (Hst2 & Hvis2 & Hfin2 & HI2).
    split; [congruence|]. split; [set_solver|]. split; [|done].
    intros n Hn. apply elem_of_cons in Hn as [->|Hn]; [|by apply Hfin2].
    destruct (Hfin x) as [Hxv Hxs]; [apply elem_of_cons; by left|].
    split; [set_solver|]. by rewrite Hst2.
Qed.

Lemma detectCycleUtil_post fuel :
  ∀ node st out, detectCycleUtil fuel g node st = Some out → Inv g st →
    (∀ x, x ∈ recursionStack st → tc E x node) → post g st [node] out.
Proof.
induction fuel as [|fuel IH]; intros node st out H HI Hpath; simpl in H; [done|].
unfold JsSet.has in H.
destruct (bool_decide (node ∈ recursionStack st)) eqn:Hstk.
{ apply bool_decide_eq_true in Hstk. inversion H; subst. unfold post; simpl.
  split; [exists node; by apply Hpath|]. by apply cycle_shape. }
apply bool_decide_eq_false in Hstk.
destruct (bool_decide (node ∈ visited st)) eqn:Hvis.
{ apply bool_decide_eq_true in Hvis. inversion H; subst. unfold post; simpl.
  split; [done|]. split; [done|]. split; [|done].
  intros n Hn. apply list_elem_of_singleton in Hn as ->. by split. }
apply bool_decide_eq_false in Hvis.
rewrite (JsSet_add_fresh _ _ Hstk) in H.
set (st1 := mkDfs ({[node]} ∪ visited st) (recursionStack st ++ [node])) in *.
assert (HI1 : Inv g st1).
{ split; unfold finished; subst st1; simpl.
  - intros x Hx. apply elem_of_app in Hx as [Hx|Hx].
    + apply (inv_stack_visited g st HI) in Hx. set_solver.
    + set_solver.
  - intros u v [Hu Hn] Huv.
    assert (Hfu : finished st u) by (split; set_solver).
    destruct (inv_closed g st HI u v Hfu Huv) as [Hv1 Hv2].
    split; [set_solver|]. intros Hv. apply elem_of_app in Hv as [Hv|Hv]; [done|].
    apply list_elem_of_singleton in Hv as ->. done.
  - intros u [Hu Hn]. apply (inv_nocycle g st HI). split; set_solver. }
assert (Hpath1 : ∀ n x, n ∈ default [] (get g node) → x ∈ recursionStack st1 → tc E x n).
{ intros n x Hn Hx. destruct (get g node) as [ns|] eqn:Hget; simpl in Hn;
    [|by apply elem_of_nil in Hn].
  assert (Hedge : E node n) by (by exists ns).
  subst st1; simpl in Hx. apply elem_of_app in Hx as [Hx|Hx].
  - eapply tc_r; [by apply Hpath|done].
  - apply list_elem_of_singleton in Hx as ->. by apply tc_once. }
destruct (firstCycle _ _ _) as [[[c|] st2]|] eqn:Hloop; [| |done];
  apply (firstCycle_post _ IH) in Hloop; try done; inversion H; subst out.
{ exact Hloop. }
unfold post in Hloop; simpl in Hloop. destruct Hloop as (Hst & Hvis2 & Hfin & HI2).
assert (Hdel : JsSet.delete (recursionStack st2) node = recursionStack st).
{ rewrite Hst. subst st1; simpl. by apply JsSet_delete_last. }
unfold post; simpl. rewrite Hdel.
assert (Hnode2 : node ∈ visited st2) by (subst st1; simpl in *; set_solver).
assert (Hlift : ∀ u, u ∈ visited st2 → u ∉ recursionStack st → u ≠ node → finished st2 u).
{ intros u Hu Hn Hne. split; [done|]. rewrite Hst. subst st1; simpl.
  intros Hin. apply elem_of_app in Hin as [Hin|Hin]; [done|].
  by apply list_elem_of_singleton in Hin. }
assert (Hdrop : ∀ v, finished st2 v → v ∈ visited st2 ∧ v ∉ recursionStack st).
{ intros v [Hv1 Hv2]. split; [done|]. rewrite Hst in Hv2. subst st1; simpl in Hv2.
  intros Hin. apply Hv2. apply elem_of_app. by left. }
assert (Hnbr : ∀ v, E node v → finished st2 v).
{ intros v (ns & Hget & Hv). apply Hfin. by rewrite Hget. }
split; [done|]. split; [subst st1; simpl in *; set_solver|]. split.
{ intros n Hn. apply list_elem_of_singleton in Hn as ->. by split. }
split; unfold finished; simpl.
- intros x Hx. apply (inv_stack_visited g st HI) in Hx. subst st1; simpl in *; set_solver.
- intros u v [Hu Hn] Huv. apply Hdrop.
  destruct (decide (u = node)) as [->|Hne]; [by apply Hnbr|].
  apply (inv_closed g st2 HI2 u v); [by apply Hlift|done].
- intros u [Hu Hn] Hcyc.
  destruct (decide (u = node)) as [->|Hne].
  + apply tc_first_step in Hcyc as (v & Hnv & Hvn).
    pose proof (finished_rtc st2 v node HI2 (Hnbr v Hnv) Hvn) as [_ Hbad].
    apply Hbad. rewrite Hst. subst st1; simpl. apply elem_of_app. right.
    by apply list_elem_of_singleton.
  + by apply (inv_nocycle g st2 HI2 u (Hlift u Hu Hn Hne)).
Qed.

End GraphFacts.

(** ** The cycle check of the service always runs to completion *)

Section VerificarFacts.
Import FormService.
Variable grafo : list (string * list string).

Local Abbreviation por_visitar := (FormService.por_visitar grafo).

Lemma por_visitar_mono st st' :
  visitados st ⊆ visitados st' → (por_visitar st' ≤ por_visitar st)%nat.
Proof. intros H. unfold por_visitar. apply subseteq_size. set_solver. Qed.

Lemma paraCada_mono (body : string → Ciclo → option (Result Ciclo)) :
  (∀ x st st', body x st = Some (inr st') → visitados st ⊆ visitados st') →
  ∀ xs st st', paraCada body xs st = Some (inr st') → visitados st ⊆ visitados st'.
Proof.
intros Hb xs. induction xs as [|x xs IH]; intros st st' H; simpl in H.
- by inversion H.
- destruct (body x st) as [[e|st1]|] eqn:Hx; [done| |done].
  apply Hb in Hx. apply IH in H. set_solver.
Qed.

Lemma detectarCiclo_mono fuel :
  ∀ no st st', detectarCiclo fuel grafo no st = Some (inr st') →
    visitados st ⊆ visitados st'.
Proof.
induction fuel as [|fuel IH]; intros no st st' H; simpl in H; [done|].
destruct (paraCada _ _ _) as [[e|st2]|] eqn:Hloop; [done| |done].
inversion H; subst; simpl.
apply paraCada_mono in Hloop; [simpl in Hloop; set_solver|].
intros x s1 s2 Hx.
destruct (bool_decide (x ∈ visitados s1)); simpl in Hx.
- destruct (bool_decide (x ∈ pilhaRecursao s1)); by inversion Hx.
- by apply IH in Hx.
Qed.

Lemma paraCada_total (body : string → Ciclo → option (Result Ciclo)) (bound : nat) :
  (∀ x st st', body x st = Some (inr st') → visitados st ⊆ visitados st') →
  (∀ x st, (por_visitar st < bound)%nat → is_Some (body x st)) →
  ∀ xs st, (por_visitar st < bound)%nat → is_Some (paraCada body xs st).
Proof.
intros Hmono Htot xs. induction xs as [|x xs IH]; intros st Hb; simpl; [by eexists|].
destruct (Htot x st Hb) as [[e|st1] Hx]; rewrite Hx; [by eexists|].
apply IH. apply Hmono in Hx. pose proof (por_visitar_mono _ _ Hx). lia.
Qed.

Lemma detectarCiclo_total fuel :
  ∀ no st, no ∉ visitados st → (por_visitar st < fuel)%nat →
    is_Some (detectarCiclo fuel grafo no st).
Proof.
induction fuel as [|fuel IH]; intros no st Hno Hb; [lia|]. simpl.
set (body := λ (vizinho : string) (st0 : Ciclo), _).
assert (Hbody_mono : ∀ x s1 s2, body x s1 = Some (inr s2) → visitados s1 ⊆ visitados s2).
{ intros x s1 s2 Hx. subst body; simpl in Hx.
  destruct (bool_decide (x ∈ visitados s1)); simpl in Hx.
  - destruct (bool_decide (x ∈ pilhaRecursao s1)); by inversion Hx.
  - by apply detectarCiclo_mono in Hx. }
assert (Hbody_tot : ∀ x s1, (por_visitar s1 < fuel)%nat → is_Some (body x s1)).
{ intros x s1 Hs1. subst body; simpl.
  destruct (bool_decide (x ∈ visitados s1)) eqn:Hx; simpl.
  - destruct (bool_decide (x ∈ pilhaRecursao s1)); by eexists.
  - apply bool_decide_eq_false in Hx. by apply IH. }
destruct (Graph.get grafo no) as [ns|] eqn:Hget; simpl.
- assert (Hlt : (por_visitar (mkCiclo ({[no]} ∪ visitados st) ({[no]} ∪ pilhaRecursao st))
                 < por_visitar st)%nat).
  { unfold por_visitar; simpl. apply subset_size. apply strict_spec_alt.
    split; [set_solver|]. intros Heq.
    assert (Hin : no ∈ (list_to_set (grafo.*1) ∖ visitados st : gset string)).
    { apply elem_of_difference. split; [|done]. apply elem_of_list_to_set.
      by apply (get_Some_key grafo no ns). }
    rewrite <- Heq in Hin. set_solver. }
  destruct (paraCada_total body fuel Hbody_mono Hbody_tot ns
              (mkCiclo ({[no]} ∪ visitados st) ({[no]} ∪ pilhaRecursao st)))
    as [[e|st2] Hl]; [lia| |]; rewrite Hl; by eexists.
- by eexists.
Qed.

Lemma verificar_loop_total fuel :
  (length grafo < fuel)%nat →
  is_Some (paraCada
             (λ no st,
                if negb (bool_decide (no ∈ visitados st))
                then detectarCiclo fuel grafo no st
                else Some (inr st))
             (grafo.*1) (mkCiclo ∅ ∅)).
Proof.
intros Hfuel. apply (paraCada_total _ fuel).
- intros x s1 s2 Hx. destruct (bool_decide (x ∈ visitados s1)); simpl in Hx.
  + by inversion Hx.
  + by apply detectarCiclo_mono in Hx.
- intros x s1 Hs1. destruct (bool_decide (x ∈ visitados s1)) eqn:Hx; simpl.
  + by eexists.
  + apply bool_decide_eq_false in Hx. by apply detectarCiclo_total.
- unfold por_visitar; simpl.
  pose proof (size_list_to_set_le (grafo.*1)) as Hle.
  assert (size (list_to_set (grafo.*1) ∖ ∅ : gset string)
          ≤ size (list_to_set (grafo.*1) : gset string))%nat as Hsub
    by (apply subseteq_size; set_solver).
  rewrite length_fmap in Hle. lia.
Qed.

End VerificarFacts.

Lemma length_grafo_set grafo k v :
  (length (FormService.grafo_set grafo k v) ≤ S (length grafo))%nat.
Proof.
induction grafo as [|[k' v'] rest IH]; simpl; [lia|].
destruct (decide (k' = k)); simpl; lia.
Qed.

Lemma length_grafo_of (campos : list Field.t) :
  (length (FormService.grafo_of campos) ≤ length campos)%nat.
Proof.
unfold FormService.grafo_of.
assert (H : ∀ acc, (length (foldl (λ grafo campo,
            FormService.grafo_set grafo (Field.id campo)
              (default [] (Field.dependencias campo))) acc campos)
          ≤ length acc + length campos)%nat).
{ induction campos as [|c cs IH]; intros acc; simpl; [lia|].
  etrans; [apply IH|]. pose proof (length_grafo_set acc (Field.id c)
    (default [] (Field.dependencias c))). lia. }
specialize (H []). simpl in H. lia.
Qed.

Lemma verificar_fuel_enough (campos : list Field.t) :
  is_Some (FormService.verificar_fuel (S (length campos)) campos).
Proof.
unfold FormService.verificar_fuel. apply verificar_loop_total.
pose proof (length_grafo_of campos). lia.
Qed.

(** ** C2: cycle detection on the dependency graph *)

(** C2. For every graph built by [addNode] / [addEdge] calls, [hasCycle]
    runs to completion, returns [null] exactly when the graph is acyclic,
    and on a graph that has a cycle returns a non-empty sequence of node
    ids whose first and last elements are equal. *)
Theorem hasCycle_null_iff_acyclic (g : Graph.t) :
  Graph.built g →
  is_Some (Graph.hasCycle_fuel (S (length g)) g) ∧
  (Graph.hasCycle g = None ↔ Graph.acyclic g) ∧
  (¬ Graph.acyclic g →
     ∃ c, Graph.hasCycle g = Some c ∧ c ≠ [] ∧ head c = last c).
Proof.
intros _. pose proof (hasCycle_fuel_enough g) as Hsome.
split; [done|]. destruct Hsome as [[r st] Hrun].
assert (Hpost : Graph.post g Graph.initial (Graph.getNodes g) (r, st)).
{ apply (firstCycle_post g _ (detectCycleUtil_post g (S (length g))) _ _ _ Hrun).
  - apply Inv_initial.
  - intros n x _ Hx. by apply elem_of_nil in Hx. }
unfold Graph.hasCycle. rewrite Hrun. unfold Graph.post in Hpost; simpl in Hpost.
destruct r as [c|].
- destruct Hpost as ([u Hu] & Hne & Hhl).
  assert (Hcyc : ¬ Graph.acyclic g) by (intros Hac; exact (Hac u Hu)).
  split; [split; [done|intros Hac; by destruct Hcyc]|].
  intros _. by exists c.
- destruct Hpost as (_ & _ & Hfin & HI).
  assert (Hac : Graph.acyclic g).
  { intros u Hu. apply (Graph.inv_nocycle g st HI u); [|done].
    apply Hfin. apply tc_first_step in Hu as (z & (ns & Hget & _) & _).
    by apply (get_Some_key g u ns). }
  split; [done|]. intros Hn. by destruct Hn.
Qed.

Lemma hasCycle_null_iff_acyclic_witness :
  let g := [("a", ["b"]); ("b", ["a"])] in
  is_Some (Graph.hasCycle_fuel (S (length g)) g) ∧
  (Graph.hasCycle g = None ↔ Graph.acyclic g) ∧
  (¬ Graph.acyclic g →
     ∃ c, Graph.hasCycle g = Some c ∧ c ≠ [] ∧ head c = last c).
Proof.
apply hasCycle_null_iff_acyclic.
apply (Graph.built_addEdge [("a", ["b"]); ("b", [])] "b" "a"); [|reflexivity].
apply (Graph.built_addEdge [("a", []); ("b", [])] "a" "b"); [|reflexivity].
apply (Graph.built_addNode [("a", [])] "b").
apply (Graph.built_addNode [] "a").
apply Graph.built_empty.
Defined.

(** ** Field validation *)

Section ValidatorFacts.
Import Zod FieldValidator.
Variable B : Builtins.

Lemma applyTextValidations_string cs field :
  ∃ cs', applyTextValidations (ZodString cs) field = inr (ZodString cs').
Proof.
unfold applyTextValidations.
destruct (find_validacao field "tamanho_minimo") as [v|]; simpl.
- destruct (v_valor v) as [| | |q| | | | |]; simpl;
    try destruct (negb (Q_is_zero q)); simpl;
    destruct (find_validacao field "regex") as [r|]; simpl;
    try destruct (v_valor r); simpl; eauto.
- destruct (find_validacao field "regex") as [r|]; simpl;
    try destruct (v_valor r); simpl; eauto.
Qed.

Lemma number_rules_number vs : ∀ cs,
  ∃ cs', number_rules (ZodNumber cs) vs = inr (ZodNumber cs').
Proof.
induction vs as [|v vs IH]; intros cs; simpl; [eauto|].
unfold number_rule.
destruct (v_valor v) as [| | |q| | | | |]; simpl; try apply IH.
destruct (bool_decide (v_tipo v = "minimo")); simpl;
  destruct (bool_decide (v_tipo v = "maximo")); simpl; apply IH.
Qed.

Lemma applyNumberValidations_number cs field :
  ∃ cs', applyNumberValidations (ZodNumber cs) field = inr (ZodNumber cs').
Proof.
unfold applyNumberValidations.
destruct (Field.formato field) as [[|]|]; simpl; apply number_rules_number.
Qed.

Lemma parse_effects_aborted schema refinement msg v issues :
  _parse B schema v = (aborted, issues) →
  _parse B (ZodEffects schema refinement msg) v = (aborted, issues).
Proof. intros H. simpl. by rewrite H. Qed.

Lemma applyDateValidations_aborted schema field v issues :
  _parse B schema v = (aborted, issues) →
  _parse B (applyDateValidations B schema field) v = (aborted, issues).
Proof.
intros H. unfold applyDateValidations.
destruct (truthy_string (Field.minima field)), (truthy_string (Field.maxima field));
  repeat apply parse_effects_aborted; done.
Qed.

(** A required field of one of the five input kinds rejects [undefined]. *)
Lemma validate_required_undefined field :
  Field.obrigatorio field = Some true →
  Field.tipo field ∈ [text; number; boolean; date; select] →
  FieldValidator.validate B VUndefined field
    = inl (ZodError [mkIssue invalid_type None]).
Proof.
intros Hreq Hkind. unfold validate, getValidator. rewrite Hreq. simpl.
repeat (apply elem_of_cons in Hkind as [Hk|Hkind]; [rewrite Hk; simpl|]).
- destruct (applyTextValidations_string [] field) as [cs' ->]. done.
- destruct (applyNumberValidations_number [] field) as [cs' ->]. done.
- done.
- unfold parseAsync.
  by rewrite (applyDateValidations_aborted _ field VUndefined
                [mkIssue invalid_type None]).
- unfold applySelectValidations. by destruct (truthy_bool (Field.multipla field)).
- by apply elem_of_nil in Hkind.
Qed.

(** The complete behaviour of [validate] on a field of kind [calculated]. *)
Lemma validate_calculated value field :
  Field.tipo field = calculated →
  FieldValidator.validate B value field =
    if negb (truthy_string (Field.formula field)) ||
       negb (bool_decide (is_Some (Field.dependencias field)))
    then inl Campo_calculado_deve_ter_formula_e_dependencias
    else if is_undefined value then inr tt
    else inl (ZodError [mkIssue invalid_type None]).
Proof.
intros Hk. unfold validate, getValidator. rewrite Hk.
unfold applyCalculatedValidations.
destruct (negb (truthy_string (Field.formula field)) ||
          negb (bool_decide (is_Some (Field.dependencias field)))); [done|].
simpl. destruct (negb (truthy_bool (Field.obrigatorio field))); by destruct value.
Qed.

Lemma number_rules_error vs : ∀ schema e,
  number_rules schema vs = inl e → validation_error e = true.
Proof.
induction vs as [|v vs IH]; intros schema e; simpl; [done|].
destruct (number_rule schema v) as [e1|schema1] eqn:Hr; simpl.
- intros [= <-]. revert Hr. unfold number_rule, min_number, max_number.
  repeat (case_match; simpl; try done); by intros [= <-].
- apply IH.
Qed.

(** Whatever [validate] rejects with is a validation error. *)
Lemma validate_error_kind value field e :
  FieldValidator.validate B value field = inl e → validation_error e = true.
Proof.
unfold validate. destruct (getValidator B field) as [e1|schema] eqn:Hg; simpl.
- intros [= <-]. revert Hg. unfold getValidator.
  destruct (Field.tipo field); try done.
  + unfold applyTextValidations, min_string, regex.
    repeat (case_match; simpl; try done); by intros [= <-].
  + unfold applyNumberValidations.
    destruct (match Field.formato field with Some inteiro => _ | _ => _ end)
      as [e2|schema2] eqn:Hint; simpl.
    * intros [= <-]. revert Hint. unfold int.
      repeat (case_match; simpl; try done); by intros [= <-].
    * apply number_rules_error.
  + unfold applyCalculatedValidations. case_match; [|done].
    by intros [= <-].
  + by intros [= <-].
- unfold parseAsync. destruct (_parse B schema value) as [[| |] issues];
    [done| |]; intros H; by inversion H.
Qed.

End ValidatorFacts.

(** C9. Supplying a value to a well-formed calculated field is rejected,
    but not with the message of the refinement: the base schema
    [z.undefined()] aborts the parse with its own type issue before the
    refinement carrying "Campos calculados não podem ter valores inseridos
    manualmente" is reached. Evaluated at [validate(24.5, imc)]. *)
Theorem calculated_rejection_lacks_custom_message (B : Builtins) :
  FieldValidator.validate B (VNumber (49 # 2)) campo_imc
    = inl (ZodError [mkIssue invalid_type None]) ∧
  FieldValidator.validate B (VNumber (49 # 2)) campo_imc
    ≠ inl (ZodError [mkIssue custom (Some (Literal
         "Campos calculados não podem ter valores inseridos manualmente"))]).
Proof. split; [reflexivity|discriminate]. Qed.

(** ** Definition-level validation (Create, UpdateSchema) *)

Section DefinitionValidation.
Variable B : Builtins.

Lemma validarCampos_fails campos c e0 :
  c ∈ campos → FieldValidator.validate B VUndefined c = inl e0 →
  ∃ c' e, c' ∈ campos ∧ FieldValidator.validate B VUndefined c' = inl e ∧
          FormService.validarCampos B campos = inl e.
Proof.
induction campos as [|c0 rest IH]; intros Hin Hfail; [by apply elem_of_nil in Hin|].
simpl. destruct (FieldValidator.validate B VUndefined c0) as [e|[]] eqn:Hc0.
- exists c0, e. split; [apply elem_of_cons; by left|done].
- apply elem_of_cons in Hin as [->|Hin]; [congruence|].
  destruct (IH Hin Hfail) as (c' & e & Hc' & Hv & Hall).
  exists c', e. split; [apply elem_of_cons; by right|done].
Qed.

Lemma criarFormulario_invalid form campos e w :
  PartialForm.campos form = Some campos →
  FormService.validarCampos B campos = inl e →
  FormService.criarFormulario B form w = (inl e, w).
Proof.
intros Hc Hv. unfold FormService.criarFormulario. unfold_M.
rewrite Hc. simpl. by rewrite Hv.
Qed.

Lemma atualizarSchemaFormulario_invalid id form campos e w existente :
  PartialForm.campos form = Some campos →
  FormService.validarCampos B campos = inl e →
  forms w !! id = Some existente → Form.is_ativo existente = true →
  FormService.atualizarSchemaFormulario B id form w = (inl e, w).
Proof.
intros Hc Hv Hf Ha.
unfold FormService.atualizarSchemaFormulario. unfold_M.
rewrite Hf, Ha, Hc. simpl. by rewrite Hv.
Qed.

Lemma atualizarSchemaFormulario_guards id form w :
  (forms w !! id = None →
   FormService.atualizarSchemaFormulario B id form w = (inl Formulario_nao_encontrado, w)) ∧
  (∀ existente, forms w !! id = Some existente → Form.is_ativo existente = false →
   FormService.atualizarSchemaFormulario B id form w = (inl Formulario_inativo, w)).
Proof.
split; [intros Hf|intros existente Hf Ha];
  unfold FormService.atualizarSchemaFormulario; unfold_M;
  rewrite Hf; [done|]. by rewrite Ha.
Qed.

End DefinitionValidation.

(** C3. A form with at least one required field of kind text, number,
    boolean, date or select can be neither created nor used in a schema
    update: definition-level validation hands [undefined] to the validator
    for every field, some field's validation throws, and that error leaves
    [criarFormulario] and (for an existing active form)
    [atualizarSchemaFormulario] with the world untouched. An update never
    gets further than that in any case: on a missing or inactive form it
    fails on the lookup, again without a write. *)
Theorem required_field_blocks_create_and_update
    (B : Builtins) (form : PartialForm.t) (campos : list Field.t) (c : Field.t)
    (w : World) (id : string) :
  PartialForm.campos form = Some campos →
  c ∈ campos →
  Field.obrigatorio c = Some true →
  Field.tipo c ∈ [text; number; boolean; date; select] →
  ∃ c' e,
    c' ∈ campos ∧
    FieldValidator.validate B VUndefined c' = inl e ∧
    validation_error e = true ∧
    FormService.criarFormulario B form w = (inl e, w) ∧
    (∀ existente, forms w !! id = Some existente → Form.is_ativo existente = true →
       FormService.atualizarSchemaFormulario B id form w = (inl e, w)) ∧
    (∃ e', FormService.atualizarSchemaFormulario B id form w = (inl e', w)).
Proof.
intros Hc Hin Hreq Hkind.
pose proof (validate_required_undefined B c Hreq Hkind) as Hfail.
destruct (validarCampos_fails B campos c _ Hin Hfail) as (c' & e & Hc' & Hv & Hall).
exists c', e. split; [done|]. split; [done|].
split; [by apply (validate_error_kind B VUndefined c')|].
split; [by apply criarFormulario_invalid with campos|].
split; [intros; by eapply atualizarSchemaFormulario_invalid|].
destruct (forms w !! id) as [existente|] eqn:Hf.
- destruct (Form.is_ativo existente) eqn:Ha.
  + exists e. by eapply atualizarSchemaFormulario_invalid.
  + exists Formulario_inativo.
    by apply (proj2 (atualizarSchemaFormulario_guards B id form w) existente).
- exists Formulario_nao_encontrado.
  by apply (proj1 (atualizarSchemaFormulario_guards B id form w)).
Qed.

Lemma required_field_blocks_create_and_update_witness :
  let form := payload [campo "nome" text (Some true)] None None in
  let w := mundo (formulario "form_001" 1 false []) in
  ∃ c' e,
    c' ∈ [campo "nome" text (Some true)] ∧
    FieldValidator.validate example_builtins VUndefined c' = inl e ∧
    validation_error e = true ∧
    FormService.criarFormulario example_builtins form w = (inl e, w) ∧
    (∀ existente, forms w !! "form_001" = Some existente →
       Form.is_ativo existente = true →
       FormService.atualizarSchemaFormulario example_builtins "form_001" form w
         = (inl e, w)) ∧
    (∃ e', FormService.atualizarSchemaFormulario example_builtins "form_001" form w
             = (inl e', w)).
Proof.
apply (required_field_blocks_create_and_update example_builtins
         (payload [campo "nome" text (Some true)] None None)
         [campo "nome" text (Some true)] (campo "nome" text (Some true))).
- reflexivity.
- apply elem_of_cons. by left.
- reflexivity.
- apply elem_of_cons. by left.
Defined.

(** ** Schema versions and the frame of Create and UpdateSchema *)

Section Lifecycle.
Variable B : Builtins.


(** The three outcomes of [atualizarSchemaFormulario] on an existing active
    form whose new fields pass validation and the cycle check. *)
Lemma atualizarSchemaFormulario_run id p w f :
  forms w !! id = Some f → Form.is_ativo f = true →
  FormService.validarCampos B (default [] (PartialForm.campos p)) = inr tt →
  FormService.verificarDependenciasCirculares (default [] (PartialForm.campos p)) = inr tt →
  FormService.atualizarSchemaFormulario B id p w =
    if truthy_Z (PartialForm.schema_version p) &&
       (default 0 (PartialForm.schema_version p) <=? Form.schema_version f)%Z
    then (inl (Versao_nao_maior (default 0%Z (PartialForm.schema_version p))
                 (Form.schema_version f)), w)
    else
      let g := Form.mk (Form.id f)
                 (default (Form.nome f) (PartialForm.nome p))
                 (match PartialForm.descricao p with
                  | Some d => Some d
                  | None => Form.descricao f
                  end)
                 (Form.schema_version f + 1)
                 (Form.is_ativo f) (Form.data_criacao f)
                 (Form.data_remocao f) (Form.usuario_remocao f)
                 (Form.protegido f)
                 (default (Form.campos f) (map json_campo <$> PartialForm.campos p)) in
      (inr g, mkWorld (<[id := g]> (forms w)) (responses w) (now w)
                (audit w ++ [atualizacao_schema id (Form.schema_version f)
                               (Form.schema_version f + 1) (now w)])).
Proof.
intros Hf Ha Hv Hc.
unfold FormService.atualizarSchemaFormulario. unfold_M.
rewrite Hf, Ha. simpl. rewrite Hv, Hc.
destruct (truthy_Z (PartialForm.schema_version p) &&
          (default 0 (PartialForm.schema_version p) <=? Form.schema_version f)%Z);
  [done|].
rewrite Hf. simpl. rewrite ?Ha. reflexivity.
Qed.

(** What a successful [atualizarSchemaFormulario] has done. *)
Lemma atualizarSchemaFormulario_inr id p w f g w1 :
  forms w !! id = Some f →
  FormService.atualizarSchemaFormulario B id p w = (inr g, w1) →
  forms w1 !! id = Some g ∧
  Form.schema_version g = (Form.schema_version f + 1)%Z ∧
  Form.data_criacao g = Form.data_criacao f ∧
  Form.is_ativo g = Form.is_ativo f ∧
  Form.protegido g = Form.protegido f.
Proof.
intros Hf.
unfold FormService.atualizarSchemaFormulario. unfold_M.
rewrite Hf.
destruct (negb (Form.is_ativo f)); [done|].
destruct (FormService.validarCampos B _) as [e|[]]; [done|].
destruct (FormService.verificarDependenciasCirculares _) as [e|[]]; [done|].
destruct (truthy_Z (PartialForm.schema_version p) && _); [done|].
rewrite Hf. intros H. inversion H; subst; simpl.
by rewrite lookup_insert_eq.
Qed.

End Lifecycle.



(** C7, as stated, fails at an explicit version of 0: the guard tests the
    given version for truthiness first, so 0 is never compared with the
    stored version and the update is written. It also fails when the new
    fields are invalid: their validation error comes first. *)
Lemma update_conflict_counterexample :
  let w := mundo (formulario "form_001" 1 false []) in
  (∃ g w',
     FormService.atualizarSchemaFormulario example_builtins "form_001"
       (payload [] (Some 0%Z) None) w = (inr g, w') ∧
     forms w' !! "form_001" = Some g ∧ Form.schema_version g = 2%Z) ∧
  FormService.atualizarSchemaFormulario example_builtins "form_001"
    (payload [campo "nome" text (Some true)] (Some 1%Z) None) w
    = (inl (ZodError [mkIssue invalid_type None]), w).
Proof.
intros w. split.
- destruct (FormService.atualizarSchemaFormulario example_builtins "form_001"
              (payload [] (Some 0%Z) None) w) as [[e|g] w'] eqn:Hu;
    [vm_compute in Hu; discriminate|].
  exists g, w'. split; [done|].
  destruct (atualizarSchemaFormulario_inr example_builtins "form_001" _ w
              (formulario "form_001" 1 false []) g w' eq_refl Hu) as (H1 & H2 & _).
  by split.
- reflexivity.
Qed.

(** C7 (amended). On an existing active form: new fields that fail
    definition-level validation make the update fail with their validation
    error, and fields that pass it but fail the cycle check with the
    circular-dependency error, whatever version is given and with the world
    left as it was. With fields that pass both: an explicit non-zero
    [schema_version] that is not strictly greater than the stored one makes
    the update fail with the version-conflict error and leaves the world as
    it was; no version, an explicit 0 (which the guard takes for no
    version) and any version greater than the stored one, one greater in
    particular, succeed, and the stored row carries the stored version plus
    one. *)
Theorem update_version_conflict
    (B : Builtins) (id : string) (p : PartialForm.t) (w : World) (f : Form.t) :
  forms w !! id = Some f →
  Form.is_ativo f = true →
  (∀ e, FormService.validarCampos B (default [] (PartialForm.campos p)) = inl e →
     FormService.atualizarSchemaFormulario B id p w = (inl e, w)) ∧
  (FormService.validarCampos B (default [] (PartialForm.campos p)) = inr tt →
   ∀ e, FormService.verificarDependenciasCirculares
          (default [] (PartialForm.campos p)) = inl e →
     FormService.atualizarSchemaFormulario B id p w = (inl e, w)) ∧
  (FormService.validarCampos B (default [] (PartialForm.campos p)) = inr tt →
   FormService.verificarDependenciasCirculares (default [] (PartialForm.campos p))
     = inr tt →
   (∀ v, PartialForm.schema_version p = Some v →
      v ≠ 0%Z → (v ≤ Form.schema_version f)%Z →
      FormService.atualizarSchemaFormulario B id p w
        = (inl (Versao_nao_maior v (Form.schema_version f)), w)) ∧
   (PartialForm.schema_version p = None ∨
    PartialForm.schema_version p = Some 0%Z ∨
    (∃ v, PartialForm.schema_version p = Some v ∧ (Form.schema_version f < v)%Z) →
      ∃ g w', FormService.atualizarSchemaFormulario B id p w = (inr g, w') ∧
              forms w' !! id = Some g ∧
              Form.schema_version g = (Form.schema_version f + 1)%Z)).
Proof.
intros Hf Ha. split; [|split].
- intros e Hv. unfold FormService.atualizarSchemaFormulario. unfold_M.
  rewrite Hf, Ha. simpl. by rewrite Hv.
- intros Hv e Hc. unfold FormService.atualizarSchemaFormulario. unfold_M.
  rewrite Hf, Ha. simpl. by rewrite Hv, Hc.
- intros Hv Hc.
  rewrite (atualizarSchemaFormulario_run B id p w f Hf Ha Hv Hc). split.
  + intros v Hp Hnz Hle. rewrite Hp. simpl.
    destruct (Z.eqb_spec v 0); [done|].
    destruct (Z.leb_spec v (Form.schema_version f)); [done|lia].
  + intros Hp.
    assert (Hguard : truthy_Z (PartialForm.schema_version p) &&
                     (default 0 (PartialForm.schema_version p) <=? Form.schema_version f)%Z
                     = false).
    { destruct Hp as [->|[->|(v & -> & Hlt)]]; [done|done|]. simpl.
      destruct (Z.leb_spec v (Form.schema_version f)); [lia|].
      by rewrite andb_false_r. }
    rewrite Hguard. cbv zeta. eexists _, _. split; [done|]. simpl.
    by rewrite lookup_insert_eq.
Qed.

Lemma update_version_conflict_witness :
  let w := mundo (formulario "form_001" 2 false []) in
  FormService.atualizarSchemaFormulario example_builtins "form_001"
    (payload [campo "nome" text None] (Some 2%Z) None) w
    = (inl (Versao_nao_maior 2 2), w) ∧
  (∃ g w',
     FormService.atualizarSchemaFormulario example_builtins "form_001"
       (payload [campo "nome" text None] (Some 3%Z) None) w = (inr g, w') ∧
     forms w' !! "form_001" = Some g ∧
     Form.schema_version g = 3%Z) ∧
  (∃ g w',
     FormService.atualizarSchemaFormulario example_builtins "form_001"
       (payload [campo "nome" text None] (Some 0%Z) None) w = (inr g, w') ∧
     forms w' !! "form_001" = Some g ∧
     Form.schema_version g = 3%Z) ∧
  FormService.atualizarSchemaFormulario example_builtins "form_001"
    (payload [campo "nome" text (Some true)] (Some 2%Z) None) w
    = (inl (ZodError [mkIssue invalid_type None]), w).
Proof.
intros w. split; [|split; [|split]].
- destruct (update_version_conflict example_builtins "form_001"
              (payload [campo "nome" text None] (Some 2%Z) None) w
              (formulario "form_001" 2 false []) eq_refl eq_refl) as (_ & _ & H).
  destruct (H eq_refl eq_refl) as [Hconflict _].
  apply (Hconflict 2%Z); [reflexivity|discriminate|simpl; lia].
- destruct (update_version_conflict example_builtins "form_001"
              (payload [campo "nome" text None] (Some 3%Z) None) w
              (formulario "form_001" 2 false []) eq_refl eq_refl) as (_ & _ & H).
  destruct (H eq_refl eq_refl) as [_ Hok].
  apply Hok. right. right. exists 3%Z. split; [reflexivity|simpl; lia].
- destruct (update_version_conflict example_builtins "form_001"
              (payload [campo "nome" text None] (Some 0%Z) None) w
              (formulario "form_001" 2 false []) eq_refl eq_refl) as (_ & _ & H).
  destruct (H eq_refl eq_refl) as [_ Hok].
  apply Hok. right. by left.
- destruct (update_version_conflict example_builtins "form_001"
              (payload [campo "nome" text (Some true)] (Some 2%Z) None) w
              (formulario "form_001" 2 false []) eq_refl eq_refl) as (Hinvalid & _).
  apply Hinvalid. reflexivity.
Defined.

(** ** SubmitResponse *)

Section Submission.
Variable B : Builtins.

(** The id [enviarResposta] generates at clock reading [t]. *)
Lemma resposta_id_inj (t1 t2 : Z) :
  "resposta_" +:+ pretty t1 = "resposta_" +:+ pretty t2 → t1 = t2.
Proof. intros H. apply String.app_inj in H. by apply pretty_Z_inj in H. Qed.

(** [enviarResposta] on an existing active form, step by step. *)
Lemma enviarResposta_run formId respostas schema_version w f :
  forms w !! formId = Some f → Form.is_ativo f = true →
  FormService.enviarResposta B formId respostas schema_version w =
    let versaoAlvo := if truthy_Z schema_version then default 0%Z schema_version
                      else Form.schema_version f in
    if negb (versaoAlvo =? Form.schema_version f)%Z
    then (inl Versao_do_schema_desatualizada, w)
    else
      match FormService.validarRespostas B (Form.campos f) respostas with
      | inl e => (inl e, w)
      | inr _ =>
          match FormService.calcularCampos B
                  (List.filter FormService.is_calculated (Form.campos f)) respostas
                  JsObject.empty with
          | inl e => (inl e, w)
          | inr camposCalculados =>
              let id := "resposta_" +:+ pretty (now w) in
              let row := Response.mk id formId versaoAlvo (json_object respostas)
                           (json_object (JsObject.own camposCalculados))
                           (now w) true None None in
              if bool_decide (is_Some (responses w !! id))
              then (inl (Prisma_unique_constraint "responses" id), w)
              else (inr row,
                    mkWorld (forms w) (<[id := row]> (responses w)) (now w)
                      (audit w ++ [submissao_resposta formId id (now w)]))
          end
      end.
Proof.
intros Hf Ha.
unfold FormService.enviarResposta. unfold_M.
rewrite Hf, Ha. simpl.
destruct (negb (_ =? _)%Z); [done|].
destruct (FormService.validarRespostas B _ _) as [e|[]]; [done|].
destruct (FormService.calcularCampos B _ _ _) as [e|calc]; [done|]. simpl.
destruct (bool_decide (is_Some (responses w !! _))); [done|].
rewrite Hf. reflexivity.
Qed.

Lemma enviarResposta_inr_form formId respostas schema_version w r w1 :
  FormService.enviarResposta B formId respostas schema_version w = (inr r, w1) →
  ∃ f, forms w !! formId = Some f ∧ Form.is_ativo f = true.
Proof.
unfold FormService.enviarResposta. unfold_M.
destruct (forms w !! formId) as [f|]; [|done].
destruct (Form.is_ativo f) eqn:Ha; simpl; [|done]. intros _. by exists f.
Qed.

End Submission.


Section SubmissionErrors.
Variable B : Builtins.

Lemma validarRespostas_error campos respostas e :
  FormService.validarRespostas B campos respostas = inl e →
  validation_error e = true ∨ ∃ c, e = Expressao_condicional_invalida c.
Proof.
induction campos as [|c cs IH]; simpl; [done|].
destruct (FormService.is_calculated c); [done|].
destruct (truthy_string (Field.condicional c)); simpl.
- unfold FormService.avaliarCondicional.
  destruct (negb _ || negb _); simpl; [intros [= <-]; right; by eexists|].
  destruct (negb _); [done|].
  destruct (FieldValidator.validate B _ c) as [e1|[]] eqn:Hv; simpl; [|done].
  intros [= <-]. left. by eapply validate_error_kind.
- destruct (FieldValidator.validate B _ c) as [e1|[]] eqn:Hv; simpl; [|done].
  intros [= <-]. left. by eapply validate_error_kind.
Qed.

Lemma calculate_error campo respostas e :
  Calculator.calculate B campo respostas = inl e → calculation_error e = true.
Proof.
unfold Calculator.calculate.
repeat (case_match; simpl; try done); by intros [= <-].
Qed.

Lemma calcularCampos_error cs respostas : ∀ acc e,
  FormService.calcularCampos B cs respostas acc = inl e → calculation_error e = true.
Proof.
induction cs as [|c cs IH]; intros acc e; simpl; [done|].
destruct (Calculator.calculate B c respostas) as [e1|v] eqn:Hc; simpl.
- intros [= <-]. by eapply calculate_error.
- apply IH.
Qed.

End SubmissionErrors.

(** C6, as stated, fails at an explicit version of 0: [schema_version ||
    formulario.schema_version] takes the stored version whenever the given
    one is falsy, so the submission citing version 0 against a form at
    version 1 is accepted and a response is persisted. *)
Lemma submit_version_zero_counterexample :
  let w := mundo (formulario "form_001" 1 false []) in
  let r := Response.mk "resposta_1754531443000" "form_001" 1 ∅ ∅ 1754531443000
             true None None in
  ∃ w',
    FormService.enviarResposta example_builtins "form_001" ∅ (Some 0%Z) w = (inr r, w') ∧
    responses w' !! "resposta_1754531443000" = Some r.
Proof.
intros w r.
rewrite (enviarResposta_run example_builtins "form_001" ∅ (Some 0%Z) w
           (formulario "form_001" 1 false []) eq_refl eq_refl).
eexists. split; [reflexivity|]. simpl. apply lookup_insert_eq.
Qed.

(** C6 (amended). On a stored active form, a submission citing an explicit
    non-zero [schema_version] different from the stored one fails with the
    version-mismatch error and nothing is persisted; a submission that gives
    no version, or an explicit 0, which [||] takes for no version, has the
    stored version for target: the two behave alike, never fail with the
    version-mismatch error, and a persisted response carries the stored
    version. *)
Theorem submit_version_mismatch
    (B : Builtins) (formId : string) (respostas : gmap string Value)
    (w : World) (f : Form.t) :
  forms w !! formId = Some f →
  Form.is_ativo f = true →
  (∀ v, v ≠ 0%Z → v ≠ Form.schema_version f →
     FormService.enviarResposta B formId respostas (Some v) w
       = (inl Versao_do_schema_desatualizada, w)) ∧
  (∀ sv, sv = None ∨ sv = Some 0%Z →
     FormService.enviarResposta B formId respostas sv w
       = FormService.enviarResposta B formId respostas None w ∧
     (∀ e w', FormService.enviarResposta B formId respostas sv w = (inl e, w') →
        e ≠ Versao_do_schema_desatualizada) ∧
     (∀ r w', FormService.enviarResposta B formId respostas sv w = (inr r, w') →
        Response.schema_version r = Form.schema_version f ∧
        responses w' !! Response.id r = Some r)).
Proof.
intros Hf Ha. split.
- intros v Hnz Hne. rewrite (enviarResposta_run B _ _ _ _ f Hf Ha). simpl.
  destruct (Z.eqb_spec v 0); [done|]. simpl.
  by destruct (Z.eqb_spec v (Form.schema_version f)).
- intros sv Hsv.
  assert (Hsame : FormService.enviarResposta B formId respostas sv w
                  = FormService.enviarResposta B formId respostas None w).
  { rewrite !(enviarResposta_run B _ _ _ _ f Hf Ha). by destruct Hsv as [->| ->]. }
  split; [exact Hsame|]. rewrite Hsame. clear sv Hsv Hsame. split.
  + intros e w'. rewrite (enviarResposta_run B _ _ _ _ f Hf Ha). simpl.
    rewrite Z.eqb_refl. simpl.
    destruct (FormService.validarRespostas B _ _) as [e1|[]] eqn:Hv.
    { intros [= <- <-]. apply validarRespostas_error in Hv as [Hv|[c ->]]; [|done].
      intros ->. done. }
    destruct (FormService.calcularCampos B _ _ _) as [e1|calc] eqn:Hc.
    { intros [= <- <-]. apply calcularCampos_error in Hc. intros ->. done. }
    destruct (bool_decide _); [|done]. by intros [= <- <-].
  + intros r w'. rewrite (enviarResposta_run B _ _ _ _ f Hf Ha). simpl.
    rewrite Z.eqb_refl. simpl.
    destruct (FormService.validarRespostas B _ _) as [e1|[]]; [done|].
    destruct (FormService.calcularCampos B _ _ _) as [e1|calc]; [done|].
    destruct (bool_decide _); [done|]. intros [= <- <-]. simpl.
    split; [done|]. apply lookup_insert_eq.
Qed.

Lemma submit_version_mismatch_witness :
  let w := mundo (formulario "form_001" 2 false []) in
  FormService.enviarResposta example_builtins "form_001" ∅ (Some 1%Z) w
    = (inl Versao_do_schema_desatualizada, w) ∧
  (∃ r w',
     FormService.enviarResposta example_builtins "form_001" ∅ None w = (inr r, w') ∧
     Response.schema_version r = 2%Z ∧
     responses w' !! Response.id r = Some r) ∧
  (∃ r w',
     FormService.enviarResposta example_builtins "form_001" ∅ (Some 0%Z) w = (inr r, w') ∧
     Response.schema_version r = 2%Z ∧
     responses w' !! Response.id r = Some r).
Proof.
intros w.
destruct (submit_version_mismatch example_builtins "form_001" ∅ w
            (formulario "form_001" 2 false []) eq_refl eq_refl) as (Hcited & Hfalsy).
split; [apply Hcited; discriminate|]. split.
- destruct (Hfalsy None) as (_ & _ & Homitted); [by left|].
  destruct (FormService.enviarResposta example_builtins "form_001" ∅ None w)
    as [[e|r] w'] eqn:Hs; [vm_compute in Hs; discriminate|].
  exists r, w'. split; [reflexivity|]. exact (Homitted r w' eq_refl).
- destruct (Hfalsy (Some 0%Z)) as (_ & _ & Hzero); [by right|].
  destruct (FormService.enviarResposta example_builtins "form_001" ∅ (Some 0%Z) w)
    as [[e|r] w'] eqn:Hs; [vm_compute in Hs; discriminate|].
  exists r, w'. split; [reflexivity|]. exact (Hzero r w' eq_refl).
Defined.

(** C10, as stated, fails when the two calls read the same clock value:
    the response id is ["resposta_" + Date.now()], so the second call
    generates the id of the first and the primary key of the responses
    table rejects it; one record is persisted, not two. *)
Lemma submit_twice_same_instant_counterexample :
  let w := mundo (formulario "form_001" 1 false [campo "nome" text None]) in
  let respostas : gmap string Value := {["nome" := VString "Ana"]} in
  ∃ r1 w1,
    FormService.enviarResposta example_builtins "form_001" respostas None w
      = (inr r1, w1) ∧
    FormService.enviarResposta example_builtins "form_001" respostas None w1
      = (inl (Prisma_unique_constraint "responses" (Response.id r1)), w1) ∧
    size (responses w1) = 1%nat.
Proof.
intros w respostas.
destruct (FormService.enviarResposta example_builtins "form_001" respostas None w)
  as [[e|r1] w1] eqn:H1; vm_compute in H1; [discriminate|].
injection H1 as <- <-. eexists _, _. split; [reflexivity|].
split; vm_compute; reflexivity.
Qed.

(** C10 (amended). [enviarResposta] is not idempotent: when a submission
    succeeded and the same submission is made again at a different clock
    reading whose id is still free, the second call succeeds too, both
    response records are stored, and their ids differ. *)
Theorem submit_twice_distinct_ids
    (B : Builtins) (formId : string) (respostas : gmap string Value)
    (schema_version : option Z) (w w1 : World) (r1 : Response.t) (d : Z) :
  FormService.enviarResposta B formId respostas schema_version w = (inr r1, w1) →
  d ≠ 0%Z →
  responses w !! ("resposta_" +:+ pretty (now w + d)%Z) = None →
  ∃ r2 w2,
    FormService.enviarResposta B formId respostas schema_version (advance d w1)
      = (inr r2, w2) ∧
    Response.id r2 ≠ Response.id r1 ∧
    responses w2 !! Response.id r1 = Some r1 ∧
    responses w2 !! Response.id r2 = Some r2.
Proof.
intros H1 Hd Hfree.
destruct (enviarResposta_inr_form B _ _ _ _ _ _ H1) as (f & Hf & Ha).
rewrite (enviarResposta_run B _ _ _ _ f Hf Ha) in H1. simpl in H1.
destruct (negb _) eqn:Hver; [done|].
destruct (FormService.validarRespostas B _ _) as [e|[]] eqn:Hv; [done|].
destruct (FormService.calcularCampos B _ _ _) as [e|calc] eqn:Hc; [done|].
destruct (bool_decide _) eqn:Hpk; [done|].
injection H1 as <- <-.
assert (Hne : "resposta_" +:+ pretty (now w + d)%Z ≠ "resposta_" +:+ pretty (now w)).
{ intros Heq. apply resposta_id_inj in Heq. lia. }
rewrite (enviarResposta_run B _ _ _ (advance d _) f); [|exact Hf|exact Ha].
simpl. rewrite Hver, Hv, Hc.
rewrite bool_decide_eq_false_2; cycle 1.
{ rewrite lookup_insert_ne by done. rewrite Hfree. by intros [? ?]. }
eexists _, _. split; [reflexivity|]. simpl.
split; [done|]. split.
- rewrite lookup_insert_ne by done. apply lookup_insert_eq.
- apply lookup_insert_eq.
Qed.

Lemma submit_twice_distinct_ids_witness :
  let w := mundo (formulario "form_001" 1 false [campo "nome" text None]) in
  let respostas : gmap string Value := {["nome" := VString "Ana"]} in
  ∃ r1 w1 r2 w2,
    FormService.enviarResposta example_builtins "form_001" respostas None w
      = (inr r1, w1) ∧
    FormService.enviarResposta example_builtins "form_001" respostas None (advance 1 w1)
      = (inr r2, w2) ∧
    Response.id r2 ≠ Response.id r1 ∧
    responses w2 !! Response.id r1 = Some r1 ∧
    responses w2 !! Response.id r2 = Some r2.
Proof.
intros w respostas.
destruct (FormService.enviarResposta example_builtins "form_001" respostas None w)
  as [[e|r1] w1] eqn:H1; [vm_compute in H1; discriminate|].
destruct (submit_twice_distinct_ids example_builtins "form_001" respostas None
            w w1 r1 1 H1) as (r2 & w2 & H2);
  [discriminate|vm_compute; reflexivity|].
exists r1, w1, r2, w2. split; [reflexivity|exact H2].
Defined.

(** ** Soft deletion *)

Lemma obterFormularioPorId_found id w f :
  forms w !! id = Some f →
  FormService.obterFormularioPorId id w =
    (inr (Some f),
     mkWorld (forms w) (responses w) (now w) (audit w ++ [busca_formulario id (now w)])).
Proof.
intros Hf. unfold FormService.obterFormularioPorId. unfold_M. by rewrite Hf.
Qed.

(** What [desativarFormulario] does to an existing active form. *)
Lemma desativarFormulario_active id usuario w f :
  forms w !! id = Some f → Form.is_ativo f = true →
  FormService.desativarFormulario id usuario w =
    (inr tt,
     mkWorld
       (<[id := Form.mk (Form.id f) (Form.nome f) (Form.descricao f)
                  (Form.schema_version f) false (Form.data_criacao f)
                  (Some (now w)) (Some usuario) (Form.protegido f) (Form.campos f)]>
          (forms w))
       (responses w) (now w)
       (audit w ++ [exclusao_logica_formulario id usuario (now w)])).
Proof.
intros Hf Ha. unfold FormService.desativarFormulario. unfold_M.
rewrite Hf, Ha. simpl. by rewrite Hf.
Qed.

(** A schema update cannot clear the protection flag:
    [atualizarSchemaFormulario] overwrites [protegido] with the stored value
    and the repository does not write that column, so after an update asking
    for [protegido: false] the form is still protected and the controller
    still refuses its soft deletion. *)
Lemma protection_not_cleared_by_update :
  let w := mundo (formulario "form_001" 1 true []) in
  ∃ g w1 w2,
    FormService.atualizarSchemaFormulario example_builtins "form_001"
      (payload [] None (Some false)) w = (inr g, w1) ∧
    Form.protegido g = true ∧
    FormController.softDelete "form_001" w1
      = (FormController.mkHttp 403
           (FormController.error_text "Formulário protegido não pode ser removido"), w2) ∧
    forms w2 !! "form_001" = Some g ∧
    Form.is_ativo g = true.
Proof.
intros w.
destruct (FormService.atualizarSchemaFormulario example_builtins "form_001"
            (payload [] None (Some false)) w) as [[e|g] w1] eqn:Hu;
  vm_compute in Hu; [discriminate|].
injection Hu as <- <-. eexists _, _, _. split; [reflexivity|].
split; [reflexivity|]. split; [vm_compute; reflexivity|].
split; vm_compute; reflexivity.
Qed.

(** C5. [FormService.desativarFormulario] looks at whether the form exists
    and is active and at nothing else: a stored active form with
    [protegido = true] is soft-deleted like any other. The call succeeds,
    the row becomes inactive and is stamped with the removal time and user,
    and it is still marked protected. The service's own test ("should not
    soft delete a protected form") expects the call to be rejected and the
    repository not to be called. *)
Theorem protected_form_is_soft_deleted
    (id usuario : string) (w : World) (f : Form.t) :
  forms w !! id = Some f →
  Form.is_ativo f = true →
  Form.protegido f = true →
  ∃ g w',
    FormService.desativarFormulario id usuario w = (inr tt, w') ∧
    forms w' !! id = Some g ∧
    Form.is_ativo g = false ∧
    Form.protegido g = true ∧
    Form.data_remocao g = Some (now w) ∧
    Form.usuario_remocao g = Some usuario.
Proof.
intros Hf Ha Hp.
rewrite (desativarFormulario_active id usuario w f Hf Ha).
eexists _, _. split; [reflexivity|]. simpl. by rewrite lookup_insert_eq.
Qed.

Lemma protected_form_is_soft_deleted_witness :
  let f := formulario "form_001" 1 true [] in
  ∃ g w',
    FormService.desativarFormulario "form_001" "user_test" (mundo f) = (inr tt, w') ∧
    forms w' !! "form_001" = Some g ∧
    Form.is_ativo g = false ∧
    Form.protegido g = true ∧
    Form.data_remocao g = Some (now (mundo f)) ∧
    Form.usuario_remocao g = Some "user_test".
Proof.
intros f.
apply (protected_form_is_soft_deleted "form_001" "user_test" (mundo f) f);
  reflexivity.
Defined.

(** ** Conditional gating *)

Section Gating.
Variable B : Builtins.

Lemma validarRespostas_skips pre c post respostas :
  FormService.is_calculated c = false →
  truthy_string (Field.condicional c) = true →
  FormService.avaliarCondicional (default "" (Field.condicional c)) respostas = inr false →
  FormService.validarRespostas B (pre ++ c :: post) respostas
    = FormService.validarRespostas B (pre ++ post) respostas.
Proof.
intros Hk Hc Hev. induction pre as [|a pre IH]; simpl.
- by rewrite Hk, Hc, Hev.
- rewrite IH. done.
Qed.

Lemma validarRespostas_validates campos respostas c :
  FormService.validarRespostas B campos respostas = inr tt →
  c ∈ campos →
  FormService.is_calculated c = false →
  truthy_string (Field.condicional c) = false →
  FieldValidator.validate B (Calculator.prop respostas (Field.id c)) c = inr tt.
Proof.
intros Hall Hin Hk Hc. induction campos as [|a rest IH]; [by apply elem_of_nil in Hin|].
simpl in Hall. apply elem_of_cons in Hin as [<-|Hin].
- rewrite Hk, Hc in Hall. simpl in Hall.
  by destruct (FieldValidator.validate B _ c) as [e|[]].
- apply IH; [|done]. revert Hall.
  destruct (FormService.is_calculated a); [done|].
  destruct (_ : Result bool) as [e|[]]; simpl; try done.
  by destruct (FieldValidator.validate B _ a) as [e|[]].
Qed.

(** An assignment under any other key than [__proto__] creates or
    overwrites the own property. *)
Lemma JsObject_set_lookup obj key value k :
  k ≠ "__proto__" →
  JsObject.own (JsObject.set obj key value) !! k =
    if decide (key = k) then Some value else JsObject.own obj !! k.
Proof.
intros Hk. unfold JsObject.set.
destruct (decide (key = k)) as [->|Hne].
- rewrite bool_decide_eq_false_2 by done. simpl. by rewrite lookup_insert_eq.
- destruct (bool_decide (key = "__proto__") && negb (JsObject.null_prototype obj)).
  + by destruct value.
  + simpl. by rewrite lookup_insert_ne.
Qed.

(** What the second loop leaves when it completes: every field was
    computed, and under each key other than [__proto__] sits the value of
    the last field bearing that id. *)
Lemma calcularCampos_inr cs respostas : ∀ acc m,
  FormService.calcularCampos B cs respostas acc = inr m →
  (∀ c, c ∈ cs → ∃ v, Calculator.calculate B c respostas = inr v) ∧
  (∀ k, k ≠ "__proto__" →
     JsObject.own m !! k =
       match last (filter (λ c, Field.id c = k) cs) with
       | Some c => match Calculator.calculate B c respostas with
                   | inr v => Some v
                   | inl _ => None
                   end
       | None => JsObject.own acc !! k
       end).
Proof.
induction cs as [|a cs IH]; intros acc m H; simpl in H.
- injection H as <-. split; [|done]. intros c Hc. by apply elem_of_nil in Hc.
- destruct (Calculator.calculate B a respostas) as [e|v] eqn:Ha; [done|]. simpl in H.
  destruct (IH _ _ H) as [Hall Hrec]. split.
  + intros c Hc. apply elem_of_cons in Hc as [->|Hc]; [by eexists|by apply Hall].
  + intros k Hk. rewrite (Hrec k Hk), filter_cons.
    rewrite (JsObject_set_lookup _ _ _ k Hk).
    destruct (decide (Field.id a = k)) as [Hid|Hid].
    * rewrite last_cons. destruct (last (filter _ cs)); [done|]. by rewrite Ha.
    * done.
Qed.

Lemma validate_com_condicional condicional value c :
  FieldValidator.validate B value (com_condicional condicional c)
    = FieldValidator.validate B value c.
Proof. by destruct c. Qed.

Lemma validarCampos_com_condicional (g : Field.t → option string) campos :
  FormService.validarCampos B (map (λ c, com_condicional (g c) c) campos)
    = FormService.validarCampos B campos.
Proof.
induction campos as [|c rest IH]; simpl; [done|].
by rewrite validate_com_condicional, IH.
Qed.

End Gating.

(** C4, as stated, fails for calculated fields: the second loop of
    [enviarResposta] runs over every field of kind [calculated] without
    looking at [condicional]. Here the conditional ["sexo=feminino"] of the
    calculated field is false for the submitted values, and a value is
    computed and recorded for it all the same. *)
Lemma calculated_field_not_gated_counterexample :
  let bonus := campo_calculado "bonus" (Some "sexo=feminino") "sexo" ["sexo"] in
  let w := mundo (formulario "form_001" 1 false [campo "sexo" text None; bonus]) in
  let respostas : gmap string Value := {["sexo" := VString "masculino"]} in
  FormService.avaliarCondicional "sexo=feminino" respostas = inr false ∧
  ∃ r w',
    FormService.enviarResposta example_builtins "form_001" respostas None w = (inr r, w') ∧
    Response.calculados r !! "bonus" = Some (VString "masculino").
Proof.
intros bonus w respostas. split; [reflexivity|].
destruct (FormService.enviarResposta example_builtins "form_001" respostas None w)
  as [[e|r] w'] eqn:H; vm_compute in H; [discriminate|].
injection H as <- <-. eexists _, _. split; [reflexivity|]. vm_compute. reflexivity.
Qed.

(** C4 (amended). In [enviarResposta], a non-calculated field whose
    conditional evaluates to false is skipped by the validation loop (the
    loop behaves as if the field were not in the list), and a
    non-calculated field bearing no conditional is validated whenever the
    loop completes; calculated fields are not gated: in a successful
    submission every calculated field of the form, whatever its conditional,
    was computed from the submitted values, and under each id other than
    [__proto__] the response records the value computed for the last
    calculated field bearing that id, as the JSON column returns it (nothing
    when no calculated field bears the id, or when the value is [undefined]
    or a function); and definition-level validation does not depend on the
    conditionals. *)
Theorem conditional_gating
    (B : Builtins) (formId : string) (respostas : gmap string Value)
    (schema_version : option Z) (w w' : World) (f : Form.t) (r : Response.t) :
  forms w !! formId = Some f →
  FormService.enviarResposta B formId respostas schema_version w = (inr r, w') →
  (∀ pre c post,
     FormService.is_calculated c = false →
     truthy_string (Field.condicional c) = true →
     FormService.avaliarCondicional (default "" (Field.condicional c)) respostas
       = inr false →
     FormService.validarRespostas B (pre ++ c :: post) respostas
       = FormService.validarRespostas B (pre ++ post) respostas) ∧
  (∀ c, c ∈ Form.campos f →
     FormService.is_calculated c = false →
     truthy_string (Field.condicional c) = false →
     FieldValidator.validate B (Calculator.prop respostas (Field.id c)) c = inr tt) ∧
  (∀ c, c ∈ Form.campos f →
     FormService.is_calculated c = true →
     ∃ v, Calculator.calculate B c respostas = inr v) ∧
  (∀ k, k ≠ "__proto__" →
     Response.calculados r !! k =
       match last (filter (λ c, Field.id c = k)
                     (List.filter FormService.is_calculated (Form.campos f))) with
       | Some c => match Calculator.calculate B c respostas with
                   | inr v => json_member v
                   | inl _ => None
                   end
       | None => None
       end) ∧
  (∀ (g : Field.t → option string) campos,
     FormService.validarCampos B (map (λ c, com_condicional (g c) c) campos)
       = FormService.validarCampos B campos).
Proof.
intros Hf H.
destruct (enviarResposta_inr_form B _ _ _ _ _ _ H) as (f' & Hf' & Ha).
assert (f' = f) as -> by congruence.
rewrite (enviarResposta_run B _ _ _ _ f Hf Ha) in H. simpl in H.
destruct (negb _); [done|].
destruct (FormService.validarRespostas B _ _) as [e|[]] eqn:Hv; [done|].
destruct (FormService.calcularCampos B _ _ _) as [e|calc] eqn:Hc; [done|].
destruct (bool_decide _); [done|]. injection H as <- <-. simpl.
destruct (calcularCampos_inr B _ _ _ _ Hc) as [Hall Hrec].
split; [intros; by apply validarRespostas_skips|].
split; [intros; by eapply validarRespostas_validates|].
split; [|split; [|apply validarCampos_com_condicional]].
- intros c Hin Hk. apply Hall.
  apply list_elem_of_In, filter_In. split; [by apply list_elem_of_In|done].
- intros k Hk. unfold json_object. rewrite lookup_omap, (Hrec k Hk).
  destruct (last _) as [c|]; [|done].
  by destruct (Calculator.calculate B c respostas).
Qed.

Lemma conditional_gating_witness :
  let gravidez := Field.mk "gravidez" "Gravidez" boolean (Some true)
                    (Some "sexo=feminino") None None None None None None None None None in
  let bonus := campo_calculado "bonus" (Some "sexo=feminino") "sexo" ["sexo"] in
  let f := formulario "form_001" 1 false [campo "sexo" text None; gravidez; bonus] in
  let respostas : gmap string Value := {["sexo" := VString "masculino"]} in
  ∃ r w',
    FormService.enviarResposta example_builtins "form_001" respostas None (mundo f)
      = (inr r, w') ∧
    FormService.validarRespostas example_builtins
      ([campo "sexo" text None] ++ gravidez :: [bonus]) respostas
    = FormService.validarRespostas example_builtins
        ([campo "sexo" text None] ++ [bonus]) respostas ∧
    (∃ v, Calculator.calculate example_builtins bonus respostas = inr v) ∧
    Response.calculados r !! "bonus" = Some (VString "masculino").
Proof.
intros gravidez bonus f respostas.
destruct (FormService.enviarResposta example_builtins "form_001" respostas None (mundo f))
  as [[e|r] w'] eqn:H; [vm_compute in H; discriminate|].
destruct (conditional_gating example_builtins "form_001" respostas None (mundo f) w' f r
            eq_refl H) as (Hskip & _ & Hcalc & Hrec & _).
exists r, w'. split; [reflexivity|]. split; [|split].
- apply Hskip; reflexivity.
- apply (Hcalc bonus); [|reflexivity].
  apply elem_of_cons; right. apply elem_of_cons; right. apply elem_of_cons; by left.
- rewrite (Hrec "bonus"); [reflexivity|discriminate].
Defined.

(** ** Evaluation of calculated fields *)

Section Calculation.
Variable B : Builtins.

(** A calculated field is only ever computed from what the submitted
    values hold: in a successful submission every declared dependency of
    every calculated field is a key of [respostas], own or inherited from
    [Object.prototype]. *)
Lemma calculate_inr_deps c respostas v :
  Calculator.calculate B c respostas = inr v →
  ∃ deps, Field.dependencias c = Some deps ∧
    ∀ d, d ∈ deps → is_Some (respostas !! d) ∨ d ∈ Object_prototype.
Proof.
unfold Calculator.calculate.
destruct (Field.formula c) as [formula|]; [|done].
destruct (Field.dependencias c) as [deps|]; [|done].
destruct (bool_decide (formula = "")); [done|].
destruct (List.filter _ deps) as [|m ms] eqn:Hmiss; [|done].
intros _. exists deps. split; [done|]. intros d Hd.
destruct (Calculator.has_key respostas d) eqn:Hkey.
- unfold Calculator.has_key in Hkey. apply orb_true_iff in Hkey as [Hk|Hk].
  + left. by apply bool_decide_eq_true in Hk.
  + right. by apply bool_decide_eq_true in Hk.
- assert (Hin : In d (List.filter (λ dep, negb (Calculator.has_key respostas dep)) deps)).
  { apply filter_In. split; [by apply list_elem_of_In|]. by rewrite Hkey. }
  rewrite Hmiss in Hin. destruct Hin.
Qed.

(** Hence a dependency on another calculated field is only met when the
    caller submitted a value under that field's id (or the id is a name of
    [Object.prototype]). *)
Lemma enviarResposta_inr_deps formId respostas schema_version w f r w' c deps d :
  forms w !! formId = Some f →
  FormService.enviarResposta B formId respostas schema_version w = (inr r, w') →
  c ∈ Form.campos f → FormService.is_calculated c = true →
  Field.dependencias c = Some deps → d ∈ deps →
  is_Some (respostas !! d) ∨ d ∈ Object_prototype.
Proof.
intros Hf H Hin Hk Hdeps Hd.
destruct (enviarResposta_inr_form B _ _ _ _ _ _ H) as (f' & Hf' & Ha).
assert (f' = f) as -> by congruence.
rewrite (enviarResposta_run B _ _ _ _ f Hf Ha) in H. simpl in H.
destruct (negb _); [done|].
destruct (FormService.validarRespostas B _ _) as [e|[]]; [done|].
destruct (FormService.calcularCampos B _ _ _) as [e|calc] eqn:Hc; [done|].
destruct (calcularCampos_inr B _ _ _ _ Hc) as [Hall _].
destruct (Hall c) as [v Hv].
{ apply list_elem_of_In, filter_In. split; [by apply list_elem_of_In|done]. }
destruct (calculate_inr_deps c respostas v Hv) as (deps' & Hdeps' & Hkeys).
apply Hkeys. congruence.
Qed.

End Calculation.

(** C1. Evaluated on a form whose calculated field [classificacao] depends
    on the calculated field [imc], declared before it (so the declared
    order is already a topological one): the value computed for [imc] is
    not put in the scope of [classificacao]. [calculate] is handed the
    submitted values only, finds [imc] missing and the whole submission is
    rejected, with nothing persisted; or, if the formula of [imc] does not
    evaluate, the submission is rejected for that. *)
Theorem calculated_dependency_not_supplied (B : Builtins) :
  let classificacao :=
    campo_calculado "classificacao" None
      "if imc > 30 then 'Obesidade' else 'Normal'" ["imc"] in
  let w := mundo (formulario "form_001" 1 false
                    [campo "peso" number None; campo "altura" number None;
                     campo_imc; classificacao]) in
  let respostas : gmap string Value :=
    {["peso" := VNumber 70; "altura" := VNumber 170]} in
  FormService.enviarResposta B "form_001" respostas None w =
    match evaluate B "peso / (altura/100)^2" respostas with
    | Some _ => (inl (Dependencias_ausentes "classificacao" ["imc"]), w)
    | None => (inl (Avaliacao_da_formula_falhou "peso / (altura/100)^2"), w)
    end.
Proof.
intros classificacao w respostas.
rewrite (enviarResposta_run B "form_001" respostas None w
           (formulario "form_001" 1 false
              [campo "peso" number None; campo "altura" number None;
               campo_imc; classificacao]) eq_refl eq_refl).
assert (Hv : FormService.validarRespostas B
               [campo "peso" number None; campo "altura" number None;
                campo_imc; classificacao] respostas = inr tt) by reflexivity.
assert (Himc : Calculator.calculate B campo_imc respostas =
               match evaluate B "peso / (altura/100)^2" respostas with
               | Some v => inr v
               | None => inl (Avaliacao_da_formula_falhou "peso / (altura/100)^2")
               end).
{ assert (Hscope :
    JsObject.own
      (foldl (λ acc dep, JsObject.set acc dep (Calculator.prop respostas dep))
         JsObject.empty ["peso"; "altura"]) = respostas)
    by (vm_compute; reflexivity).
  unfold Calculator.calculate, campo_imc, campo_calculado.
  cbn [Field.formula Field.dependencias Field.precisao Field.id].
  rewrite Hscope.
  destruct (evaluate B _ respostas) as [[]|]; reflexivity. }
assert (Hclass : Calculator.calculate B classificacao respostas =
                 inl (Dependencias_ausentes "classificacao" ["imc"])) by reflexivity.
assert (Hcalc : FormService.calcularCampos B [campo_imc; classificacao] respostas
                 JsObject.empty =
                match evaluate B "peso / (altura/100)^2" respostas with
                | Some _ => inl (Dependencias_ausentes "classificacao" ["imc"])
                | None => inl (Avaliacao_da_formula_falhou "peso / (altura/100)^2")
                end).
{ cbn [FormService.calcularCampos]. rewrite Himc.
  destruct (evaluate B _ respostas) as [v|]; [|reflexivity].
  cbn [mbind Result_bind]. by rewrite Hclass. }
change (List.filter FormService.is_calculated
          (Form.campos (formulario "form_001" 1 false
             [campo "peso" number None; campo "altura" number None;
              campo_imc; classificacao])))
  with [campo_imc; classificacao].
change (Form.campos (formulario "form_001" 1 false
          [campo "peso" number None; campo "altura" number None;
           campo_imc; classificacao]))
  with [campo "peso" number None; campo "altura" number None; campo_imc; classificacao].
cbv zeta. rewrite Hv, Hcalc.
by destruct (evaluate B _ respostas).
Qed.

(* ===================================================================== *)
(** * Part III. Further properties of the embedded code                   *)
(* ===================================================================== *)

(** ** The dependency graph class *)

Section GraphMore.
Variable g : Graph.t.

Lemma get_key_Some node : node ∈ Graph.getNodes g → is_Some (Graph.get g node).
Proof.
unfold Graph.getNodes. induction g as [|[k ns] g' IH]; simpl; intros H.
- by apply elem_of_nil in H.
- destruct (decide (k = node)); [by eexists|].
  apply elem_of_cons in H as [H|H]; [done|]. by apply IH.
Qed.

Lemma get_push source destination u :
  Graph.get (Graph.push g source destination) u =
    if decide (u = source) then (λ ns, ns ++ [destination]) <$> Graph.get g u
    else Graph.get g u.
Proof.
induction g as [|[k ns] g' IH]; simpl.
- by destruct (decide (u = source)).
- destruct (decide (k = source)) as [->|Hk]; simpl.
  + destruct (decide (source = u)) as [<-|Hu].
    * by rewrite decide_True.
    * by rewrite decide_False by done.
  + destruct (decide (k = u)) as [->|Hu]; [by rewrite decide_False by done|].
    apply IH.
Qed.

Lemma getNodes_push source destination :
  Graph.getNodes (Graph.push g source destination) = Graph.getNodes g.
Proof.
unfold Graph.getNodes. induction g as [|[k ns] g' IH]; simpl; [done|].
destruct (decide (k = source)); simpl; [done|]. f_equal. apply IH.
Qed.

Lemma get_addNode_fresh node u :
  node ∉ Graph.getNodes g →
  Graph.get (g ++ [(node, [])]) u =
    if decide (u = node) then Some [] else Graph.get g u.
Proof.
unfold Graph.getNodes. induction g as [|[k ns] g' IH]; simpl; intros H.
- destruct (decide (node = u)) as [->|]; [by rewrite decide_True|by rewrite decide_False].
- apply not_elem_of_cons in H as [Hk H].
  destruct (decide (k = u)) as [->|Hu]; [by rewrite decide_False by done|]. by apply IH.
Qed.

End GraphMore.

Lemma addNode_registered (g : Graph.t) node :
  node ∈ Graph.getNodes g → Graph.addNode g node = g.
Proof. intros H. unfold Graph.addNode, Graph.has. by rewrite bool_decide_eq_true_2. Qed.

Lemma addNode_fresh (g : Graph.t) node :
  node ∉ Graph.getNodes g → Graph.addNode g node = g ++ [(node, [])].
Proof. intros H. unfold Graph.addNode, Graph.has. by rewrite bool_decide_eq_false_2. Qed.

Lemma addEdge_inr (g g' : Graph.t) source destination :
  Graph.addEdge g source destination = inr g' →
  source ∈ Graph.getNodes g ∧ destination ∈ Graph.getNodes g ∧
  g' = Graph.push g source destination.
Proof.
unfold Graph.addEdge, Graph.has.
destruct (bool_decide (source ∈ _)) eqn:Hs; simpl; [|done].
destruct (bool_decide (destination ∈ _)) eqn:Hd; simpl; [|done].
intros [= <-]. apply bool_decide_eq_true in Hs, Hd. done.
Qed.

(** X1. [addNode] is idempotent: on a registered id it changes nothing; on
    a new id it appends the node after the existing ones with an empty
    adjacency list and leaves every other adjacency list as it was. *)
Theorem addNode_idempotent (g : Graph.t) (node : string) :
  Graph.addNode (Graph.addNode g node) node = Graph.addNode g node ∧
  (node ∈ Graph.getNodes g → Graph.addNode g node = g) ∧
  (node ∉ Graph.getNodes g →
     Graph.getNodes (Graph.addNode g node) = Graph.getNodes g ++ [node] ∧
     Graph.get (Graph.addNode g node) node = Some [] ∧
     ∀ u, u ≠ node → Graph.get (Graph.addNode g node) u = Graph.get g u).
Proof.
pose proof (addNode_registered g node) as Hin.
pose proof (addNode_fresh g node) as Hout.
split; [|split; [done|]].
- destruct (decide (node ∈ Graph.getNodes g)) as [H|H].
  + by rewrite !Hin.
  + rewrite (Hout H). apply addNode_registered. unfold Graph.getNodes.
    rewrite fmap_app. apply elem_of_app. right. simpl. apply elem_of_cons. by left.
- intros H. rewrite (Hout H). split; [|split].
  + unfold Graph.getNodes. by rewrite fmap_app.
  + rewrite (get_addNode_fresh g node node H). by rewrite decide_True.
  + intros u Hu. rewrite (get_addNode_fresh g node u H). by rewrite decide_False.
Qed.

(** X2. [addEdge] looks for the source first, then for the destination,
    and throws for the first one that is not registered, whatever the rest;
    when both are registered it succeeds, keeps the nodes and their order,
    and the edges of the new graph are the old ones and the new one (a
    repeated edge is stored again). *)
Theorem addEdge_behaviour (g : Graph.t) (source destination : string) :
  (source ∉ Graph.getNodes g →
     Graph.addEdge g source destination = inl (Graph.SourceNotFound source)) ∧
  (source ∈ Graph.getNodes g → destination ∉ Graph.getNodes g →
     Graph.addEdge g source destination = inl (Graph.DestinationNotFound destination)) ∧
  (source ∈ Graph.getNodes g → destination ∈ Graph.getNodes g →
     ∃ g', Graph.addEdge g source destination = inr g' ∧
           Graph.getNodes g' = Graph.getNodes g ∧
           (∀ ns, Graph.get g source = Some ns →
                  Graph.get g' source = Some (ns ++ [destination])) ∧
           (∀ u v, Graph.edge g' u v ↔
                   Graph.edge g u v ∨ (u = source ∧ v = destination))).
Proof.
unfold Graph.addEdge, Graph.has. split; [|split].
- intros Hs. by rewrite bool_decide_eq_false_2.
- intros Hs Hd. rewrite bool_decide_eq_true_2 by done. simpl.
  by rewrite bool_decide_eq_false_2.
- intros Hs Hd. rewrite !bool_decide_eq_true_2 by done. simpl.
  eexists. split; [done|]. split; [apply getNodes_push|]. split.
  + intros ns Hns. rewrite get_push, decide_True by done. by rewrite Hns.
  + intros u v. unfold Graph.edge. rewrite get_push.
    destruct (decide (u = source)) as [->|Hu].
    * destruct (get_key_Some g source Hs) as [ns Hns]. rewrite Hns. simpl. split.
      -- intros (ns' & [= <-] & Hv). apply elem_of_app in Hv as [Hv|Hv].
         ++ left. by exists ns.
         ++ right. by apply list_elem_of_singleton in Hv.
      -- intros [(ns' & [= <-] & Hv)|[_ ->]]; eexists; (split; [done|]);
           apply elem_of_app; [by left|right; by apply list_elem_of_singleton].
    * split; [intros H; by left|]. intros [H|[H _]]; done.
Qed.

Lemma addEdge_behaviour_witness :
  ∃ g', Graph.addEdge [("a", ["b"]); ("b", [])] "a" "b" = inr g' ∧
        Graph.getNodes g' = ["a"; "b"] ∧
        (∀ ns, Graph.get [("a", ["b"]); ("b", [])] "a" = Some ns →
               Graph.get g' "a" = Some (ns ++ ["b"])) ∧
        (∀ u v, Graph.edge g' u v ↔
                Graph.edge [("a", ["b"]); ("b", [])] u v ∨ (u = "a" ∧ v = "b")).
Proof.
apply (proj2 (proj2 (addEdge_behaviour [("a", ["b"]); ("b", [])] "a" "b"))).
- apply elem_of_cons. by left.
- apply elem_of_cons. right. apply elem_of_cons. by left.
Defined.

(** X3. Every graph reached from the empty one by [addNode] and successful
    [addEdge] calls has no node registered twice and only registered nodes
    as neighbours. *)
Theorem built_graph_wf (g : Graph.t) : Graph.built g → graph_wf g.
Proof.
induction 1 as [|g node Hb [Hnd Hcl]|g source destination g' Hb [Hnd Hcl] Hadd].
- split; [apply NoDup_nil_2|]. intros u v (ns & Hget & _). done.
- destruct (decide (node ∈ Graph.getNodes g)) as [Hin|Hout].
  + by rewrite (addNode_registered g node Hin).
  + rewrite (addNode_fresh g node Hout). split.
    * unfold Graph.getNodes. rewrite fmap_app. simpl.
      apply NoDup_app. split; [done|]. split; [|apply NoDup_singleton].
      intros x Hx Hx'. apply list_elem_of_singleton in Hx' as ->. done.
    * intros u v (ns & Hget & Hv). rewrite (get_addNode_fresh g node u Hout) in Hget.
      unfold Graph.getNodes. rewrite fmap_app. apply elem_of_app.
      destruct (decide (u = node)).
      -- injection Hget as <-. by apply elem_of_nil in Hv.
      -- left. apply (Hcl u v). by exists ns.
- apply addEdge_inr in Hadd as (Hs & Hd & ->). split.
  + by rewrite getNodes_push.
  + intros u v (ns & Hget & Hv). rewrite getNodes_push. rewrite get_push in Hget.
    destruct (decide (u = source)) as [->|Hu].
    * destruct (Graph.get g source) as [ns0|] eqn:Hns; [|done].
      injection Hget as <-. apply elem_of_app in Hv as [Hv|Hv].
      -- apply (Hcl source v). by exists ns0.
      -- by apply list_elem_of_singleton in Hv as ->.
    * apply (Hcl u v). by exists ns.
Qed.

Lemma built_graph_wf_witness : graph_wf [("a", ["b"]); ("b", ["a"])].
Proof.
apply built_graph_wf.
apply (Graph.built_addEdge [("a", ["b"]); ("b", [])] "b" "a"); [|reflexivity].
apply (Graph.built_addEdge [("a", []); ("b", [])] "a" "b"); [|reflexivity].
apply (Graph.built_addNode [("a", [])] "b").
apply (Graph.built_addNode [] "a").
apply Graph.built_empty.
Defined.

Section CyclePath.
Variable g : Graph.t.

Lemma slice_indexOf_drop (s : list string) (x : string) :
  x ∈ s → ∃ n rest, JsSet.slice s (JsSet.indexOf s x) = drop n s ∧ drop n s = x :: rest.
Proof.
intros Hin.
assert (Hgen : ∃ n rest, JsSet.indexOf s x = Z.of_nat n ∧ drop n s = x :: rest).
{ induction s as [|y s IH]; [by apply elem_of_nil in Hin|].
  simpl. destruct (decide (y = x)) as [->|Hne].
  - exists 0%nat, s. done.
  - apply elem_of_cons in Hin as [->|Hin]; [done|].
    destruct (IH Hin) as (n & rest & Hi & Hd). rewrite Hi.
    destruct (Z.ltb_spec (Z.of_nat n) 0); [lia|].
    exists (S n), rest. split; [lia|done]. }
destruct Hgen as (n & rest & Hi & Hd). exists n, rest. split; [|done].
unfold JsSet.slice. rewrite Hi. destruct (Z.ltb_spec (Z.of_nat n) 0); [lia|].
by rewrite Nat2Z.id.
Qed.

Lemma is_path_drop n l : is_path g l → is_path g (drop n l).
Proof.
intros H i x y Hx Hy. rewrite lookup_drop in Hx, Hy.
apply (H (n + i)%nat x y Hx). by rewrite <- Nat.add_succ_r.
Qed.

Lemma is_path_snoc l a b :
  is_path g (l ++ [a]) → Graph.edge g a b → is_path g ((l ++ [a]) ++ [b]).
Proof.
intros H Hab i x y Hx Hy.
destruct (decide (S i < length (l ++ [a]))%nat) as [Hlt|Hge].
- rewrite lookup_app_l in Hx by lia. rewrite lookup_app_l in Hy by lia.
  by apply (H i).
- assert (Hi : S i = length (l ++ [a])).
  { apply lookup_lt_Some in Hy. rewrite length_app in Hy. simpl in Hy. lia. }
  rewrite lookup_app_r in Hy by lia. rewrite Hi, Nat.sub_diag in Hy.
  injection Hy as <-.
  rewrite lookup_app_l in Hx by lia. rewrite length_app in Hi. simpl in Hi.
  rewrite lookup_app_r in Hx by lia.
  replace (i - length l)%nat with 0%nat in Hx by lia. by injection Hx as <-.
Qed.

Lemma firstCycle_None_stack (visit : string → Graph.DfsState → option Graph.Outcome) :
  (∀ x st st', visit x st = Some (None, st') →
     Graph.recursionStack st' = Graph.recursionStack st) →
  ∀ xs st st', Graph.firstCycle visit xs st = Some (None, st') →
     Graph.recursionStack st' = Graph.recursionStack st.
Proof.
intros Hv xs. induction xs as [|x xs IH]; intros st st' H; simpl in H.
- by injection H as <-.
- destruct (visit x st) as [[[c|] st1]|] eqn:Hx; [done| |done].
  rewrite (IH _ _ H). by apply (Hv x).
Qed.

Lemma detectCycleUtil_None_stack fuel :
  ∀ node st st', Graph.detectCycleUtil fuel g node st = Some (None, st') →
    Graph.recursionStack st' = Graph.recursionStack st.
Proof.
induction fuel as [|fuel IH]; intros node st st' H; simpl in H; [done|].
unfold JsSet.has in H.
destruct (bool_decide (node ∈ Graph.recursionStack st)) eqn:Hstk; [done|].
apply bool_decide_eq_false in Hstk.
destruct (bool_decide (node ∈ Graph.visited st)); [by injection H as <-|].
destruct (Graph.firstCycle _ _ _) as [[[c|] st2]|] eqn:Hloop; [done| |done].
apply (firstCycle_None_stack _ IH) in Hloop. simpl in Hloop.
injection H as <-. simpl. rewrite Hloop, (JsSet_add_fresh _ _ Hstk).
by apply JsSet_delete_last.
Qed.

Lemma firstCycle_closed_path (visit : string → Graph.DfsState → option Graph.Outcome) :
  (∀ x st st', visit x st = Some (None, st') →
     Graph.recursionStack st' = Graph.recursionStack st) →
  (∀ x st c st', visit x st = Some (Some c, st') →
     is_path g (Graph.recursionStack st ++ [x]) → closed_path g c) →
  ∀ xs st c st', Graph.firstCycle visit xs st = Some (Some c, st') →
     (∀ x, x ∈ xs → is_path g (Graph.recursionStack st ++ [x])) → closed_path g c.
Proof.
intros Hnone Hsome xs. induction xs as [|x xs IH]; intros st c st' H Hp; simpl in H; [done|].
destruct (visit x st) as [[[c1|] st1]|] eqn:Hx; [| |done].
- injection H as <- <-. apply (Hsome _ _ _ _ Hx). apply Hp. apply elem_of_cons. by left.
- apply (IH _ _ _ H). intros y Hy. rewrite (Hnone _ _ _ Hx).
  apply Hp. apply elem_of_cons. by right.
Qed.

Lemma detectCycleUtil_closed_path fuel :
  ∀ node st c st', Graph.detectCycleUtil fuel g node st = Some (Some c, st') →
    is_path g (Graph.recursionStack st ++ [node]) → closed_path g c.
Proof.
induction fuel as [|fuel IH]; intros node st c st' H Hp; simpl in H; [done|].
unfold JsSet.has in H.
destruct (bool_decide (node ∈ Graph.recursionStack st)) eqn:Hstk.
{ apply bool_decide_eq_true in Hstk. injection H as <- <-.
  destruct (slice_indexOf_drop _ _ Hstk) as (n & rest & -> & Hd).
  split.
  - assert (Hn : (n ≤ length (Graph.recursionStack st))%nat).
    { destruct (decide (n ≤ length (Graph.recursionStack st))%nat); [done|].
      rewrite drop_ge in Hd by lia. done. }
    rewrite <- (drop_app_le _ _ _ Hn). by apply is_path_drop.
  - exists node, rest. by rewrite Hd. }
apply bool_decide_eq_false in Hstk.
destruct (bool_decide (node ∈ Graph.visited st)); [done|].
destruct (Graph.firstCycle _ _ _) as [[[c1|] st2]|] eqn:Hloop; [|done|done].
injection H as <- <-.
apply (firstCycle_closed_path _ (detectCycleUtil_None_stack fuel) IH) in Hloop; [done|].
intros x Hx. simpl. rewrite (JsSet_add_fresh _ _ Hstk).
apply is_path_snoc; [done|]. destruct (Graph.get g node) as [ns|] eqn:Hget; simpl in Hx.
- by exists ns.
- by apply elem_of_nil in Hx.
Qed.

End CyclePath.

(** X4. The sequence [hasCycle] returns is a cycle of the graph: it starts
    and ends with the same node, holds at least two entries, each entry has
    the next one among its neighbours, and every entry is a registered
    node. *)
Theorem hasCycle_returns_a_cycle (g : Graph.t) (c : list string) :
  Graph.hasCycle g = Some c →
  is_path g c ∧
  (∃ n mid, c = n :: mid ++ [n]) ∧
  (∀ x, x ∈ c → x ∈ Graph.getNodes g).
Proof.
unfold Graph.hasCycle, Graph.hasCycle_fuel.
destruct (Graph.firstCycle _ _ _) as [[r st]|] eqn:Hrun; [|done]. intros ->.
apply (firstCycle_closed_path g _ (detectCycleUtil_None_stack g _)
         (detectCycleUtil_closed_path g _)) in Hrun as [Hpath (n & mid & ->)].
- split; [done|]. split; [by eexists _, _|].
  intros x Hx. apply list_elem_of_lookup in Hx as [i Hi].
  destruct (decide (S i < length (n :: mid ++ [n]))%nat) as [Hlt|Hge].
  + destruct (lookup_lt_is_Some_2 (n :: mid ++ [n]) (S i) Hlt) as [y Hy].
    destruct (Hpath i x y Hi Hy) as (ns & Hget & _). by apply (get_Some_key g x ns).
  + assert (x = n) as ->.
    { apply lookup_lt_Some in Hi as Hlen. simpl in Hlen, Hge.
      rewrite length_app in Hlen, Hge. simpl in Hlen, Hge.
      destruct i as [|i]; [by injection Hi|]. simpl in Hi.
      rewrite lookup_app_r in Hi by lia.
      replace (i - length mid)%nat with 0%nat in Hi by lia. by injection Hi. }
    destruct (lookup_lt_is_Some_2 (n :: mid ++ [n]) 1) as [y Hy].
    { simpl. rewrite length_app. simpl. lia. }
    destruct (Hpath 0%nat n y eq_refl Hy) as (ns & Hget & _).
    by apply (get_Some_key g n ns).
- intros x _. simpl. intros i a b Ha Hb. destruct i; simpl in Hb; done.
Qed.

Lemma hasCycle_returns_a_cycle_witness :
  is_path [("a", ["b"]); ("b", ["c"]); ("c", ["b"])] ["b"; "c"; "b"] ∧
  (∃ n mid, ["b"; "c"; "b"] = n :: mid ++ [n]) ∧
  (∀ x, x ∈ ["b"; "c"; "b"] →
        x ∈ Graph.getNodes [("a", ["b"]); ("b", ["c"]); ("c", ["b"])]).
Proof.
apply (hasCycle_returns_a_cycle [("a", ["b"]); ("b", ["c"]); ("c", ["b"])]).
reflexivity.
Defined.

(** ** The cycle check of the service *)

Section VerificarCorrect.
Import FormService.
Variable grafo : list (string * list string).

Local Abbreviation E := (Graph.edge grafo).

Lemma terminado_rtc st u v :
  InvCiclo grafo st → terminado st u → rtc E u v → terminado st v.
Proof.
intros HI Hu Hr. induction Hr as [|x y z Hxy _ IH]; [done|].
apply IH. by apply (ic_closed grafo st HI x y).
Qed.

Lemma paraCada_pos (body : string → Ciclo → option (Result Ciclo))
    (good : string → Prop) (frame : gset string → Prop) :
  (∀ x st r, good x → body x st = Some r → InvCiclo grafo st →
     frame (pilhaRecursao st) → pos_ciclo grafo st [x] r) →
  ∀ xs st r, (∀ x, x ∈ xs → good x) → paraCada body xs st = Some r →
     InvCiclo grafo st → frame (pilhaRecursao st) → pos_ciclo grafo st xs r.
Proof.
intros Hb xs. induction xs as [|x xs IH]; intros st r Hgood H HI Hfr; simpl in H.
- injection H as <-. simpl. split; [done|]. split; [done|]. split; [|done].
  intros n Hn. by apply elem_of_nil in Hn.
- destruct (body x st) as [[e|st1]|] eqn:Hx; [| |done].
  + injection H as <-. apply (Hb x st (inl e)); try done.
    apply Hgood. apply elem_of_cons. by left.
  + assert (Hx1 : pos_ciclo grafo st [x] (inr st1)).
    { apply (Hb x st); try done. apply Hgood. apply elem_of_cons. by left. }
    simpl in Hx1. destruct Hx1 as (Hp & Hv & Hfin & HI1).
    assert (Hrest : pos_ciclo grafo st1 xs r).
    { apply IH; try done.
      - intros y Hy. apply Hgood. apply elem_of_cons. by right.
      - by rewrite Hp. }
    destruct r as [e|st2]; simpl in *; [done|].
    destruct Hrest as (Hp2 & Hv2 & Hfin2 & HI2).
    split; [congruence|]. split; [set_solver|]. split; [|done].
    intros n Hn. apply elem_of_cons in Hn as [->|Hn]; [|by apply Hfin2].
    destruct (Hfin x) as [Hxv Hxs]; [apply elem_of_cons; by left|].
    split; [set_solver|]. by rewrite Hp2.
Qed.

Lemma detectarCiclo_pos fuel :
  ∀ no st r, detectarCiclo fuel grafo no st = Some r →
    no ∉ visitados st → InvCiclo grafo st →
    (∀ x, x ∈ pilhaRecursao st → tc E x no) →
    pos_ciclo grafo st [no] r.
Proof.
induction fuel as [|fuel IH]; intros no st r H Hno HI Hpath; simpl in H; [done|].
set (st1 := mkCiclo ({[no]} ∪ visitados st) ({[no]} ∪ pilhaRecursao st)) in *.
assert (HnoP : no ∉ pilhaRecursao st).
{ intros Hin. apply Hno. by apply (ic_pilha grafo st HI). }
assert (HI1 : InvCiclo grafo st1).
{ split; unfold terminado; subst st1; simpl.
  - pose proof (ic_pilha grafo st HI). set_solver.
  - intros u v [Hu Hn] Huv.
    assert (Hfu : terminado st u) by (split; set_solver).
    destruct (ic_closed grafo st HI u v Hfu Huv) as [Hv1 Hv2].
    split; [set_solver|]. set_solver.
  - intros u [Hu Hn]. apply (ic_nocycle grafo st HI). split; set_solver. }
set (body := λ (vizinho : string) (st0 : Ciclo), _) in H.
assert (Hbody : ∀ x s r0, E no x → body x s = Some r0 → InvCiclo grafo s →
          (no ∈ pilhaRecursao s ∧ ∀ y, y ∈ pilhaRecursao s → y = no ∨ tc E y no) →
          pos_ciclo grafo s [x] r0).
{ intros x s r0 Hedge Hx HIs [HnoS HpathS]. subst body; simpl in Hx.
  assert (Hreach : ∀ y, y ∈ pilhaRecursao s → tc E y x).
  { intros y Hy. destruct (HpathS y Hy) as [->|Hy'].
    - by apply tc_once.
    - eapply tc_r; done. }
  destruct (bool_decide (x ∈ visitados s)) eqn:Hvis; simpl in Hx.
  - apply bool_decide_eq_true in Hvis.
    destruct (bool_decide (x ∈ pilhaRecursao s)) eqn:Hstk.
    + apply bool_decide_eq_true in Hstk. injection Hx as <-. simpl.
      exists x. split; [done|]. by apply Hreach.
    + apply bool_decide_eq_false in Hstk. injection Hx as <-. simpl.
      split; [done|]. split; [done|]. split; [|done].
      intros n Hn. apply list_elem_of_singleton in Hn as ->. by split.
  - apply bool_decide_eq_false in Hvis. by apply (IH x s r0 Hx). }
destruct (paraCada body (default [] (Graph.get grafo no)) st1) as [r1|] eqn:Hloop; [|done].
apply (paraCada_pos body (λ x, E no x)
         (λ P, no ∈ P ∧ ∀ y, y ∈ P → y = no ∨ tc E y no)) in Hloop; cycle 1.
{ intros x s r0 Hg Hx HIs Hfr. by apply Hbody. }
{ intros x Hx. destruct (Graph.get grafo no) as [ns|] eqn:Hget; simpl in Hx.
  - by exists ns.
  - by apply elem_of_nil in Hx. }
{ done. }
{ subst st1; simpl. split; [set_solver|]. intros y Hy.
  apply elem_of_union in Hy as [Hy|Hy]; [left; set_solver|right; by apply Hpath]. }
destruct r1 as [e|st2]; injection H as <-; [exact Hloop|].
simpl in Hloop. destruct Hloop as (Hp & Hv & Hfin & HI2). simpl.
assert (HP2 : pilhaRecursao st2 ∖ {[no]} = pilhaRecursao st).
{ rewrite Hp. subst st1; simpl. set_solver. }
rewrite HP2.
assert (Hno2 : no ∈ visitados st2) by (subst st1; simpl in *; set_solver).
assert (Hlift : ∀ u, u ∈ visitados st2 → u ∉ pilhaRecursao st → u ≠ no → terminado st2 u).
{ intros u Hu Hn Hne. split; [done|]. rewrite Hp. subst st1; simpl. set_solver. }
assert (Hdrop : ∀ v, terminado st2 v → v ∈ visitados st2 ∧ v ∉ pilhaRecursao st).
{ intros v [Hv1 Hv2]. split; [done|]. rewrite Hp in Hv2. subst st1; simpl in Hv2.
  set_solver. }
assert (Hnbr : ∀ v, E no v → terminado st2 v).
{ intros v (ns & Hget & Hv'). apply Hfin. by rewrite Hget. }
split; [done|]. split; [subst st1; simpl in *; set_solver|]. split.
{ intros n Hn. apply list_elem_of_singleton in Hn as ->. by split. }
split; unfold terminado; simpl.
- pose proof (ic_pilha grafo st HI). subst st1; simpl in *. set_solver.
- intros u v [Hu Hn] Huv. apply Hdrop.
  destruct (decide (u = no)) as [->|Hne]; [by apply Hnbr|].
  apply (ic_closed grafo st2 HI2 u v); [by apply Hlift|done].
- intros u [Hu Hn] Hcyc.
  destruct (decide (u = no)) as [->|Hne].
  + apply tc_first_step in Hcyc as (v & Hnv & Hvn).
    pose proof (terminado_rtc st2 v no HI2 (Hnbr v Hnv) Hvn) as [_ Hbad].
    apply Hbad. rewrite Hp. subst st1; simpl. set_solver.
  + by apply (ic_nocycle grafo st2 HI2 u (Hlift u Hu Hn Hne)).
Qed.

Lemma verificar_loop_pos fuel r :
  paraCada
    (λ no st,
       if negb (bool_decide (no ∈ visitados st))
       then detectarCiclo fuel grafo no st
       else Some (inr st))
    (grafo.*1) (mkCiclo ∅ ∅) = Some r →
  match r with
  | inl e => ∃ c, e = Dependencia_circular c ∧ tc E c c
  | inr _ => Graph.acyclic grafo
  end.
Proof.
intros H.
apply (paraCada_pos _ (λ _, True) (λ P, P = ∅)) in H; try done.
- destruct r as [e|st']; simpl in H; [done|].
  destruct H as (Hp & _ & Hfin & HI). simpl in Hp.
  intros u Hu. apply (ic_nocycle grafo st' HI u); [|done].
  apply Hfin. apply tc_first_step in Hu as (z & (ns & Hget & _) & _).
  by apply (get_Some_key grafo u ns).
- intros x st r0 _ Hx HI Hfr.
  destruct (bool_decide (x ∈ visitados st)) eqn:Hvis; simpl in Hx.
  + apply bool_decide_eq_true in Hvis. injection Hx as <-. simpl.
    split; [done|]. split; [done|]. split; [|done].
    intros n Hn. apply list_elem_of_singleton in Hn as ->. split; [done|].
    rewrite Hfr. set_solver.
  + apply bool_decide_eq_false in Hvis. apply (detectarCiclo_pos fuel x st r0 Hx Hvis HI).
    intros y Hy. rewrite Hfr in Hy. set_solver.
- split; unfold terminado; simpl; set_solver.
Qed.

End VerificarCorrect.

(** X5. [verificarDependenciasCirculares] accepts a field list exactly when
    no field id depends on itself through the [dependencias] lists (as the
    map built from the list holds them), directly or through other fields;
    when it throws, the error names a field id that lies on such a cycle. A
    dependency on an id that is no field of the list is accepted. *)
Theorem verificarDependenciasCirculares_correct (campos : list Field.t) :
  (FormService.verificarDependenciasCirculares campos = inr tt ↔
     Graph.acyclic (FormService.grafo_of campos)) ∧
  (∀ e, FormService.verificarDependenciasCirculares campos = inl e →
     ∃ c, e = Dependencia_circular c ∧
          tc (Graph.edge (FormService.grafo_of campos)) c c).
Proof.
unfold FormService.verificarDependenciasCirculares.
destruct (verificar_fuel_enough campos) as [r Hrun]. rewrite Hrun.
unfold FormService.verificar_fuel in Hrun.
apply verificar_loop_pos in Hrun.
destruct r as [e|st]; split.
- destruct Hrun as (c & -> & Hc). split; [done|]. intros Hac. by destruct (Hac c).
- intros e' [= <-]. done.
- done.
- done.
Qed.

Lemma get_grafo_set grafo k v u :
  Graph.get (FormService.grafo_set grafo k v) u =
    if decide (u = k) then Some v else Graph.get grafo u.
Proof.
induction grafo as [|[k' v'] rest IH]; simpl.
- destruct (decide (k = u)) as [->|]; [by rewrite decide_True|by rewrite decide_False].
- destruct (decide (k' = k)) as [->|Hk]; simpl.
  + destruct (decide (k = u)) as [->|]; [by rewrite decide_True|by rewrite decide_False].
  + destruct (decide (k' = u)) as [->|Hu]; [by rewrite decide_False|]. apply IH.
Qed.

(** X6. When several fields of a list share an id, the dependency map of the
    cycle check holds for that id the [dependencias] of the last of them
    (none counting as the empty list); ids of no field have no entry. *)
Theorem grafo_of_last_wins (campos : list Field.t) (u : string) :
  Graph.get (FormService.grafo_of campos) u =
    (λ c, default [] (Field.dependencias c))
      <$> last (filter (λ c, Field.id c = u) campos).
Proof.
unfold FormService.grafo_of.
assert (H : ∀ acc,
  Graph.get (foldl (λ grafo campo,
               FormService.grafo_set grafo (Field.id campo)
                 (default [] (Field.dependencias campo))) acc campos) u =
  match last (filter (λ c, Field.id c = u) campos) with
  | Some c => Some (default [] (Field.dependencias c))
  | None => Graph.get acc u
  end).
{ induction campos as [|c cs IH]; intros acc; simpl; [done|].
  rewrite IH, get_grafo_set, filter_cons.
  destruct (decide (Field.id c = u)) as [Hc|Hc].
  - rewrite decide_True by done. rewrite last_cons.
    by destruct (last (filter _ cs)).
  - rewrite decide_False by done. done. }
rewrite H. by destruct (last _).
Qed.

(** ** Conditional expressions *)

Lemma split_no_sep sep s :
  sep ∉ String.list_ascii_of_string s → FormService.split sep s = [s].
Proof.
induction s as [|c s IH]; simpl; intros H; [done|].
apply not_elem_of_cons in H as [Hc Hs].
rewrite bool_decide_eq_false_2 by done. by rewrite (IH Hs).
Qed.

Lemma split_app_sep sep a rest :
  sep ∉ String.list_ascii_of_string a →
  FormService.split sep (a +:+ String sep rest) = a :: FormService.split sep rest.
Proof.
induction a as [|c a IH]; simpl; intros H.
- by rewrite bool_decide_eq_true_2.
- apply not_elem_of_cons in H as [Hc Ha].
  rewrite bool_decide_eq_false_2 by done. by rewrite (IH Ha).
Qed.

Lemma split_not_nil sep s : FormService.split sep s ≠ [].
Proof.
destruct s as [|c s]; simpl; [done|].
destruct (bool_decide (c = sep)); [done|]. by destruct (FormService.split sep s).
Qed.

(** X7. [split] loses nothing: joining the parts with the separator gives
    the string back; there is always at least one part and no part contains
    the separator. *)
Theorem split_concat (sep : ascii) (s : string) :
  String.concat (String sep "") (FormService.split sep s) = s ∧
  FormService.split sep s ≠ [] ∧
  (∀ part, part ∈ FormService.split sep s →
     sep ∉ String.list_ascii_of_string part).
Proof.
split; [|split; [apply split_not_nil|]].
- induction s as [|c s IH]; simpl; [done|].
  destruct (bool_decide (c = sep)) eqn:Hc.
  + apply bool_decide_eq_true in Hc as ->.
    pose proof (split_not_nil sep s) as Hne.
    destruct (FormService.split sep s) as [|p ps] eqn:Hs; [done|].
    simpl. simpl in IH. by rewrite IH.
  + pose proof (split_not_nil sep s) as Hne.
    destruct (FormService.split sep s) as [|p ps] eqn:Hs; [done|].
    destruct ps as [|q qs]; simpl in *.
    all: by rewrite <- IH.
- induction s as [|c s IH]; simpl; intros part Hp.
  + apply list_elem_of_singleton in Hp as ->. simpl. apply not_elem_of_nil.
  + destruct (bool_decide (c = sep)) eqn:Hc.
    * apply elem_of_cons in Hp as [->|Hp]; [simpl; apply not_elem_of_nil|by apply IH].
    * apply bool_decide_eq_false in Hc.
      destruct (FormService.split sep s) as [|p ps] eqn:Hs.
      -- apply list_elem_of_singleton in Hp as ->. simpl.
         apply not_elem_of_cons. split; [done|apply not_elem_of_nil].
      -- apply elem_of_cons in Hp as [->|Hp].
         ++ simpl. apply not_elem_of_cons. split; [done|].
            apply IH. apply elem_of_cons. by left.
         ++ apply IH. apply elem_of_cons. by right.
Qed.

(** X8. The conditional language is [campo=valor] and nothing else. For a
    field name [a] without [=]: [a=b] holds exactly when the submitted value
    under [a] is the string [b] (a number or boolean answer never matches);
    an expression written with [==] or [===] is rejected whatever follows,
    and so is one with no [=] at all. *)
Theorem avaliarCondicional_shape (a : string) (valores : gmap string Value) :
  sem_igual a →
  (∀ b, a ≠ "" → b ≠ "" → sem_igual b →
     ∃ r, FormService.avaliarCondicional (a +:+ "=" +:+ b) valores = inr r ∧
          (r = true ↔ valores !! a = Some (VString b))) ∧
  (∀ rest, FormService.avaliarCondicional (a +:+ "==" +:+ rest) valores =
             inl (Expressao_condicional_invalida (a +:+ "==" +:+ rest))) ∧
  FormService.avaliarCondicional a valores = inl (Expressao_condicional_invalida a).
Proof.
intros Ha. split; [|split].
- intros b Hane Hbne Hb.
  unfold FormService.avaliarCondicional.
  change (a +:+ "=" +:+ b) with (a +:+ String "="%char b).
  rewrite (split_app_sep _ _ _ Ha), (split_no_sep _ _ Hb). simpl.
  rewrite !bool_decide_eq_false_2 by done. simpl.
  eexists. split; [reflexivity|].
  unfold Calculator.prop, FormService.strict_equal_string.
  destruct (valores !! a) as [[]|]; simpl; try (split; [done|by intros [=]]).
  + rewrite bool_decide_eq_true. split; [by intros ->|by intros [= ->]].
  + unfold inherited. by repeat case_match.
- intros rest.
  unfold FormService.avaliarCondicional.
  change (a +:+ "==" +:+ rest) with (a +:+ String "="%char (String "="%char rest)).
  rewrite (split_app_sep _ _ _ Ha). simpl.
  by rewrite orb_true_r.
- unfold FormService.avaliarCondicional.
  rewrite (split_no_sep _ _ Ha). simpl. by rewrite orb_true_r.
Qed.

Lemma avaliarCondicional_shape_witness :
  ∃ r, FormService.avaliarCondicional "sexo=feminino" {["sexo" := VString "feminino"]} = inr r ∧
       (r = true ↔
        ({["sexo" := VString "feminino"]} : gmap string Value) !! "sexo"
          = Some (VString "feminino")).
Proof.
assert (Hs : ∀ s, bool_decide ("="%char ∈ String.list_ascii_of_string s) = false →
             sem_igual s).
{ intros s H. by apply bool_decide_eq_false in H. }
apply (proj1 (avaliarCondicional_shape "sexo" _ (Hs "sexo" eq_refl)) "feminino");
  [done|done|by apply Hs].
Defined.

Section SubmissionValidation.
Variable B : Builtins.

(** X9. The validation pass of a submission accepts exactly when every
    non-calculated field either has its conditional evaluate to false, or,
    the conditional holding or being absent, has its submitted value pass
    the field validator; calculated fields play no part, and an invalid
    conditional rejects. *)
Theorem validarRespostas_accepts (campos : list Field.t) (respostas : gmap string Value) :
  FormService.validarRespostas B campos respostas = inr tt ↔
  ∀ c, c ∈ campos → FormService.is_calculated c = false →
    if truthy_string (Field.condicional c)
    then ∃ b, FormService.avaliarCondicional
                (default "" (Field.condicional c)) respostas = inr b ∧
              (b = true →
               FieldValidator.validate B (Calculator.prop respostas (Field.id c)) c = inr tt)
    else FieldValidator.validate B (Calculator.prop respostas (Field.id c)) c = inr tt.
Proof.
induction campos as [|c cs IH]; simpl.
- split; [|done]. intros _ c Hc. by apply elem_of_nil in Hc.
- destruct (FormService.is_calculated c) eqn:Hcalc.
  + rewrite IH. split.
    * intros H c' [->|Hc']%elem_of_cons Hn; [congruence|by apply H].
    * intros H c' Hc'. apply H. by right.
  + split.
    * intros H c' [->|Hc']%elem_of_cons Hn.
      -- destruct (truthy_string (Field.condicional c)); simpl in H.
         ++ destruct (FormService.avaliarCondicional _ respostas) as [e|b]; [done|].
            simpl in H. exists b. split; [done|]. intros ->. simpl in H.
            by destruct (FieldValidator.validate B _ c) as [e|[]].
         ++ by destruct (FieldValidator.validate B _ c) as [e|[]].
      -- revert c' Hc' Hn. apply IH.
         destruct (truthy_string (Field.condicional c)); simpl in H.
         ++ destruct (FormService.avaliarCondicional _ respostas) as [e|b]; [done|].
            simpl in H. destruct b; simpl in H; [|done].
            by destruct (FieldValidator.validate B _ c) as [e|[]].
         ++ by destruct (FieldValidator.validate B _ c) as [e|[]].
    * intros H.
      assert (Hcs : FormService.validarRespostas B cs respostas = inr tt).
      { apply IH. intros c' Hc'. apply H. by right. }
      specialize (H c (list_elem_of_here _ _) Hcalc).
      destruct (truthy_string (Field.condicional c)); simpl.
      -- destruct H as (b & -> & Hb). simpl. destruct b; simpl; [|done].
         by rewrite Hb.
      -- by rewrite H.
Qed.

End SubmissionValidation.

(** ** What the field validator accepts *)

Section ValidatorMore.
Import Zod FieldValidator.
Variable B : Builtins.

Lemma truthy_bool_Some (o : option bool) : truthy_bool o = true → o = Some true.
Proof. by destruct o as [[|]|]. Qed.

(** On an optional schema every numeric rule is a call of a method that
    [ZodOptional] does not have. *)
Lemma number_rule_optional s v :
  if regra_numerica v
  then ∃ m, number_rule (ZodOptional s) v = inl (TypeError_not_a_function m)
  else number_rule (ZodOptional s) v = inr (ZodOptional s).
Proof.
unfold regra_numerica, number_rule.
destruct (v_valor v) as [| | |q| | | | |]; simpl; try done.
destruct (bool_decide (v_tipo v = "minimo")); simpl; [by eexists|].
destruct (bool_decide (v_tipo v = "maximo")); simpl; [by eexists|done].
Qed.

Lemma number_rules_optional vs : ∀ s,
  if forallb (λ v, negb (regra_numerica v)) vs
  then number_rules (ZodOptional s) vs = inr (ZodOptional s)
  else ∃ m, number_rules (ZodOptional s) vs = inl (TypeError_not_a_function m).
Proof.
induction vs as [|v vs IH]; intros s; simpl; [done|].
pose proof (number_rule_optional s v) as H.
destruct (regra_numerica v); simpl.
- destruct H as [m ->]. by eexists.
- rewrite H. simpl. apply IH.
Qed.

Lemma applyTextValidations_optional s field :
  if regra_texto field
  then ∃ m, applyTextValidations (ZodOptional s) field = inl (TypeError_not_a_function m)
  else applyTextValidations (ZodOptional s) field = inr (ZodOptional s).
Proof.
unfold regra_texto, applyTextValidations.
destruct (find_validacao field "tamanho_minimo") as [v|]; simpl.
- destruct (v_valor v) as [| | |q| | | | |]; simpl;
    try destruct (negb (Q_is_zero q)); simpl; try (by eexists);
    destruct (find_validacao field "regex") as [r|]; simpl; try done;
    destruct (v_valor r); simpl; try done; by eexists.
- destruct (find_validacao field "regex") as [r|]; simpl; try done;
    destruct (v_valor r); simpl; try done; by eexists.
Qed.

Lemma applyNumberValidations_optional s field :
  if negb (formato_inteiro field) &&
     forallb (λ v, negb (regra_numerica v)) (default [] (Field.validacoes field))
  then applyNumberValidations (ZodOptional s) field = inr (ZodOptional s)
  else ∃ m, applyNumberValidations (ZodOptional s) field
              = inl (TypeError_not_a_function m).
Proof.
unfold formato_inteiro, applyNumberValidations.
destruct (Field.formato field) as [[|]|]; simpl; [by eexists| |];
  apply number_rules_optional.
Qed.

Lemma validate_definition field :
  validate B VUndefined field = inr tt ↔ definicao_aceita field = true.
Proof.
unfold definicao_aceita.
destruct (Field.tipo field) eqn:Hk.
- destruct (truthy_bool (Field.obrigatorio field)) eqn:Ho; simpl.
  + rewrite validate_required_undefined; [done|by apply truthy_bool_Some|].
    rewrite Hk. set_solver.
  + unfold validate, getValidator. rewrite Hk, Ho. simpl.
    pose proof (applyTextValidations_optional (ZodString []) field) as H.
    destruct (regra_texto field); simpl.
    * destruct H as [m ->]. done.
    * by rewrite H.
- destruct (truthy_bool (Field.obrigatorio field)) eqn:Ho; simpl.
  + rewrite validate_required_undefined; [done|by apply truthy_bool_Some|].
    rewrite Hk. set_solver.
  + unfold validate, getValidator. rewrite Hk, Ho. simpl.
    pose proof (applyNumberValidations_optional (ZodNumber []) field) as H.
    destruct (negb (formato_inteiro field) && _); simpl.
    * by rewrite H.
    * destruct H as [m ->]. done.
- destruct (truthy_bool (Field.obrigatorio field)) eqn:Ho; simpl.
  + rewrite validate_required_undefined; [done|by apply truthy_bool_Some|].
    rewrite Hk. set_solver.
  + unfold validate, getValidator. rewrite Hk, Ho. done.
- destruct (truthy_bool (Field.obrigatorio field)) eqn:Ho; simpl.
  + rewrite validate_required_undefined; [done|by apply truthy_bool_Some|].
    rewrite Hk. set_solver.
  + unfold validate, getValidator, applySelectValidations. rewrite Hk, Ho. simpl.
    by destruct (truthy_bool (Field.multipla field)).
- destruct (truthy_bool (Field.obrigatorio field)) eqn:Ho; simpl.
  + rewrite validate_required_undefined; [done|by apply truthy_bool_Some|].
    rewrite Hk. set_solver.
  + unfold validate, getValidator, applyDateValidations. rewrite Hk, Ho. simpl.
    by destruct (truthy_string (Field.minima field)),
               (truthy_string (Field.maxima field)).
- rewrite (validate_calculated B _ _ Hk). simpl.
  destruct (truthy_string (Field.formula field)); simpl; [|done].
  by destruct (bool_decide (is_Some (Field.dependencias field))).
- unfold validate, getValidator. rewrite Hk. done.
Qed.

End ValidatorMore.

(** X10. Which field definitions can be part of a form. Definition-level
    validation hands [undefined] to every field's validator, so it accepts a
    list of fields exactly when each one is an optional boolean or date
    field, an optional text field whose rules trigger no [.min] or [.regex],
    an optional number field without [formato: inteiro] and without numeric
    [minimo] or [maximo] rule, or a calculated field with a formula and
    dependencies. Every [select] field, every required input field and every
    field of another kind is refused; the library functions play no part. *)
Theorem validarCampos_accepts (B : Builtins) (campos : list Field.t) :
  FormService.validarCampos B campos = inr tt ↔
  ∀ c, c ∈ campos → definicao_aceita c = true.
Proof.
induction campos as [|c cs IH]; simpl.
- split; [|done]. intros _ c Hc. by apply elem_of_nil in Hc.
- destruct (FieldValidator.validate B VUndefined c) as [e|[]] eqn:Hv; simpl.
  + split; [done|]. intros H.
    assert (Hc : definicao_aceita c = true) by (apply H; by left).
    apply (validate_definition B) in Hc. congruence.
  + rewrite IH. apply (validate_definition B) in Hv. split.
    * by intros H c' [->|Hc']%elem_of_cons; [|apply H].
    * intros H c' Hc'. apply H. by right.
Qed.

Section ValidatorValues.
Import Zod FieldValidator.
Variable B : Builtins.

Lemma number_rules_checks vs : ∀ cs,
  ∃ cs', number_rules (ZodNumber cs) vs = inr (ZodNumber (cs ++ cs')) ∧
    ∀ q, concat (map (run_number_check q) cs') = [] ↔
         ∀ r x, r ∈ vs → v_valor r = VNumber x →
           (v_tipo r = "minimo" → Qle_bool x q = true) ∧
           (v_tipo r = "maximo" → Qle_bool q x = true).
Proof.
induction vs as [|v vs IH]; intros cs.
- exists []. rewrite app_nil_r. split; [done|]. intros q. split; [|done].
  intros _ r x Hr. by apply elem_of_nil in Hr.
- simpl. unfold number_rule.
  destruct (v_valor v) as [| | |x0| | | | |] eqn:Hval; simpl;
    try (destruct (IH cs) as (cs' & -> & Hcs'); exists cs'; split; [done|];
         intros q; rewrite Hcs'; split;
         [intros H r x [->|Hr]%elem_of_cons Hx; [congruence|by apply H]
         |intros H r x Hr; apply H; by right]).
  destruct (bool_decide (v_tipo v = "minimo")) eqn:Hmin;
    destruct (bool_decide (v_tipo v = "maximo")) eqn:Hmax; simpl.
  + apply bool_decide_eq_true in Hmin. apply bool_decide_eq_true in Hmax. congruence.
  + apply bool_decide_eq_true in Hmin. apply bool_decide_eq_false in Hmax.
    destruct (IH (cs ++ [num_min x0
                (mensagem_or v (Template "Valor mínimo é " (VNumber x0)))]))
      as (cs' & -> & Hcs').
    eexists (_ :: cs'). split; [by rewrite <- app_assoc|].
    intros q. simpl. destruct (Qle_bool x0 q) eqn:Hle; simpl.
    * rewrite Hcs'. split.
      -- intros H r x [->|Hr]%elem_of_cons Hx; [|by apply H].
         split; [|done]. intros _. congruence.
      -- intros H r x Hr. apply H. by right.
    * split; [done|]. intros H.
      destruct (H v x0 (list_elem_of_here _ _) Hval) as [H1 _].
      specialize (H1 Hmin). congruence.
  + apply bool_decide_eq_false in Hmin. apply bool_decide_eq_true in Hmax.
    destruct (IH (cs ++ [num_max x0
                (mensagem_or v (Template "Valor máximo é " (VNumber x0)))]))
      as (cs' & -> & Hcs').
    eexists (_ :: cs'). split; [by rewrite <- app_assoc|].
    intros q. simpl. destruct (Qle_bool q x0) eqn:Hle; simpl.
    * rewrite Hcs'. split.
      -- intros H r x [->|Hr]%elem_of_cons Hx; [|by apply H].
         split; [done|]. intros _. congruence.
      -- intros H r x Hr. apply H. by right.
    * split; [done|]. intros H.
      destruct (H v x0 (list_elem_of_here _ _) Hval) as [_ H1].
      specialize (H1 Hmax). congruence.
  + apply bool_decide_eq_false in Hmin. apply bool_decide_eq_false in Hmax.
    destruct (IH cs) as (cs' & -> & Hcs'). exists cs'. split; [done|].
    intros q. rewrite Hcs'. split.
    * intros H r x [->|Hr]%elem_of_cons Hx; [done|by apply H].
    * intros H r x Hr. apply H. by right.
Qed.

Lemma of_issues_valid (issues : list ZodIssue) :
  match issues with [] => valid | _ :: _ => dirty end = valid ↔ issues = [].
Proof. by destruct issues. Qed.

Lemma parseAsync_valid schema v :
  parseAsync B schema v = inr tt ↔ (_parse B schema v).1 = valid.
Proof. unfold parseAsync. by destruct (_parse B schema v) as [[| |] issues]. Qed.

End ValidatorValues.

(** X11. A required number field accepts exactly the numbers that are
    integers when [formato] is [inteiro] and that satisfy every numeric
    [minimo] and [maximo] rule of the field, bounds included. All rules
    count, also several of the same kind and a bound of zero; a rule whose
    [valor] is not a number is ignored. *)
Theorem validate_required_number (B : Builtins) (field : Field.t) (value : Value) :
  Field.tipo field = number → truthy_bool (Field.obrigatorio field) = true →
  (FieldValidator.validate B value field = inr tt ↔
   ∃ q, value = VNumber q ∧
     (formato_inteiro field = true → Zod.Q_is_integer q = true) ∧
     ∀ r x, r ∈ default [] (Field.validacoes field) → v_valor r = VNumber x →
       (v_tipo r = "minimo" → Qle_bool x q = true) ∧
       (v_tipo r = "maximo" → Qle_bool q x = true)).
Proof.
intros Hk Ho.
unfold FieldValidator.validate, FieldValidator.getValidator. rewrite Hk, Ho. simpl.
unfold FieldValidator.applyNumberValidations, formato_inteiro.
destruct (Field.formato field) as [[|]|]; simpl.
- destruct (number_rules_checks (default [] (Field.validacoes field)) [Zod.num_int])
    as (cs' & -> & Hcs'). simpl.
  rewrite parseAsync_valid. destruct value as [| | |q| | | | |]; simpl;
    try (split; [done|by intros (q' & [=] & _)]).
  destruct (Zod.Q_is_integer q) eqn:Hq; simpl.
  + rewrite of_issues_valid, Hcs'. split.
    * intros H. exists q. by repeat split; try apply H.
    * by intros (q' & [= <-] & _ & H).
  + split; [done|]. intros (q' & [= <-] & H & _). specialize (H eq_refl). congruence.
- destruct (number_rules_checks (default [] (Field.validacoes field)) [])
    as (cs' & -> & Hcs'). simpl.
  rewrite parseAsync_valid. destruct value as [| | |q| | | | |]; simpl;
    try (split; [done|by intros (q' & [=] & _)]).
  rewrite of_issues_valid, Hcs'. split.
  + intros H. exists q. by repeat split; try apply H.
  + by intros (q' & [= <-] & _ & H).
- destruct (number_rules_checks (default [] (Field.validacoes field)) [])
    as (cs' & -> & Hcs'). simpl.
  rewrite parseAsync_valid. destruct value as [| | |q| | | | |]; simpl;
    try (split; [done|by intros (q' & [=] & _)]).
  rewrite of_issues_valid, Hcs'. split.
  + intros H. exists q. by repeat split; try apply H.
  + by intros (q' & [= <-] & _ & H).
Qed.

Lemma validate_required_number_witness :
  FieldValidator.validate example_builtins (VNumber 20) (campo_idade (Some true)) = inr tt ↔
  ∃ q, VNumber 20 = VNumber q ∧
    (formato_inteiro (campo_idade (Some true)) = true → Zod.Q_is_integer q = true) ∧
    ∀ r x, r ∈ default [] (Field.validacoes (campo_idade (Some true))) →
      v_valor r = VNumber x →
      (v_tipo r = "minimo" → Qle_bool x q = true) ∧
      (v_tipo r = "maximo" → Qle_bool q x = true).
Proof.
apply (validate_required_number example_builtins (campo_idade (Some true)) (VNumber 20));
  reflexivity.
Defined.

Lemma applyTextValidations_checks (B : Builtins) (field : Field.t) :
  ∃ cs, FieldValidator.applyTextValidations (Zod.ZodString []) field
          = inr (Zod.ZodString cs) ∧
    ∀ s, concat (map (Zod.run_string_check B s) cs) = [] ↔
      (∀ r q, FieldValidator.find_validacao field "tamanho_minimo" = Some r →
         v_valor r = VNumber q → Q_is_zero q = false →
         Qle_bool q (inject_Z (Z.of_nat (js_length s))) = true) ∧
      (∀ r source, FieldValidator.find_validacao field "regex" = Some r →
         v_valor r = VRegExp source → regexp_test B source s = true).
Proof.
unfold FieldValidator.applyTextValidations.
destruct (FieldValidator.find_validacao field "tamanho_minimo") as [r1|];
  [destruct (v_valor r1) as [| | |q1| | | | |] eqn:Hv1|];
  simpl; try (destruct (Q_is_zero q1) eqn:Hz; simpl);
  (destruct (FieldValidator.find_validacao field "regex") as [r2|];
   [destruct (v_valor r2) as [| | | | | |src2| |] eqn:Hv2|]);
  simpl; (eexists; split; [reflexivity|]); intros str; simpl;
  try destruct (Qle_bool q1 _) eqn:Hle; simpl;
  try destruct (regexp_test B src2 str) eqn:Hre; simpl;
  (split;
   [try done; (intros _; split;
      [intros r' q' [= <-] Hq Hz'; congruence || done
      |intros r' source' [= <-] Hs; congruence || done])
   |try done; intros [Hmin Hrx];
      try (specialize (Hmin _ _ eq_refl Hv1 Hz); congruence);
      try (specialize (Hrx _ _ eq_refl Hv2); congruence)]).
Qed.

(** X12. A required text field accepts exactly the strings whose [length],
    counted in UTF-16 code units, is at least what the first
    [tamanho_minimo] rule asks, when its [valor] is a number other than
    zero, and that match the first [regex] rule, when its [valor] is a
    regular expression. Later rules of the same kind are never looked at,
    and a minimum of zero is no rule. *)
Theorem validate_required_text (B : Builtins) (field : Field.t) (value : Value) :
  Field.tipo field = text → truthy_bool (Field.obrigatorio field) = true →
  (FieldValidator.validate B value field = inr tt ↔
   ∃ s, value = VString s ∧
     (∀ r q, FieldValidator.find_validacao field "tamanho_minimo" = Some r →
        v_valor r = VNumber q → Q_is_zero q = false →
        Qle_bool q (inject_Z (Z.of_nat (js_length s))) = true) ∧
     (∀ r source, FieldValidator.find_validacao field "regex" = Some r →
        v_valor r = VRegExp source → regexp_test B source s = true)).
Proof.
intros Hk Ho.
unfold FieldValidator.validate, FieldValidator.getValidator. rewrite Hk, Ho. simpl.
destruct (applyTextValidations_checks B field) as (cs & -> & Hcs). simpl.
rewrite parseAsync_valid. destruct value as [| | | |s| | | |]; simpl;
  try (split; [done|by intros (s' & [=] & _)]).
rewrite of_issues_valid, Hcs. split.
- intros H. by exists s.
- by intros (s' & [= <-] & H).
Qed.

Lemma validate_required_text_witness :
  FieldValidator.validate example_builtins (VString "ação") (campo_nome (Some true)) = inr tt ↔
  ∃ s, VString "ação" = VString s ∧
    (∀ r q, FieldValidator.find_validacao (campo_nome (Some true)) "tamanho_minimo" = Some r →
       v_valor r = VNumber q → Q_is_zero q = false →
       Qle_bool q (inject_Z (Z.of_nat (js_length s))) = true) ∧
    (∀ r source, FieldValidator.find_validacao (campo_nome (Some true)) "regex" = Some r →
       v_valor r = VRegExp source → regexp_test example_builtins source s = true).
Proof.
apply (validate_required_text example_builtins (campo_nome (Some true)) (VString "ação"));
  reflexivity.
Defined.

Lemma parse_array_of_strings (B : Builtins) (options : list string) (vs : list Value) :
  forallb (FieldValidator.includes options) vs = true →
  foldr Zod.merge Zod.valid (map fst (map (Zod._parse B (Zod.ZodString [])) vs))
    = Zod.valid.
Proof.
induction vs as [|v vs IH]; simpl in *; [done|].
intros [Hv Hvs]%andb_prop. rewrite (IH Hvs). by destruct v.
Qed.

Lemma forallb_includes (options : list string) (vs : list Value) :
  forallb (FieldValidator.includes options) vs = true ↔
  ∀ x, x ∈ vs → ∃ s, x = VString s ∧ s ∈ options.
Proof.
induction vs as [|v vs IH]; simpl.
- split; [|done]. intros _ x Hx. by apply elem_of_nil in Hx.
- rewrite andb_true_iff, IH. split.
  + intros [Hv H] x [->|Hx]%elem_of_cons; [|by apply H].
    destruct v; try done. apply bool_decide_eq_true in Hv. eauto.
  + intros H. split; [|intros x Hx; apply H; by right].
    destruct (H v (list_elem_of_here _ _)) as (s & -> & Hs).
    by apply bool_decide_eq_true.
Qed.

(** X13. A [select] field accepts a value only by its options, required or
    not: a single select accepts exactly the strings that are the [value]
    of one of its options, so an omitted answer is rejected even when the
    field is optional; a multiple select accepts exactly the arrays all of
    whose elements are such strings, the empty array included, and ignores
    [obrigatorio]. *)
Theorem validate_select (B : Builtins) (field : Field.t) (value : Value) :
  Field.tipo field = select →
  (FieldValidator.validate B value field = inr tt ↔
   if truthy_bool (Field.multipla field)
   then ∃ vs, value = VArray vs ∧
          ∀ x, x ∈ vs → ∃ s, x = VString s ∧
                 s ∈ default [] (map o_value <$> Field.opcoes field)
   else ∃ s, value = VString s ∧
          s ∈ default [] (map o_value <$> Field.opcoes field)).
Proof.
intros Hk.
unfold FieldValidator.validate, FieldValidator.getValidator,
  FieldValidator.applySelectValidations.
rewrite Hk. simpl.
set (options := default [] (map o_value <$> Field.opcoes field)).
destruct (truthy_bool (Field.multipla field)).
- rewrite parseAsync_valid.
  destruct value as [| | | | |vs| | |];
    try (simpl; split; [done|by intros (vs' & [=] & _)]).
  destruct (forallb (FieldValidator.includes options) vs) eqn:Hall.
  + pose proof (parse_array_of_strings B options vs Hall) as Hp.
    simpl in Hp |- *. rewrite Hp. simpl. rewrite Hall. simpl. rewrite ?Hp.
    split; [|done]. intros _. exists vs. split; [done|]. by apply forallb_includes.
  + split.
    * simpl. destruct (foldr Zod.merge _ _); simpl; rewrite ?Hall; done.
    * intros (vs' & [= <-] & H). apply forallb_includes in H. congruence.
- rewrite parseAsync_valid.
  destruct (negb (truthy_bool (Field.obrigatorio field)));
    destruct value as [| | | |s| | | |]; simpl;
    try (split; [done|by intros (s' & [=] & _)]);
    (destruct (bool_decide (s ∈ options)) eqn:Hs; simpl;
     [apply bool_decide_eq_true in Hs; split; [intros _; by exists s|done]
     |apply bool_decide_eq_false in Hs; split;
        [done|by intros (s' & [= <-] & H)]]).
Qed.

Lemma validate_select_witness :
  FieldValidator.validate example_builtins VUndefined (campo_sexo None) = inr tt ↔
  if truthy_bool (Field.multipla (campo_sexo None))
  then ∃ vs, VUndefined = VArray vs ∧
         ∀ x, x ∈ vs → ∃ s, x = VString s ∧
                s ∈ default [] (map o_value <$> Field.opcoes (campo_sexo None))
  else ∃ s, VUndefined = VString s ∧
         s ∈ default [] (map o_value <$> Field.opcoes (campo_sexo None)).
Proof.
apply (validate_select example_builtins (campo_sexo None) VUndefined). reflexivity.
Defined.

(** X14. A date field accepts the empty string whatever its bounds, and
    otherwise exactly the strings that [Date.parse] understands and that lie
    within [minima] and [maxima], bounds included; a bound that does not
    parse rejects every non-empty date. An omitted answer is accepted only
    when the field is optional, and nothing but a string otherwise. *)
Theorem validate_date (B : Builtins) (field : Field.t) (value : Value) :
  Field.tipo field = date →
  (FieldValidator.validate B value field = inr tt ↔
   (value = VUndefined ∧ truthy_bool (Field.obrigatorio field) = false) ∨
   ∃ s, value = VString s ∧
     (s = "" ∨
      ∃ t, Date_parse B s = Some t ∧
        (truthy_string (Field.minima field) = true →
         ∃ m, Date_parse B (default "" (Field.minima field)) = Some m ∧ (m ≤ t)%Z) ∧
        (truthy_string (Field.maxima field) = true →
         ∃ m, Date_parse B (default "" (Field.maxima field)) = Some m ∧ (t ≤ m)%Z))).
Proof.
intros Hk.
unfold FieldValidator.validate, FieldValidator.getValidator,
  FieldValidator.applyDateValidations.
rewrite Hk. simpl. rewrite parseAsync_valid.
destruct (truthy_bool (Field.obrigatorio field)),
  (truthy_string (Field.minima field)), (truthy_string (Field.maxima field));
  destruct value as [| | | |s| | | |]; simpl;
  try (split; [done|naive_solver]); try (split; [naive_solver|done]).
all: unfold FieldValidator.date_refinement, FieldValidator.date_ge,
       FieldValidator.date_le, FieldValidator.new_Date_of; simpl.
all: destruct (bool_decide (s = "")) eqn:He;
       [apply bool_decide_eq_true in He|apply bool_decide_eq_false in He]; simpl;
       [split; [naive_solver|done]|].
all: destruct (Date_parse B s) as [t|] eqn:Ht; simpl;
       [|split; [done|naive_solver]].
all: try (destruct (Date_parse B (default "" (Field.minima field))) as [m1|] eqn:Hm1;
            [destruct (Z.leb_spec m1 t)|]); simpl;
       try (destruct (Date_parse B (default "" (Field.maxima field))) as [m2|] eqn:Hm2;
            [destruct (Z.leb_spec t m2)|]); simpl;
       (split; [try done; (intros _; right; exists s; split; [done|]; right;
                exists t; split; [done|]; split; intros; try done; eauto)
               |try done; (intros [[[=] _]|(s' & [= <-] & [->|(t' & Ht' & H1 & H2)])];
                  try done;
                  try (destruct (H1 eq_refl) as (m & Hm & Hle));
                  try (destruct (H2 eq_refl) as (m' & Hm' & Hle'));
                  simplify_eq; lia)]).
Qed.

Lemma validate_date_witness :
  FieldValidator.validate example_builtins (VString "") (campo_data (Some "2024-01-01"))
    = inr tt ↔
  (VString "" = VUndefined ∧
   truthy_bool (Field.obrigatorio (campo_data (Some "2024-01-01"))) = false) ∨
  ∃ s, VString "" = VString s ∧
    (s = "" ∨
     ∃ t, Date_parse example_builtins s = Some t ∧
       (truthy_string (Field.minima (campo_data (Some "2024-01-01"))) = true →
        ∃ m, Date_parse example_builtins
               (default "" (Field.minima (campo_data (Some "2024-01-01")))) = Some m ∧
             (m ≤ t)%Z) ∧
       (truthy_string (Field.maxima (campo_data (Some "2024-01-01"))) = true →
        ∃ m, Date_parse example_builtins
               (default "" (Field.maxima (campo_data (Some "2024-01-01")))) = Some m ∧
             (t ≤ m)%Z)).
Proof.
apply (validate_date example_builtins (campo_data (Some "2024-01-01")) (VString "")).
reflexivity.
Defined.

(** X15. Rules on an optional text or number field break its validator: the
    schema has been wrapped by [.optional()] before [.min], [.regex], [.int]
    or [.max] is called on it, and the wrapper has none of these methods. So
    an optional text field whose first [tamanho_minimo] or [regex] rule
    applies, and an optional number field with [formato: inteiro] or any
    numeric [minimo] or [maximo] rule, reject every value, the omitted one
    included, with a [TypeError]. *)
Theorem optional_field_rule_throws (B : Builtins) (field : Field.t) :
  truthy_bool (Field.obrigatorio field) = false →
  (Field.tipo field = text ∧ regra_texto field = true) ∨
  (Field.tipo field = number ∧
   (formato_inteiro field = true ∨
    ∃ r, r ∈ default [] (Field.validacoes field) ∧ regra_numerica r = true)) →
  ∃ m, ∀ value,
    FieldValidator.validate B value field = inl (TypeError_not_a_function m).
Proof.
intros Ho [[Hk Hr]|[Hk Hr]].
- pose proof (applyTextValidations_optional (Zod.ZodString []) field) as H.
  rewrite Hr in H. destruct H as [m Hm]. exists m. intros value.
  unfold FieldValidator.validate, FieldValidator.getValidator.
  rewrite Hk, Ho. simpl. by rewrite Hm.
- pose proof (applyNumberValidations_optional (Zod.ZodNumber []) field) as H.
  assert (Hc : negb (formato_inteiro field) &&
               forallb (λ v, negb (regra_numerica v))
                 (default [] (Field.validacoes field)) = false).
  { destruct Hr as [->|(r & Hin & Hr)]; [done|].
    apply andb_false_iff. right. apply not_true_is_false. intros Hall.
    rewrite forallb_forall in Hall. apply list_elem_of_In in Hin.
    specialize (Hall r Hin). by rewrite Hr in Hall. }
  rewrite Hc in H. destruct H as [m Hm]. exists m. intros value.
  unfold FieldValidator.validate, FieldValidator.getValidator.
  rewrite Hk, Ho. simpl. by rewrite Hm.
Qed.

Lemma optional_field_rule_throws_witness :
  ∃ m, ∀ value,
    FieldValidator.validate example_builtins value (campo_nome None)
      = inl (TypeError_not_a_function m).
Proof.
apply (optional_field_rule_throws example_builtins (campo_nome None)).
- reflexivity.
- left. split; reflexivity.
Defined.

(** ** The calculator *)

Section CalculatorMore.
Variable B : Builtins.

Lemma prop_ext (v1 v2 : gmap string Value) (d : string) :
  v1 !! d = v2 !! d → Calculator.prop v1 d = Calculator.prop v2 d.
Proof. unfold Calculator.prop. by intros ->. Qed.

Lemma scope_ext (v1 v2 : gmap string Value) (deps : list string) :
  (∀ d, d ∈ deps → v1 !! d = v2 !! d) →
  ∀ acc : JsObject.t,
    foldl (λ acc dep, JsObject.set acc dep (Calculator.prop v1 dep)) acc deps =
    foldl (λ acc dep, JsObject.set acc dep (Calculator.prop v2 dep)) acc deps.
Proof.
induction deps as [|d deps IH]; intros H acc; simpl; [done|].
rewrite (prop_ext v1 v2 d) by (apply H; by left).
apply IH. intros d' Hd'. apply H. by right.
Qed.

(** The dependencies reported missing: neither an own key of the answers
    nor a name that [Object.prototype] provides. *)
Lemma missing_filter (values : gmap string Value) (deps : list string) :
  List.filter (λ dep, negb (Calculator.has_key values dep)) deps =
  filter (λ d, values !! d = None ∧ d ∉ Object_prototype) deps.
Proof.
induction deps as [|d deps IH]; simpl; [done|].
rewrite filter_cons, IH. unfold Calculator.has_key.
destruct (decide (values !! d = None ∧ d ∉ Object_prototype)) as [[Hd Hp]|Hd].
- rewrite bool_decide_eq_false_2 by (rewrite Hd; by intros [? ?]).
  by rewrite bool_decide_eq_false_2.
- destruct (values !! d) as [x|] eqn:Hx.
  + rewrite bool_decide_eq_true_2 by eauto. done.
  + rewrite bool_decide_eq_false_2 by (by intros [? ?]).
    rewrite bool_decide_eq_true_2; [done|].
    destruct (decide (d ∈ Object_prototype)); [done|]. by destruct Hd.
Qed.

Lemma missing_ext (v1 v2 : gmap string Value) (deps : list string) :
  (∀ d, d ∈ deps → v1 !! d = v2 !! d) →
  List.filter (λ dep, negb (Calculator.has_key v1 dep)) deps =
  List.filter (λ dep, negb (Calculator.has_key v2 dep)) deps.
Proof.
rewrite !missing_filter.
induction deps as [|d deps IH]; intros H; [done|].
rewrite !filter_cons, (H d) by (by left).
rewrite IH; [done|]. intros d' Hd'. apply H. by right.
Qed.

End CalculatorMore.

(** X16. A calculated value depends on nothing but the declared
    dependencies: two sets of answers that agree on every id named in
    [dependencias] give the same result, error or value. No other answer
    reaches the formula. *)
Theorem calculate_reads_only_dependencies (B : Builtins) (field : Field.t)
    (v1 v2 : gmap string Value) :
  (∀ deps d, Field.dependencias field = Some deps → d ∈ deps → v1 !! d = v2 !! d) →
  Calculator.calculate B field v1 = Calculator.calculate B field v2.
Proof.
intros H. unfold Calculator.calculate.
destruct (Field.formula field) as [formula|]; [|done].
destruct (Field.dependencias field) as [deps|]; [|done].
assert (Hd : ∀ d, d ∈ deps → v1 !! d = v2 !! d)
  by (intros d; by apply (H deps d eq_refl)).
by rewrite (missing_ext v1 v2 deps Hd), (scope_ext v1 v2 deps Hd).
Qed.

Lemma calculate_reads_only_dependencies_witness :
  Calculator.calculate example_builtins campo_imc
    {["peso" := VNumber 70; "altura" := VNumber 170]} =
  Calculator.calculate example_builtins campo_imc
    {["peso" := VNumber 70; "altura" := VNumber 170; "nome" := VString "Ana"]}.
Proof.
apply (calculate_reads_only_dependencies example_builtins campo_imc).
intros deps d [= <-] Hd.
repeat (apply elem_of_cons in Hd as [->|Hd]; [reflexivity|]).
by apply elem_of_nil in Hd.
Defined.

(** X17. A calculated field with a formula and dependencies fails with the
    missing-dependencies error exactly when some declared dependency is
    missing from the answers, that is, is neither an own key of them nor a
    name every object inherits from [Object.prototype] (such as
    [constructor] or [toString]); the error lists the missing ids, in
    declared order and as often as they are declared. The formula is not
    looked at before that. *)
Theorem calculate_missing_dependencies (B : Builtins) (field : Field.t)
    (values : gmap string Value) (formula : string) (deps : list string) :
  Field.formula field = Some formula → formula ≠ "" →
  Field.dependencias field = Some deps →
  ((∃ d, d ∈ deps ∧ values !! d = None ∧ d ∉ Object_prototype) →
   Calculator.calculate B field values =
     inl (Dependencias_ausentes (Field.id field)
            (filter (λ d, values !! d = None ∧ d ∉ Object_prototype) deps))) ∧
  (∀ id l, Calculator.calculate B field values = inl (Dependencias_ausentes id l) →
     ∃ d, d ∈ deps ∧ values !! d = None ∧ d ∉ Object_prototype).
Proof.
intros Hf Hne Hd. unfold Calculator.calculate. rewrite Hf, Hd.
rewrite bool_decide_eq_false_2 by done. rewrite missing_filter.
destruct (filter (λ d, values !! d = None ∧ d ∉ Object_prototype) deps)
  as [|d0 l0] eqn:Hfil; simpl.
- split.
  + intros (d & Hin & Hnone).
    assert (d ∈ filter (λ d, values !! d = None ∧ d ∉ Object_prototype) deps) as Hx
      by (by apply list_elem_of_filter).
    rewrite Hfil in Hx. by apply elem_of_nil in Hx.
  + intros id l. repeat (case_match; try done).
- assert (d0 ∈ filter (λ d, values !! d = None ∧ d ∉ Object_prototype) deps) as Hx
    by (rewrite Hfil; by left).
  apply list_elem_of_filter in Hx as [Hnone Hin].
  split; [done|]. intros _ _ _. by exists d0.
Qed.

Lemma calculate_missing_dependencies_witness :
  let values : gmap string Value := {["peso" := VNumber 70]} in
  let deps := ["peso"; "altura"; "constructor"] in
  let campo := campo_calculado "imc" None "peso / (altura/100)^2" deps in
  ((∃ d, d ∈ deps ∧ values !! d = None ∧ d ∉ Object_prototype) →
   Calculator.calculate example_builtins campo values =
     inl (Dependencias_ausentes (Field.id campo)
            (filter (λ d, values !! d = None ∧ d ∉ Object_prototype) deps))) ∧
  (∀ id l, Calculator.calculate example_builtins campo values
             = inl (Dependencias_ausentes id l) →
     ∃ d, d ∈ deps ∧ values !! d = None ∧ d ∉ Object_prototype).
Proof.
intros values deps campo.
apply (calculate_missing_dependencies example_builtins campo values
         "peso / (altura/100)^2" deps);
  [reflexivity|discriminate|reflexivity].
Defined.

(** ** Fields as the forms table returns them *)

Section CamposJson.
Variable B : Builtins.

Lemma find_validacao_json (c : Field.t) (name : string) :
  FieldValidator.find_validacao (json_campo c) name =
    json_validacao <$> FieldValidator.find_validacao c name.
Proof.
unfold FieldValidator.find_validacao. destruct c as [? ? ? ? ? vs ? ? ? ? ? ? ? ?]. simpl.
destruct vs as [vs|]; simpl; [|done].
induction vs as [|v vs IH]; simpl; [done|].
by destruct (bool_decide (v_tipo v = name)).
Qed.

Lemma regra_numerica_json (v : Validacao) :
  regra_numerica (json_validacao v) = regra_numerica v.
Proof. unfold regra_numerica. destruct v as [tipo [] mensagem]; done. Qed.

Lemma regra_texto_json (c : Field.t) :
  regra_texto (json_campo c) = true → regra_texto c = true.
Proof.
unfold regra_texto. rewrite !find_validacao_json.
destruct (FieldValidator.find_validacao c "tamanho_minimo") as [[t1 [] m1]|]; simpl;
  destruct (FieldValidator.find_validacao c "regex") as [[t2 [] m2]|]; simpl;
  try done; by rewrite ?orb_true_r.
Qed.

(** What passes definition-level validation still passes it once it has
    been through the [campos] column. *)
Lemma definicao_aceita_json (c : Field.t) :
  definicao_aceita c = true → definicao_aceita (json_campo c) = true.
Proof.
unfold definicao_aceita, formato_inteiro. pose proof (regra_texto_json c) as Ht.
change (Field.tipo (json_campo c)) with (Field.tipo c).
change (Field.obrigatorio (json_campo c)) with (Field.obrigatorio c).
change (Field.formato (json_campo c)) with (Field.formato c).
change (Field.formula (json_campo c)) with (Field.formula c).
change (Field.dependencias (json_campo c)) with (Field.dependencias c).
change (Field.validacoes (json_campo c))
  with (map json_validacao <$> Field.validacoes c).
destruct (Field.tipo c); try done.
- intros [Ho Hr]%andb_prop. rewrite Ho. simpl.
  destruct (regra_texto (json_campo c)); [|done].
  by rewrite (Ht eq_refl) in Hr.
- intros [Hf Hall]%andb_prop. rewrite Hf. simpl.
  destruct (Field.validacoes c) as [vs|]; simpl in *; [|done].
  rewrite forallb_forall in Hall. apply forallb_forall.
  intros v' [v [<- Hv]]%in_map_iff. rewrite regra_numerica_json. by apply Hall.
Qed.

Lemma validarCampos_json (campos : list Field.t) :
  FormService.validarCampos B campos = inr tt →
  FormService.validarCampos B (map json_campo campos) = inr tt.
Proof.
induction campos as [|c cs IH]; simpl; [done|].
destruct (FieldValidator.validate B VUndefined c) as [e|[]] eqn:Hc; [done|].
simpl. intros Hcs.
apply (validate_definition B), definicao_aceita_json, (validate_definition B) in Hc.
rewrite Hc. simpl. by apply IH.
Qed.

Lemma grafo_of_json (campos : list Field.t) :
  FormService.grafo_of (map json_campo campos) = FormService.grafo_of campos.
Proof.
unfold FormService.grafo_of. generalize (@nil (string * list string)).
induction campos as [|c cs IH]; intros acc; simpl; [done|]. apply IH.
Qed.

Lemma verificarDependenciasCirculares_json (campos : list Field.t) :
  FormService.verificarDependenciasCirculares (map json_campo campos) =
  FormService.verificarDependenciasCirculares campos.
Proof.
unfold FormService.verificarDependenciasCirculares, FormService.verificar_fuel.
by rewrite grafo_of_json, length_map.
Qed.

End CamposJson.

(** ** The service, call by call *)

Section Efeitos.
Variable B : Builtins.

(** What each call leaves behind: nothing when it rejects, and otherwise
    one row written and one event logged. *)
Lemma criarFormulario_efeito form w r w' :
  FormService.criarFormulario B form w = (r, w') →
  match r with
  | inl _ => w' = w
  | inr novo =>
      w' = mkWorld (<[Form.id novo := novo]> (forms w)) (responses w) (now w)
             (audit w ++ [criacao_formulario (Form.id novo) (now w)]) ∧
      forms w !! Form.id novo = None ∧
      Form.schema_version novo = 1%Z ∧
      FormService.validarCampos B (Form.campos novo) = inr tt ∧
      FormService.verificarDependenciasCirculares (Form.campos novo) = inr tt
  end.
Proof.
unfold FormService.criarFormulario. unfold_M.
destruct (PartialForm.campos form) as [campos|] eqn:Hc; [|by intros [= <- <-]].
destruct (FormService.validarCampos B campos) as [e|[]] eqn:Hv;
  [by intros [= <- <-]|].
destruct (FormService.verificarDependenciasCirculares campos) as [e|[]] eqn:Hd;
  [by intros [= <- <-]|].
unfold Repo.row_of. simpl.
destruct (PartialForm.id form) as [id|]; [|by intros [= <- <-]].
destruct (PartialForm.nome form) as [nome|]; [|by intros [= <- <-]]. simpl.
destruct (bool_decide (is_Some (forms w !! id))) eqn:Hfree; [by intros [= <- <-]|].
apply bool_decide_eq_false in Hfree.
intros [= <- <-]. simpl. repeat split; try done.
- by apply eq_None_not_Some.
- by apply validarCampos_json.
- by rewrite verificarDependenciasCirculares_json.
Qed.

Lemma atualizarSchemaFormulario_efeito id p w r w' :
  FormService.atualizarSchemaFormulario B id p w = (r, w') →
  match r with
  | inl _ => w' = w
  | inr g =>
      ∃ f, forms w !! id = Some f ∧ Form.is_ativo f = true ∧
        w' = mkWorld (<[id := g]> (forms w)) (responses w) (now w)
               (audit w ++ [atualizacao_schema id (Form.schema_version f)
                              (Form.schema_version f + 1) (now w)]) ∧
        Form.id g = Form.id f ∧
        Form.schema_version g = (Form.schema_version f + 1)%Z ∧
        Form.is_ativo g = true ∧
        Form.data_criacao g = Form.data_criacao f ∧
        Form.protegido g = Form.protegido f ∧
        (Form.campos g = Form.campos f ∨
         FormService.validarCampos B (Form.campos g) = inr tt ∧
         FormService.verificarDependenciasCirculares (Form.campos g) = inr tt)
  end.
Proof.
unfold FormService.atualizarSchemaFormulario. unfold_M.
destruct (forms w !! id) as [f|] eqn:Hf; [|by intros [= <- <-]].
destruct (Form.is_ativo f) eqn:Ha; simpl; [|by intros [= <- <-]].
destruct (FormService.validarCampos B _) as [e|[]] eqn:Hv; [by intros [= <- <-]|].
destruct (FormService.verificarDependenciasCirculares _) as [e|[]] eqn:Hd;
  [by intros [= <- <-]|].
destruct (truthy_Z (PartialForm.schema_version p) && _); [by intros [= <- <-]|].
rewrite Hf. intros [= <- <-]. exists f. simpl. rewrite Ha.
repeat split; try done.
destruct (PartialForm.campos p) as [campos|]; simpl in *; [right|by left].
split; [by apply validarCampos_json|by rewrite verificarDependenciasCirculares_json].
Qed.

Lemma enviarResposta_efeito formId respostas schema_version w r w' :
  FormService.enviarResposta B formId respostas schema_version w = (r, w') →
  match r with
  | inl _ => w' = w
  | inr row =>
      ∃ f, forms w !! formId = Some f ∧ Form.is_ativo f = true ∧
        w' = mkWorld (forms w) (<[Response.id row := row]> (responses w)) (now w)
               (audit w ++ [submissao_resposta formId (Response.id row) (now w)]) ∧
        responses w !! Response.id row = None ∧
        Response.id row = "resposta_" +:+ pretty (now w) ∧
        Response.formId row = formId ∧
        Response.schema_version row = Form.schema_version f ∧
        Response.respostas row = json_object respostas ∧
        Response.criado_em row = now w ∧
        Response.is_ativo row = true
  end.
Proof.
destruct (forms w !! formId) as [f|] eqn:Hf.
- destruct (Form.is_ativo f) eqn:Ha.
  + rewrite (enviarResposta_run B formId respostas schema_version w f Hf Ha).
    cbv zeta.
    destruct (negb (_ =? _)%Z) eqn:Hver; [by intros [= <- <-]|].
    destruct (FormService.validarRespostas B _ _) as [e|[]]; [by intros [= <- <-]|].
    destruct (FormService.calcularCampos B _ _ _) as [e|calc]; [by intros [= <- <-]|].
    destruct (bool_decide (is_Some (responses w !! _))) eqn:Hfree;
      [by intros [= <- <-]|].
    apply bool_decide_eq_false in Hfree.
    intros [= <- <-]. exists f. simpl.
    apply negb_false_iff, Z.eqb_eq in Hver.
    repeat split; try done. by apply eq_None_not_Some.
  + unfold FormService.enviarResposta. unfold_M. rewrite Hf, Ha. by intros [= <- <-].
- unfold FormService.enviarResposta. unfold_M. rewrite Hf. by intros [= <- <-].
Qed.

Lemma obterFormularioPorId_efeito id w :
  FormService.obterFormularioPorId id w =
    (inr (forms w !! id),
     mkWorld (forms w) (responses w) (now w)
       (audit w ++ match forms w !! id with
                   | Some _ => [busca_formulario id (now w)]
                   | None => []
                   end)).
Proof.
unfold FormService.obterFormularioPorId. unfold_M.
destruct (forms w !! id); [done|]. rewrite app_nil_r. by destruct w.
Qed.

Lemma desativarFormulario_efeito id usuario w r w' :
  FormService.desativarFormulario id usuario w = (r, w') →
  match r with
  | inl e =>
      w' = w ∧
      e = match forms w !! id with
          | None => Formulario_nao_encontrado
          | Some _ => Formulario_inativo
          end
  | inr _ =>
      ∃ f, forms w !! id = Some f ∧ Form.is_ativo f = true ∧
        w' = mkWorld
               (<[id := Form.mk (Form.id f) (Form.nome f) (Form.descricao f)
                          (Form.schema_version f) false (Form.data_criacao f)
                          (Some (now w)) (Some usuario) (Form.protegido f)
                          (Form.campos f)]> (forms w))
               (responses w) (now w)
               (audit w ++ [exclusao_logica_formulario id usuario (now w)])
  end.
Proof.
destruct (forms w !! id) as [f|] eqn:Hf.
- destruct (Form.is_ativo f) eqn:Ha.
  + rewrite (desativarFormulario_active id usuario w f Hf Ha).
    intros [= <- <-]. by exists f.
  + unfold FormService.desativarFormulario. unfold_M. rewrite Hf, Ha.
    by intros [= <- <-].
- unfold FormService.desativarFormulario. unfold_M. rewrite Hf. by intros [= <- <-].
Qed.

Lemma desativarResposta_efeito formId respostaId usuario w r w' :
  FormService.desativarResposta formId respostaId usuario w = (r, w') →
  match r with
  | inl e =>
      w' = w ∧
      e = match responses w !! respostaId with
          | Some x => if bool_decide (Response.formId x = formId)
                      then Resposta_inativa else Resposta_nao_encontrada
          | None => Resposta_nao_encontrada
          end
  | inr _ =>
      ∃ x, responses w !! respostaId = Some x ∧ Response.formId x = formId ∧
        Response.is_ativo x = true ∧
        w' = mkWorld (forms w)
               (<[respostaId := Response.mk (Response.id x) (Response.formId x)
                    (Response.schema_version x) (Response.respostas x)
                    (Response.calculados x) (Response.criado_em x)
                    false (Some (now w)) (Some usuario)]> (responses w))
               (now w)
               (audit w ++ [exclusao_logica_resposta formId respostaId usuario (now w)])
  end.
Proof.
unfold FormService.desativarResposta, Repo.findResponseById, Repo.softDeleteResponse.
unfold_M.
destruct (responses w !! respostaId) as [x|] eqn:Hx; [|by intros [= <- <-]].
destruct (bool_decide (Response.formId x = formId)) eqn:Hform;
  [|by intros [= <- <-]].
destruct (Response.is_ativo x) eqn:Ha; simpl; [|by intros [= <- <-]].
rewrite Hx, Hform. intros [= <- <-]. exists x.
apply bool_decide_eq_true in Hform. done.
Qed.

End Efeitos.

Section Maquina.
Variable B : Builtins.

(** The only writes to the forms table: a new row under a free id, or a
    later state of an active row. *)
Lemma executar_forms op w :
  forms (executar B op w).2 = forms w ∨
  ∃ k f', forms (executar B op w).2 = <[k := f']> (forms w) ∧
    ((forms w !! k = None ∧ Form.id f' = k ∧ Form.schema_version f' = 1%Z ∧
      FormService.validarCampos B (Form.campos f') = inr tt ∧
      FormService.verificarDependenciasCirculares (Form.campos f') = inr tt) ∨
     (∃ f, forms w !! k = Some f ∧ Form.is_ativo f = true ∧
        Form.id f' = Form.id f ∧
        Form.data_criacao f' = Form.data_criacao f ∧
        Form.protegido f' = Form.protegido f ∧
        (Form.schema_version f ≤ Form.schema_version f')%Z ∧
        (Form.campos f' = Form.campos f ∨
         FormService.validarCampos B (Form.campos f') = inr tt ∧
         FormService.verificarDependenciasCirculares (Form.campos f') = inr tt))).
Proof.
destruct op as [form|id form|formId respostas sv|id|id usuario|formId rid usuario];
  simpl; unfold desfecho.
- destruct (FormService.criarFormulario B form w) as [r w'] eqn:H.
  apply criarFormulario_efeito in H. destruct r as [e|novo]; simpl.
  + left. by rewrite H.
  + destruct H as (-> & Hfree & Hv & Hc & Hd). right.
    exists (Form.id novo), novo. split; [done|]. by left.
- destruct (FormService.atualizarSchemaFormulario B id form w) as [r w'] eqn:H.
  apply atualizarSchemaFormulario_efeito in H. destruct r as [e|g]; simpl.
  + left. by rewrite H.
  + destruct H as (f & Hf & Ha & -> & Hid & Hsv & Hat & Hdc & Hp & Hcampos). right.
    exists id, g. split; [done|]. right. exists f.
    repeat split; try done. lia.
- destruct (FormService.enviarResposta B formId respostas sv w) as [r w'] eqn:H.
  apply enviarResposta_efeito in H. destruct r as [e|row]; simpl.
  + left. by rewrite H.
  + destruct H as (f & Hf & Ha & -> & _). by left.
- rewrite obterFormularioPorId_efeito. by left.
- destruct (FormService.desativarFormulario id usuario w) as [r w'] eqn:H.
  apply desativarFormulario_efeito in H. destruct r as [e|[]]; simpl.
  + left. by destruct H as [-> _].
  + destruct H as (f & Hf & Ha & ->). right. eexists id, _. split; [done|].
    right. exists f. simpl. repeat split; try done. by left.
- destruct (FormService.desativarResposta formId rid usuario w) as [r w'] eqn:H.
  apply desativarResposta_efeito in H. destruct r as [e|[]]; simpl.
  + left. by destruct H as [-> _].
  + destruct H as (x & Hx & Hform & Ha & ->). by left.
Qed.

(** The only writes to the responses table: a new row under a free id,
    citing the version of its form, or the soft deletion of an active
    row. *)
Lemma executar_responses op w :
  responses (executar B op w).2 = responses w ∨
  ∃ k r', responses (executar B op w).2 = <[k := r']> (responses w) ∧
    ((responses w !! k = None ∧ Response.id r' = k ∧
      ∃ f, forms w !! Response.formId r' = Some f ∧
           Response.schema_version r' = Form.schema_version f) ∨
     (∃ r, responses w !! k = Some r ∧ Response.is_ativo r = true ∧
        Response.id r' = Response.id r ∧
        Response.formId r' = Response.formId r ∧
        Response.schema_version r' = Response.schema_version r ∧
        Response.respostas r' = Response.respostas r ∧
        Response.calculados r' = Response.calculados r ∧
        Response.criado_em r' = Response.criado_em r)).
Proof.
destruct op as [form|id form|formId respostas sv|id|id usuario|formId rid usuario];
  simpl; unfold desfecho.
- destruct (FormService.criarFormulario B form w) as [r w'] eqn:H.
  apply criarFormulario_efeito in H. destruct r as [e|novo]; simpl.
  + left. by rewrite H.
  + destruct H as (-> & _). by left.
- destruct (FormService.atualizarSchemaFormulario B id form w) as [r w'] eqn:H.
  apply atualizarSchemaFormulario_efeito in H. destruct r as [e|g]; simpl.
  + left. by rewrite H.
  + destruct H as (f & Hf & Ha & -> & _). by left.
- destruct (FormService.enviarResposta B formId respostas sv w) as [r w'] eqn:H.
  apply enviarResposta_efeito in H. destruct r as [e|row]; simpl.
  + left. by rewrite H.
  + destruct H as (f & Hf & Ha & -> & Hfree & Hid & Hform & Hsv & _). right.
    exists (Response.id row), row. split; [done|]. left.
    repeat split; try done. exists f. by rewrite Hform.
- rewrite obterFormularioPorId_efeito. by left.
- destruct (FormService.desativarFormulario id usuario w) as [r w'] eqn:H.
  apply desativarFormulario_efeito in H. destruct r as [e|[]]; simpl.
  + left. by destruct H as [-> _].
  + destruct H as (f & Hf & Ha & ->). by left.
- destruct (FormService.desativarResposta formId rid usuario w) as [r w'] eqn:H.
  apply desativarResposta_efeito in H. destruct r as [e|[]]; simpl.
  + left. by destruct H as [-> _].
  + destruct H as (x & Hx & Hform & Ha & ->). right. eexists rid, _.
    split; [done|]. right. exists x. by repeat split.
Qed.

Local Ltac sem_evento :=
  split; [done|]; exists []; split; [by rewrite app_nil_r|simpl; lia].
Local Ltac um_evento :=
  split; [done|]; eexists [_]; split; [done|simpl; lia].

(** Every call leaves the clock alone and appends at most one event to the
    log. *)
Lemma executar_audit op w :
  now (executar B op w).2 = now w ∧
  ∃ l, audit (executar B op w).2 = audit w ++ l ∧ (length l ≤ 1)%nat.
Proof.
destruct op as [form|id form|formId respostas sv|id|id usuario|formId rid usuario];
  simpl; unfold desfecho.
- destruct (FormService.criarFormulario B form w) as [r w'] eqn:H.
  apply criarFormulario_efeito in H. destruct r as [e|novo]; simpl.
  + rewrite H. sem_evento.
  + destruct H as (-> & _). um_evento.
- destruct (FormService.atualizarSchemaFormulario B id form w) as [r w'] eqn:H.
  apply atualizarSchemaFormulario_efeito in H. destruct r as [e|g]; simpl.
  + rewrite H. sem_evento.
  + destruct H as (f & Hf & Ha & -> & _). um_evento.
- destruct (FormService.enviarResposta B formId respostas sv w) as [r w'] eqn:H.
  apply enviarResposta_efeito in H. destruct r as [e|row]; simpl.
  + rewrite H. sem_evento.
  + destruct H as (f & Hf & Ha & -> & _). um_evento.
- rewrite obterFormularioPorId_efeito. simpl. split; [done|].
  eexists. split; [done|]. destruct (forms w !! id); simpl; lia.
- destruct (FormService.desativarFormulario id usuario w) as [r w'] eqn:H.
  apply desativarFormulario_efeito in H. destruct r as [e|[]]; simpl.
  + destruct H as [-> _]. sem_evento.
  + destruct H as (f & Hf & Ha & ->). um_evento.
- destruct (FormService.desativarResposta formId rid usuario w) as [r w'] eqn:H.
  apply desativarResposta_efeito in H. destruct r as [e|[]]; simpl.
  + destruct H as [-> _]. sem_evento.
  + destruct H as (x & Hx & Hform & Ha & ->). um_evento.
Qed.

Lemma sucede_formulario_refl f : sucede_formulario f f.
Proof. unfold sucede_formulario. repeat split; try done. Qed.

Lemma sucede_formulario_trans f g h :
  sucede_formulario f g → sucede_formulario g h → sucede_formulario f h.
Proof.
intros (H1 & H2 & H3 & H4 & H5) (G1 & G2 & G3 & G4 & G5).
repeat split; try congruence; [lia|].
intros Ha. rewrite (H5 Ha) in *. by apply G5.
Qed.

Lemma sucede_resposta_refl r : sucede_resposta r r.
Proof. unfold sucede_resposta. by repeat split. Qed.

Lemma sucede_resposta_trans r s t :
  sucede_resposta r s → sucede_resposta s t → sucede_resposta r t.
Proof.
intros (H1 & H2 & H3 & H4 & H5 & H6 & H7) (G1 & G2 & G3 & G4 & G5 & G6 & G7).
repeat split; try congruence.
intros Ha. rewrite (H7 Ha) in *. by apply G7.
Qed.

Lemma passo_formulario w w' k f :
  passo B w w' → forms w !! k = Some f →
  ∃ f', forms w' !! k = Some f' ∧ sucede_formulario f f'.
Proof.
intros [op w0|d w0] Hf.
- destruct (executar_forms op w0) as [->|(k0 & f0 & -> & Hcase)].
  + exists f. split; [done|apply sucede_formulario_refl].
  + destruct (decide (k0 = k)) as [->|Hne].
    * rewrite lookup_insert_eq. exists f0. split; [done|].
      destruct Hcase as [(Hnone & _)|(f1 & Hf1 & Ha & Hid & Hdc & Hp & Hsv & _)];
        [congruence|].
      assert (f1 = f) as -> by congruence.
      repeat split; try done. intros Hina. congruence.
    * rewrite lookup_insert_ne by done. exists f.
      split; [done|apply sucede_formulario_refl].
- exists f. split; [done|apply sucede_formulario_refl].
Qed.

(** An inactive form stays as it is. *)
Lemma passos_formulario_inativo w w' k f :
  rtc (passo B) w w' → forms w !! k = Some f → Form.is_ativo f = false →
  forms w' !! k = Some f.
Proof.
induction 1 as [w|w w1 w2 Hstep _ IH]; intros Hf Ha; [done|].
destruct (passo_formulario w w1 k f Hstep Hf) as (f1 & Hf1 & _ & _ & _ & _ & Hfrozen).
rewrite (Hfrozen Ha) in Hf1. by apply IH.
Qed.

Lemma passo_resposta w w' k r :
  passo B w w' → responses w !! k = Some r →
  ∃ r', responses w' !! k = Some r' ∧ sucede_resposta r r'.
Proof.
intros [op w0|d w0] Hr.
- destruct (executar_responses op w0) as [->|(k0 & r0 & -> & Hcase)].
  + exists r. split; [done|apply sucede_resposta_refl].
  + destruct (decide (k0 = k)) as [->|Hne].
    * rewrite lookup_insert_eq. exists r0. split; [done|].
      destruct Hcase as [(Hnone & _)|(r1 & Hr1 & Ha & H1 & H2 & H3 & H4 & H5 & H6)];
        [congruence|].
      assert (r1 = r) as -> by congruence.
      repeat split; try done. intros Hina. congruence.
    * rewrite lookup_insert_ne by done. exists r.
      split; [done|apply sucede_resposta_refl].
- exists r. split; [done|apply sucede_resposta_refl].
Qed.

Lemma passo_integro w w' : integro B w → passo B w w' → integro B w'.
Proof.
intros Hi Hstep. revert Hi.
destruct Hstep as [op w0|d w0]; intros [Hfid Hfv Hfc Hrid Hrf]; [|by split].
pose proof (executar_forms op w0) as HF.
pose proof (executar_responses op w0) as HR.
set (w1 := (executar B op w0).2) in *.
assert (Hforms : ∀ k f, forms w0 !! k = Some f →
          ∃ f', forms w1 !! k = Some f' ∧
                (Form.schema_version f ≤ Form.schema_version f')%Z).
{ intros k f Hf.
  destruct (passo_formulario w0 w1 k f (passo_operacao B op w0) Hf)
    as (f' & Hf' & _ & _ & _ & Hle & _). eauto. }
split.
- intros k f. destruct HF as [->|(k0 & f0 & -> & Hcase)]; [apply Hfid|].
  destruct (decide (k0 = k)) as [->|Hne].
  + rewrite lookup_insert_eq. intros [= <-].
    destruct Hcase as [(_ & Hid & _)|(f1 & Hf1 & _ & Hid & _)]; [done|].
    rewrite Hid. by eapply Hfid.
  + rewrite lookup_insert_ne by done. apply Hfid.
- intros k f. destruct HF as [->|(k0 & f0 & -> & Hcase)]; [apply Hfv|].
  destruct (decide (k0 = k)) as [->|Hne].
  + rewrite lookup_insert_eq. intros [= <-].
    destruct Hcase as [(_ & _ & Hsv & _)|(f1 & Hf1 & _ & _ & _ & _ & Hsv & _)]; [lia|].
    specialize (Hfv _ _ Hf1). lia.
  + rewrite lookup_insert_ne by done. apply Hfv.
- intros k f. destruct HF as [->|(k0 & f0 & -> & Hcase)]; [apply Hfc|].
  destruct (decide (k0 = k)) as [->|Hne].
  + rewrite lookup_insert_eq. intros [= <-].
    destruct Hcase as [(_ & _ & _ & Hv & Hc)
                      |(f1 & Hf1 & _ & _ & _ & _ & _ & [Hsame|[Hv Hc]])];
      [done| |done].
    rewrite Hsame. by eapply Hfc.
  + rewrite lookup_insert_ne by done. apply Hfc.
- intros k r. destruct HR as [->|(k0 & r0 & -> & Hcase)]; [apply Hrid|].
  destruct (decide (k0 = k)) as [->|Hne].
  + rewrite lookup_insert_eq. intros [= <-].
    destruct Hcase as [(_ & Hid & _)|(r1 & Hr1 & _ & Hid & _)]; [done|].
    rewrite Hid. by eapply Hrid.
  + rewrite lookup_insert_ne by done. apply Hrid.
- assert (Hold : ∀ k r, responses w0 !! k = Some r →
            ∃ f, forms w1 !! Response.formId r = Some f ∧
                 (1 ≤ Response.schema_version r ≤ Form.schema_version f)%Z).
  { intros k r Hr. destruct (Hrf _ _ Hr) as (f & Hf & Hle).
    destruct (Hforms _ _ Hf) as (f' & Hf' & Hle'). exists f'. split; [done|lia]. }
  intros k r. destruct HR as [->|(k0 & r0 & -> & Hcase)]; [apply Hold|].
  destruct (decide (k0 = k)) as [->|Hne].
  + rewrite lookup_insert_eq. intros [= <-].
    destruct Hcase as [(_ & _ & f & Hf & Hsv)
                      |(r1 & Hr1 & _ & _ & Hform & Hsv & _)].
    * destruct (Hforms _ _ Hf) as (f' & Hf' & Hle'). exists f'. split; [done|].
      specialize (Hfv _ _ Hf). lia.
    * rewrite Hform, Hsv. by eapply Hold.
  + rewrite lookup_insert_ne by done. apply Hold.
Qed.

Lemma mundo_vazio_integro agora : integro B (mundo_vazio agora).
Proof. split; intros k x; simpl; by rewrite lookup_empty. Qed.

End Maquina.

(** X18. A call of the service that rejects has changed nothing: neither
    table, nor the audit log, nor the clock. This holds for creation, schema
    update, submission, lookup and both soft deletions. *)
Theorem operacao_rejeitada_nao_altera (B : Builtins) (op : Operacao) (w : World)
    (e : Error) :
  (executar B op w).1 = Some e → (executar B op w).2 = w.
Proof.
destruct op as [form|id form|formId respostas sv|id|id usuario|formId rid usuario];
  simpl; unfold desfecho.
- destruct (FormService.criarFormulario B form w) as [r w'] eqn:H.
  apply criarFormulario_efeito in H. by destruct r.
- destruct (FormService.atualizarSchemaFormulario B id form w) as [r w'] eqn:H.
  apply atualizarSchemaFormulario_efeito in H. by destruct r.
- destruct (FormService.enviarResposta B formId respostas sv w) as [r w'] eqn:H.
  apply enviarResposta_efeito in H. by destruct r.
- by rewrite obterFormularioPorId_efeito.
- destruct (FormService.desativarFormulario id usuario w) as [r w'] eqn:H.
  apply desativarFormulario_efeito in H. destruct r; [|done]. by destruct H.
- destruct (FormService.desativarResposta formId rid usuario w) as [r w'] eqn:H.
  apply desativarResposta_efeito in H. destruct r; [|done]. by destruct H.
Qed.

Lemma operacao_rejeitada_nao_altera_witness :
  (executar example_builtins (DesativarFormulario "form_404" "ana")
     (mundo (formulario "form_001" 1 false []))).2
  = mundo (formulario "form_001" 1 false []).
Proof.
apply (operacao_rejeitada_nao_altera example_builtins
         (DesativarFormulario "form_404" "ana")
         (mundo (formulario "form_001" 1 false [])) Formulario_nao_encontrado).
reflexivity.
Defined.

(** X19. Stored forms are never removed and only move forward. Whatever
    calls are made and however the clock moves, a form that was stored is
    still stored under the same id, with the same creation date and
    protection flag and a schema version that is not smaller; and a form
    that was inactive is exactly as it was: nothing reactivates or edits a
    soft-deleted form. *)
Theorem formularios_persistem (B : Builtins) (w w' : World) (k : string) (f : Form.t) :
  rtc (passo B) w w' → forms w !! k = Some f →
  ∃ f', forms w' !! k = Some f' ∧ sucede_formulario f f'.
Proof.
intros Hrtc. revert f. induction Hrtc as [w|w w1 w2 Hstep _ IH]; intros f Hf.
- exists f. split; [done|apply sucede_formulario_refl].
- destruct (passo_formulario B w w1 k f Hstep Hf) as (f1 & Hf1 & Hs1).
  destruct (IH f1 Hf1) as (f2 & Hf2 & Hs2).
  exists f2. split; [done|]. by eapply sucede_formulario_trans.
Qed.

Lemma formularios_persistem_witness :
  ∃ f', forms (executar example_builtins (DesativarFormulario "form_001" "ana")
                 (mundo (formulario "form_001" 1 false []))).2 !! "form_001" = Some f' ∧
        sucede_formulario (formulario "form_001" 1 false []) f'.
Proof.
apply (formularios_persistem example_builtins
         (mundo (formulario "form_001" 1 false [])) _ "form_001"
         (formulario "form_001" 1 false [])).
- apply rtc_once. apply passo_operacao.
- reflexivity.
Defined.

(** X20. Stored responses are never removed and their content never
    changes: id, form, schema version, answers, calculated values and
    creation time stay as submitted, whatever happens later, and a
    soft-deleted response is exactly as the deletion left it. *)
Theorem respostas_persistem (B : Builtins) (w w' : World) (k : string)
    (r : Response.t) :
  rtc (passo B) w w' → responses w !! k = Some r →
  ∃ r', responses w' !! k = Some r' ∧ sucede_resposta r r'.
Proof.
intros Hrtc. revert r. induction Hrtc as [w|w w1 w2 Hstep _ IH]; intros r Hr.
- exists r. split; [done|apply sucede_resposta_refl].
- destruct (passo_resposta B w w1 k r Hstep Hr) as (r1 & Hr1 & Hs1).
  destruct (IH r1 Hr1) as (r2 & Hr2 & Hs2).
  exists r2. split; [done|]. by eapply sucede_resposta_trans.
Qed.

(** X21. The audit log is append-only: after any sequence of calls and
    clock movements, the log begins with what it held before. *)
Theorem auditoria_so_cresce (B : Builtins) (w w' : World) :
  rtc (passo B) w w' → audit w `prefix_of` audit w'.
Proof.
induction 1 as [w|w w1 w2 Hstep _ IH]; [done|].
etrans; [|exact IH].
destruct Hstep as [op w0|d w0]; [|done].
destruct (executar_audit B op w0) as (_ & l & -> & _). by exists l.
Qed.

Lemma auditoria_so_cresce_witness :
  audit (mundo (formulario "form_001" 1 false [])) `prefix_of`
  audit (executar example_builtins (ObterFormularioPorId "form_001")
           (mundo (formulario "form_001" 1 false []))).2.
Proof.
apply (auditoria_so_cresce example_builtins). apply rtc_once. apply passo_operacao.
Defined.

(** X22. Integrity of the store is an invariant of the service. If every
    stored form sits under its own id, has a schema version of at least 1
    and fields that pass definition-level validation and the cycle check,
    and every stored response sits under its own id and belongs to a stored
    form whose schema version is at least the one the response cites, then
    the same holds after any sequence of calls and clock movements. The
    empty store satisfies it. *)
Theorem integridade_preservada (B : Builtins) (w w' : World) :
  integro B w → rtc (passo B) w w' → integro B w'.
Proof.
intros Hi Hrtc. induction Hrtc as [w|w w1 w2 Hstep _ IH]; [done|].
apply IH. by eapply passo_integro.
Qed.

Lemma integridade_preservada_witness :
  integro example_builtins
    (executar example_builtins
       (CriarFormulario (payload [campo "nome" text None] None None))
       (mundo_vazio 1754531443000)).2.
Proof.
apply (integridade_preservada example_builtins (mundo_vazio 1754531443000)).
- apply mundo_vazio_integro.
- apply rtc_once. apply passo_operacao.
Defined.

Lemma respostas_persistem_witness :
  ∃ r', responses (executar example_builtins
                     (DesativarResposta "form_001" "resposta_1" "ana")
                     mundo_com_resposta).2 !! "resposta_1" = Some r' ∧
        sucede_resposta resposta_exemplo r'.
Proof.
apply (respostas_persistem example_builtins mundo_com_resposta _ "resposta_1"
         resposta_exemplo).
- apply rtc_once. apply passo_operacao.
- reflexivity.
Defined.

(** X23. A schema update invalidates the version it replaces: once
    [atualizarSchemaFormulario] has succeeded on a form, a submission that
    cites the version the form had before is rejected as out of date and
    stores nothing. (The stored version is never 0 in a store the service
    has built; a cited 0 would count as no version given.) *)
Theorem atualizacao_invalida_versao_anterior (B : Builtins) (id : string)
    (p : PartialForm.t) (w w1 : World) (f g : Form.t)
    (respostas : gmap string Value) :
  forms w !! id = Some f → Form.schema_version f ≠ 0%Z →
  FormService.atualizarSchemaFormulario B id p w = (inr g, w1) →
  FormService.enviarResposta B id respostas (Some (Form.schema_version f)) w1
    = (inl Versao_do_schema_desatualizada, w1).
Proof.
intros Hf Hnz Hup.
apply atualizarSchemaFormulario_efeito in Hup.
destruct Hup as (f0 & Hf0 & Ha & -> & Hid & Hsv & Hat & _).
assert (f0 = f) as -> by congruence.
rewrite (enviarResposta_run B id respostas _ _ g); [|by simpl; rewrite lookup_insert_eq|done].
cbv zeta. simpl.
destruct (Form.schema_version f =? 0)%Z eqn:Hz; [apply Z.eqb_eq in Hz; done|].
simpl. rewrite Hsv.
destruct (Form.schema_version f =? Form.schema_version f + 1)%Z eqn:He;
  [apply Z.eqb_eq in He; lia|done].
Qed.

Lemma atualizacao_invalida_versao_anterior_witness :
  FormService.enviarResposta example_builtins "form_001" ∅ (Some 1%Z)
    (FormService.atualizarSchemaFormulario example_builtins "form_001"
       (payload [campo "nome" text None] None None)
       (mundo (formulario "form_001" 1 false []))).2
  = (inl Versao_do_schema_desatualizada,
     (FormService.atualizarSchemaFormulario example_builtins "form_001"
        (payload [campo "nome" text None] None None)
        (mundo (formulario "form_001" 1 false []))).2).
Proof.
destruct (FormService.atualizarSchemaFormulario example_builtins "form_001"
            (payload [campo "nome" text None] None None)
            (mundo (formulario "form_001" 1 false []))) as [[e|g] w1] eqn:H.
- vm_compute in H. discriminate.
- apply (atualizacao_invalida_versao_anterior example_builtins "form_001"
           (payload [campo "nome" text None] None None)
           (mundo (formulario "form_001" 1 false [])) w1
           (formulario "form_001" 1 false []) g ∅);
    [reflexivity|discriminate|exact H].
Defined.

(** X24. Soft deletion of a form is final. Once [desativarFormulario] has
    succeeded, then after any further calls and clock movements every schema
    update, every submission and every further soft deletion of that form is
    rejected as inactive, while a lookup still returns the form, inactive
    and stamped with the time and user of the deletion. *)
Theorem formulario_desativado_e_terminal (B : Builtins) (id usuario : string)
    (w w1 w2 : World) :
  FormService.desativarFormulario id usuario w = (inr tt, w1) →
  rtc (passo B) w1 w2 →
  (∀ p, FormService.atualizarSchemaFormulario B id p w2 = (inl Formulario_inativo, w2)) ∧
  (∀ respostas sv,
     FormService.enviarResposta B id respostas sv w2 = (inl Formulario_inativo, w2)) ∧
  (∀ u, FormService.desativarFormulario id u w2 = (inl Formulario_inativo, w2)) ∧
  ∃ f, (FormService.obterFormularioPorId id w2).1 = inr (Some f) ∧
       Form.is_ativo f = false ∧
       Form.data_remocao f = Some (now w) ∧
       Form.usuario_remocao f = Some usuario.
Proof.
intros Hdel Hrtc.
apply desativarFormulario_efeito in Hdel. destruct Hdel as (f & Hf & Ha & ->).
set (f1 := Form.mk (Form.id f) (Form.nome f) (Form.descricao f)
             (Form.schema_version f) false (Form.data_criacao f)
             (Some (now w)) (Some usuario) (Form.protegido f) (Form.campos f)) in *.
assert (Hf2 : forms w2 !! id = Some f1).
{ apply (passos_formulario_inativo B _ w2 id f1 Hrtc); [|done].
  simpl. by rewrite lookup_insert_eq. }
split; [|split; [|split]].
- intros p. by apply (proj2 (atualizarSchemaFormulario_guards B id p w2) f1).
- intros respostas sv. unfold FormService.enviarResposta. unfold_M. by rewrite Hf2.
- intros u. unfold FormService.desativarFormulario. unfold_M. by rewrite Hf2.
- exists f1. rewrite (obterFormularioPorId_found id w2 f1 Hf2). done.
Qed.

Lemma formulario_desativado_e_terminal_witness :
  let w1 := (FormService.desativarFormulario "form_001" "ana"
               (mundo (formulario "form_001" 1 false []))).2 in
  (∀ p, FormService.atualizarSchemaFormulario example_builtins "form_001" p w1
          = (inl Formulario_inativo, w1)) ∧
  (∀ respostas sv,
     FormService.enviarResposta example_builtins "form_001" respostas sv w1
       = (inl Formulario_inativo, w1)) ∧
  (∀ u, FormService.desativarFormulario "form_001" u w1 = (inl Formulario_inativo, w1)) ∧
  ∃ f, (FormService.obterFormularioPorId "form_001" w1).1 = inr (Some f) ∧
       Form.is_ativo f = false ∧
       Form.data_remocao f = Some (now (mundo (formulario "form_001" 1 false []))) ∧
       Form.usuario_remocao f = Some "ana".
Proof.
cbv zeta.
apply (formulario_desativado_e_terminal example_builtins "form_001" "ana"
         (mundo (formulario "form_001" 1 false []))
         (FormService.desativarFormulario "form_001" "ana"
            (mundo (formulario "form_001" 1 false []))).2).
- rewrite (desativarFormulario_active "form_001" "ana"
             (mundo (formulario "form_001" 1 false []))
             (formulario "form_001" 1 false []) eq_refl eq_refl). reflexivity.
- apply rtc_refl.
Defined.

(** X25. Soft deletion of a response looks at the response only. Given a
    stored response: under the id of its form, an active response is marked
    inactive and stamped with the time and user, its answers untouched and
    the forms table unchanged, after which a second deletion is rejected as
    inactive; under any other form id the call is rejected as not found.
    Whether the form is itself active, or stored at all, plays no part. *)
Theorem desativarResposta_comportamento (formId respostaId usuario : string)
    (w : World) (r : Response.t) :
  responses w !! respostaId = Some r →
  (Response.formId r ≠ formId →
   FormService.desativarResposta formId respostaId usuario w
     = (inl Resposta_nao_encontrada, w)) ∧
  (Response.formId r = formId → Response.is_ativo r = false →
   FormService.desativarResposta formId respostaId usuario w
     = (inl Resposta_inativa, w)) ∧
  (Response.formId r = formId → Response.is_ativo r = true →
   ∃ w1 r1,
     FormService.desativarResposta formId respostaId usuario w = (inr tt, w1) ∧
     forms w1 = forms w ∧
     responses w1 = <[respostaId := r1]> (responses w) ∧
     Response.is_ativo r1 = false ∧
     Response.data_remocao r1 = Some (now w) ∧
     Response.usuario_remocao r1 = Some usuario ∧
     sucede_resposta r r1 ∧
     ∀ u, FormService.desativarResposta formId respostaId u w1
            = (inl Resposta_inativa, w1)).
Proof.
intros Hr.
unfold FormService.desativarResposta, Repo.findResponseById, Repo.softDeleteResponse.
unfold_M. rewrite Hr.
split; [|split].
- intros Hne. by rewrite bool_decide_eq_false_2.
- intros He Ha. rewrite bool_decide_eq_true_2 by done. by rewrite Ha.
- intros He Ha. rewrite bool_decide_eq_true_2 by done. rewrite Ha. simpl.
  rewrite Hr. rewrite bool_decide_eq_true_2 by done.
  eexists _, _. split; [reflexivity|]. simpl.
  repeat split; try done.
  + congruence.
  + intros u. rewrite lookup_insert_eq. simpl.
    by rewrite bool_decide_eq_true_2.
Qed.

Lemma desativarResposta_comportamento_witness :
  (Response.formId resposta_exemplo ≠ "form_001" →
   FormService.desativarResposta "form_001" "resposta_1" "ana" mundo_com_resposta
     = (inl Resposta_nao_encontrada, mundo_com_resposta)) ∧
  (Response.formId resposta_exemplo = "form_001" →
   Response.is_ativo resposta_exemplo = false →
   FormService.desativarResposta "form_001" "resposta_1" "ana" mundo_com_resposta
     = (inl Resposta_inativa, mundo_com_resposta)) ∧
  (Response.formId resposta_exemplo = "form_001" →
   Response.is_ativo resposta_exemplo = true →
   ∃ w1 r1,
     FormService.desativarResposta "form_001" "resposta_1" "ana" mundo_com_resposta
       = (inr tt, w1) ∧
     forms w1 = forms mundo_com_resposta ∧
     responses w1 = <["resposta_1" := r1]> (responses mundo_com_resposta) ∧
     Response.is_ativo r1 = false ∧
     Response.data_remocao r1 = Some (now mundo_com_resposta) ∧
     Response.usuario_remocao r1 = Some "ana" ∧
     sucede_resposta resposta_exemplo r1 ∧
     ∀ u, FormService.desativarResposta "form_001" "resposta_1" u w1
            = (inl Resposta_inativa, w1)).
Proof.
apply (desativarResposta_comportamento "form_001" "resposta_1" "ana"
         mundo_com_resposta resposta_exemplo).
reflexivity.
Defined.

(** X26. A submitted response can be read back: after a successful
    [enviarResposta], the repository finds the response by its id under the
    form it was submitted to, as returned, and under no other form id. Its
    id is ["resposta_"] followed by the clock reading, it cites the stored
    version of the form, and it holds the answers as the JSON column returns
    them: each answer sent, except that an answer that is [undefined] or a
    function is left out (and inside an array becomes [null]). *)
Theorem resposta_enviada_e_encontrada (B : Builtins) (formId : string)
    (respostas : gmap string Value) (sv : option Z) (w w1 : World) (r : Response.t) :
  FormService.enviarResposta B formId respostas sv w = (inr r, w1) →
  Repo.findResponseById formId (Response.id r) w1 = (inr (Some r), w1) ∧
  (∀ outro, outro ≠ formId →
     Repo.findResponseById outro (Response.id r) w1 = (inr None, w1)) ∧
  Response.id r = "resposta_" +:+ pretty (now w) ∧
  (∀ k, Response.respostas r !! k = respostas !! k ≫= json_member) ∧
  Response.is_ativo r = true ∧
  ∃ f, forms w !! formId = Some f ∧ Response.schema_version r = Form.schema_version f.
Proof.
intros H. apply enviarResposta_efeito in H.
destruct H as (f & Hf & Ha & -> & Hfree & Hid & Hform & Hsv & Hresp & Hcr & Hat).
unfold Repo.findResponseById. simpl. rewrite lookup_insert_eq.
split; [by rewrite bool_decide_eq_true_2|].
split; [intros outro Hne; rewrite bool_decide_eq_false_2; [done|congruence]|].
split; [done|]. split; [|split; [done|by exists f]].
intros k. rewrite Hresp. apply lookup_omap.
Qed.

Lemma resposta_enviada_e_encontrada_witness :
  let w := mundo (formulario "form_001" 1 false []) in
  let respostas : gmap string Value :=
    {["nome" := VUndefined; "idade" := VNumber 30]} in
  let r := Response.mk "resposta_1754531443000" "form_001" 1
             {["idade" := VNumber 30]} ∅ 1754531443000 true None None in
  let w1 := mkWorld (forms w) (<["resposta_1754531443000" := r]> (responses w)) (now w)
              (audit w ++ [submissao_resposta "form_001" "resposta_1754531443000"
                             (now w)]) in
  Repo.findResponseById "form_001" (Response.id r) w1 = (inr (Some r), w1) ∧
  (∀ outro, outro ≠ "form_001" →
     Repo.findResponseById outro (Response.id r) w1 = (inr None, w1)) ∧
  Response.id r = "resposta_" +:+ pretty (now w) ∧
  (∀ k, Response.respostas r !! k = respostas !! k ≫= json_member) ∧
  Response.is_ativo r = true ∧
  ∃ f, forms w !! "form_001" = Some f ∧ Response.schema_version r = Form.schema_version f.
Proof.
intros w respostas r w1.
apply (resposta_enviada_e_encontrada example_builtins "form_001" respostas None w w1 r).
rewrite (enviarResposta_run example_builtins "form_001" respostas None w
           (formulario "form_001" 1 false []) eq_refl eq_refl).
vm_compute. reflexivity.
Defined.

(** X27. The status of [DELETE /formularios/:id] is decided by the id and
    the stored row alone: 400 for an id the id schema refuses, 404 when no
    form is stored under it, 403 when the stored form is protected (active
    or not), 200 when it is unprotected and active, 400 when it is
    unprotected and already inactive. The responses table is never touched,
    and the forms table only on 200. *)
Theorem softDelete_status (id_param : string) (w : World) :
  FormController.status (FormController.softDelete id_param w).1 =
    match FormController.idSchema id_param with
    | inl _ => 400%Z
    | inr id =>
        match forms w !! id with
        | None => 404%Z
        | Some f =>
            if Form.protegido f then 403%Z
            else if Form.is_ativo f then 200%Z else 400%Z
        end
    end ∧
  responses (FormController.softDelete id_param w).2 = responses w ∧
  (FormController.status (FormController.softDelete id_param w).1 ≠ 200%Z →
   forms (FormController.softDelete id_param w).2 = forms w).
Proof.
unfold FormController.softDelete.
destruct (FormController.idSchema id_param) as [e|id]; [done|].
rewrite obterFormularioPorId_efeito.
destruct (forms w !! id) as [f|] eqn:Hf; [|done].
destruct (Form.protegido f); [done|].
set (w1 := mkWorld _ _ _ _).
destruct (Form.is_ativo f) eqn:Ha.
- rewrite (desativarFormulario_active id "usuario_admin" w1 f Hf Ha). done.
- unfold FormService.desativarFormulario. unfold_M.
  change (forms w1 !! id) with (forms w !! id). rewrite Hf, Ha. done.
Qed.
